(** * Doclinger: ingestion job pipeline and header-aware chunking

    A shallow embedding of the Python sources
      - [app/core/chunker.py]        (approx_tokens, iter_sections,
                                      split_to_token_windows, generate_chunks_jsonl)
      - [app/core/utils.py]          (sanitize_stem)
      - [app/core/storage.py]        (list_artifacts, read_metadata, write_metadata,
                                      get_artifact_path)
      - [app/api/routes_extract.py]  (_run_extract_subprocess,
                                      _run_extraction_background, extract_job)
      - [app/core/docling_runner.py] (try_placeholder_fallback, as far as the
                                      supervisor sees it)
    together with the properties the specification states about them.

    Conventions.  A Python [str] is a list of code points; the development
    works with code points below 256, i.e. [list ascii].  Python [int]s are
    [Z].  Whitespace is what [str.isspace] (and the regular expression class
    [\s] on [str] patterns) accepts in that range. *)

From Stdlib Require Import ZArith List Ascii String Lia Bool Sorted.
From Stdlib Require Import Numbers.DecimalString.
From Stdlib Require Numbers.DecimalNat.
From stdpp Require Import base tactics option list gmap strings.

Local Open Scope Z_scope.

(** ** Text *)

Abbreviation text := (list ascii).

(** String literals of the examples. *)
Definition str (s : string) : text := list_ascii_of_string s.

Definition code (c : ascii) : N := N_of_ascii c.

Definition is_nl (c : ascii) : bool := N.eqb (code c) 10.

(** [str.isspace] on code points below 256: TAB..CR, FS..US, SPACE, NEL, NBSP. *)
Definition is_space (c : ascii) : bool :=
  let n := code c in
  (N.leb 9 n && N.leb n 13) || (N.leb 28 n && N.leb n 32)
  || N.eqb n 133 || N.eqb n 160.

Fixpoint drop_while {A} (f : A -> bool) (l : list A) : list A :=
  match l with
  | [] => []
  | x :: l' => if f x then drop_while f l' else l
  end.

Fixpoint take_while {A} (f : A -> bool) (l : list A) : list A :=
  match l with
  | [] => []
  | x :: l' => if f x then x :: take_while f l' else []
  end.

Definition lstrip (s : text) : text := drop_while is_space s.
Definition rstrip (s : text) : text := rev (drop_while is_space (rev s)).

(** [s.strip()] *)
Definition strip (s : text) : text := rstrip (lstrip s).

(** Python truthiness of a [str] or a [list]. *)
Definition truthy {A} (l : list A) : bool :=
  match l with [] => false | _ => true end.

(** [sep.join(parts)] *)
Fixpoint join (sep : text) (parts : list text) : text :=
  match parts with
  | [] => []
  | [p] => p
  | p :: rest => p ++ sep ++ join sep rest
  end.

Definition NL : text := str "
".
Definition BLANK_LINE : text := NL ++ NL.
Definition PATH_SEP : text := str " > ".

(** A text has ink when some character is not whitespace. *)
Definition has_ink (s : text) : bool := existsb (fun c => negb (is_space c)) s.

(** [s.split("\n")]: never empty, [""] gives [[""]]. *)
Fixpoint split_lines (s : text) : list text :=
  match s with
  | [] => [[]]
  | c :: s' =>
      if is_nl c then [] :: split_lines s'
      else match split_lines s' with
           | l :: ls => (c :: l) :: ls
           | [] => [[c]]
           end
  end.

(** ** chunker.py *)

Module Chunker.

Definition DEFAULT_TARGET_TOKENS : Z := 1000.
Definition DEFAULT_OVERLAP_TOKENS : Z := 120.

(** [max(0, (len(text) + 3) // 4)] *)
Definition approx_tokens (t : text) : Z :=
  Z.max 0 ((Z.of_nat (length t) + 3) / 4).

(** *** iter_sections *)

Definition is_hash (c : ascii) : bool := N.eqb (code c) 35.

(** [header_pattern.match(line)] for [^(#{1,6})\s+(.+)$] on a line that holds
    no newline (lines come from [split_lines]).  The result is
    [(len(group 1), group 2)].  [\s+] is greedy and gives one character back
    when nothing is left for [.+]. *)
Definition match_header (line : text) : option (nat * text) :=
  let hashes := take_while is_hash line in
  let rest := drop_while is_hash line in
  let k := length hashes in
  if (Nat.leb 1 k && Nat.leb k 6)%bool then
    match rest with
    | c :: rest' =>
        if is_space c then
          match rest' with
          | [] => None
          | d :: _ =>
              match drop_while is_space rest' with
              | [] => Some (k, [List.last rest' d])
              | g2 => Some (k, g2)
              end
          end
        else None
    | [] => None
    end
  else None.

(** [(level, title)] entries of [current_path]; the list grows at its end. *)
Definition path_entry : Type := nat * text.

(** [while current_path and current_path[-1][0] >= level: current_path.pop()] *)
Definition pop_path (level : nat) (path : list path_entry) : list path_entry :=
  rev (drop_while (fun e => Nat.leb level (fst e)) (rev path)).

(** The closure [flush_section]. *)
Definition flush_section (current_path : list path_entry)
    (current_section_lines : list text) : option (text * text) :=
  if truthy current_section_lines then
    let path_str :=
      if truthy current_path then join PATH_SEP (map snd current_path) else [] in
    let t := strip (join NL current_section_lines) in
    if truthy t then Some (path_str, t) else None
  else None.

(** The generator's local variables and what it has yielded so far. *)
Record sec_state := SecState {
  current_path : list path_entry;
  current_section_lines : list text;
  yielded : list (text * text)
}.

Definition sec_init : sec_state := SecState [] [] [].

Definition yield_opt (out : option (text * text)) (ys : list (text * text)) :=
  match out with
  | Some o => ys ++ [o]
  | None => ys
  end.

(** One iteration of [for line in lines]. *)
Definition sec_step (st : sec_state) (line : text) : sec_state :=
  match match_header line with
  | Some (level, g2) =>
      let title := strip g2 in
      let out := flush_section (current_path st) (current_section_lines st) in
      SecState (pop_path level (current_path st) ++ [(level, title)])
               [line]
               (yield_opt out (yielded st))
  | None =>
      SecState (current_path st) (current_section_lines st ++ [line]) (yielded st)
  end.

Definition sec_loop (lines : list text) : sec_state :=
  fold_left sec_step lines sec_init.

Definition iter_sections (markdown : text) : list (text * text) :=
  let st := sec_loop (split_lines markdown) in
  yield_opt (flush_section (current_path st) (current_section_lines st))
            (yielded st).

(** *** split_to_token_windows *)

(** After a newline: how many further characters the match of [\n\s*\n]
    takes, if there is one.  The greedy [\s*] runs to the last newline of the
    whitespace run. *)
Fixpoint sep_rest (s : text) : option nat :=
  match s with
  | [] => None
  | c :: s' =>
      if is_space c then
        match sep_rest s' with
        | Some n => Some (S n)
        | None => if is_nl c then Some 1%nat else None
        end
      else None
  end.

(** [re.split(r"\n\s*\n", text)], scanning left to right; [skip] counts the
    characters of the current separator still to pass. *)
Fixpoint re_split_loop (s : text) (skip : nat) (piece : text) : list text :=
  match s with
  | [] => [piece]
  | c :: s' =>
      match skip with
      | S k => re_split_loop s' k piece
      | O =>
          if is_nl c then
            match sep_rest s' with
            | Some n => piece :: re_split_loop s' n []
            | None => re_split_loop s' 0 (piece ++ [c])
            end
          else re_split_loop s' 0 (piece ++ [c])
      end
  end.

Definition split_paragraphs (t : text) : list text := re_split_loop t 0 [].

Definition sum_tokens (ps : list text) : Z :=
  fold_right (fun p acc => approx_tokens p + acc) 0 ps.

(** The inner loop [for p in reversed(current)] with its [break]. *)
Fixpoint overlap_loop (overlap_tokens : Z) (reversed_current : list text)
    (overlap_paragraphs : list text) (overlap_so_far : Z) : list text :=
  match reversed_current with
  | [] => overlap_paragraphs
  | p :: rest =>
      let overlap_paragraphs' := p :: overlap_paragraphs in
      let overlap_so_far' := overlap_so_far + approx_tokens p in
      if overlap_tokens <=? overlap_so_far' then overlap_paragraphs'
      else overlap_loop overlap_tokens rest overlap_paragraphs' overlap_so_far'
  end.

Definition overlap_seed (overlap_tokens : Z) (current : list text) : list text :=
  overlap_loop overlap_tokens (rev current) [] 0.

Record win_state := WinState {
  windows : list text;
  current : list text;
  current_tokens : Z
}.

Definition win_init : win_state := WinState [] [] 0.

Definition append_window (ws : list text) (cur : list text) : list text :=
  let window_text := strip (join BLANK_LINE cur) in
  if truthy window_text then ws ++ [window_text] else ws.

(** One iteration of [for para in paragraphs]. *)
Definition win_step (target_tokens overlap_tokens : Z)
    (st : win_state) (para : text) : win_state :=
  if truthy (strip para) then
    let pt := approx_tokens para in
    let st1 :=
      if ((target_tokens <? current_tokens st + pt) && truthy (current st))%bool
      then
        let cur' := overlap_seed overlap_tokens (current st) in
        WinState (append_window (windows st) (current st)) cur' (sum_tokens cur')
      else st in
    WinState (windows st1) (current st1 ++ [para]) (current_tokens st1 + pt)
  else st.

Definition win_loop (target_tokens overlap_tokens : Z) (paragraphs : list text)
  : win_state :=
  fold_left (win_step target_tokens overlap_tokens) paragraphs win_init.

(** The local [step] of the source is computed and never read; it has no
    counterpart here. *)
Definition split_to_token_windows (t : text) (target_tokens overlap_tokens : Z)
  : list text :=
  if (negb (truthy t) || negb (truthy (strip t)))%bool then []
  else if approx_tokens t <=? target_tokens then
    (if truthy (strip t) then [strip t] else [])
  else
    let st := win_loop target_tokens overlap_tokens (split_paragraphs t) in
    if truthy (current st) then append_window (windows st) (current st)
    else windows st.

(** *** generate_chunks_jsonl *)

Record chunk := Chunk {
  chunk_id : text;
  chunk_text : text;
  meta_doc_id : text;
  meta_section : text
}.

Definition decimal (n : nat) : text :=
  str (NilEmpty.string_of_uint (Nat.to_uint n)).

(** What has been written to the output file, and [chunk_index]. *)
Definition writer : Type := list chunk * nat.

(** Body of [for w in windows] (both copies). *)
Definition write_window (doc_id section : text) (st : writer) (w : text) : writer :=
  if truthy (strip w) then
    (fst st ++ [Chunk (doc_id ++ str "_" ++ decimal (snd st)) (strip w) doc_id section],
     S (snd st))
  else st.

Definition write_section (doc_id : text) (target_tokens overlap_tokens : Z)
    (st : writer) (sec : text * text) : writer :=
  fold_left (write_window doc_id (fst sec))
            (split_to_token_windows (snd sec) target_tokens overlap_tokens) st.

(** The block under [if chunk_index == 0 and markdown.strip():], which
    windows the whole document as one section with the empty path. *)
Definition rewindow_whole (doc_id : text) (target_tokens overlap_tokens : Z)
    (markdown : text) (st : writer) : writer :=
  if (Nat.eqb (snd st) 0 && truthy (strip markdown))%bool then
    fold_left (write_window doc_id [])
              (split_to_token_windows markdown target_tokens overlap_tokens) st
  else st.

(** [document] is [None] when [document_md_path] does not exist; the result is
    the records written and the returned count. *)
Definition generate_chunks_jsonl (document : option text) (doc_id : text)
    (target_tokens overlap_tokens : Z) : writer :=
  match document with
  | None => ([], 0%nat)
  | Some markdown =>
      let st := fold_left (write_section doc_id target_tokens overlap_tokens)
                          (iter_sections markdown) ([], 0%nat) in
      rewindow_whole doc_id target_tokens overlap_tokens markdown st
  end.

End Chunker.


(** ** utils.py *)

Module Utils.

Definition MAX_STEM_LENGTH : nat := 80.

Definition DOCUMENT : text := str "document".

Definition is_slash (c : ascii) : bool := N.eqb (code c) 47.
Definition is_dot (c : ascii) : bool := N.eqb (code c) 46.
Definition is_blank (c : ascii) : bool := N.eqb (code c) 32.
Definition is_underscore (c : ascii) : bool := N.eqb (code c) 95.
Definition UNDERSCORE : ascii := "_"%char.

(** [s.split(sep)] for a one-character separator. *)
Fixpoint split_on (sep : ascii -> bool) (s : text) : list text :=
  match s with
  | [] => [[]]
  | c :: s' =>
      if sep c then [] :: split_on sep s'
      else match split_on sep s' with
           | l :: ls => (c :: l) :: ls
           | [] => [[c]]
           end
  end.

(** [pathlib.PurePosixPath(filename).name]: the last component that is
    neither empty nor ["."]; [""] when there is none. *)
Definition path_name (filename : text) : text :=
  List.last
    (List.filter (fun x => truthy x && negb (bool_decide (x = str ".")))
                 (split_on is_slash filename))
    [].

(** [name.rfind('.')], [None] for [-1]. *)
Fixpoint rfind_dot (name : text) : option nat :=
  match name with
  | [] => None
  | c :: rest =>
      match rfind_dot rest with
      | Some i => Some (S i)
      | None => if is_dot c then Some 0%nat else None
      end
  end.

(** [PurePath.stem] (CPython up to 3.13):
    [i = name.rfind('.'); name[:i] if 0 < i < len(name) - 1 else name]. *)
Definition path_stem (filename : text) : text :=
  let name := path_name filename in
  match rfind_dot name with
  | Some i =>
      if (Nat.ltb 0 i && Nat.ltb i (length name - 1))%bool then firstn i name
      else name
  | None => name
  end.

(** The class [[A-Za-z0-9._-]]. *)
Definition is_ascii_alnum (c : ascii) : bool :=
  let n := code c in
  (N.leb 48 n && N.leb n 57) || (N.leb 65 n && N.leb n 90)
  || (N.leb 97 n && N.leb n 122).

Definition allowed (c : ascii) : bool :=
  is_ascii_alnum c || is_dot c || is_underscore c || N.eqb (code c) 45.

(** [stem.replace(" ", "_")] *)
Definition replace_blanks (s : text) : text :=
  map (fun c => if is_blank c then UNDERSCORE else c) s.

(** [re.sub(r"[^A-Za-z0-9._-]", "_", s)] *)
Definition replace_others (s : text) : text :=
  map (fun c => if allowed c then c else UNDERSCORE) s.

(** [re.sub(r"_+", "_", s)]: an underscore followed by an underscore goes. *)
Fixpoint collapse_underscores (s : text) : text :=
  match s with
  | [] => []
  | c :: s' =>
      if is_underscore c then
        match s' with
        | d :: _ => if is_underscore d then collapse_underscores s'
                    else c :: collapse_underscores s'
        | [] => [c]
        end
      else c :: collapse_underscores s'
  end.

(** [s.strip("_")] *)
Definition strip_underscores (s : text) : text :=
  rev (drop_while is_underscore (rev (drop_while is_underscore s))).

Definition starts_with_dot (s : text) : bool :=
  match s with
  | c :: _ => is_dot c
  | [] => false
  end.

(** The three substitutions and the trimming of underscores. *)
Definition clean (stem : text) : text :=
  strip_underscores (collapse_underscores (replace_others (replace_blanks stem))).

(** [any(c.isalnum() for c in s)]; [s] holds characters of [[A-Za-z0-9._-]]
    only, where [isalnum] is the ASCII letters and digits. *)
Definition any_alnum (s : text) : bool := existsb is_ascii_alnum s.

Definition sanitize_stem (filename : text) : text :=
  let stem := strip (path_stem filename) in
  if (negb (truthy stem) || starts_with_dot stem)%bool then DOCUMENT
  else
    let s := clean stem in
    if (negb (truthy s) || negb (any_alnum s))%bool then DOCUMENT
    else firstn MAX_STEM_LENGTH s.

End Utils.

(** ** The state the service runs in *)

(** File names, job ids and messages are [string]s here, so that they can
    key stdpp's finite maps and sets. *)

Module World.

Local Open Scope string_scope.

Inductive stat_value :=
| StatBool (b : bool)
| StatInt (n : Z).

(** [models.JobMetadata] *)
Record JobMetadata := Metadata {
  job_id : string;
  filename : string;
  status : string;
  artifact_prefix : option string;
  artifacts : list string;
  stats : list (string * stat_value);
  error : option string;
  created_at : option string
}.

(** [models.ProcessingConfig]: an open key/value map. *)
Definition ProcessingConfig : Type := list (string * string).

(** What a file of an output directory holds, as far as the service reads
    it back: a metadata record, a processing request, or anything else. *)
Inductive content :=
| MetadataJson (m : JobMetadata)
| ConfigJson (c : ProcessingConfig)
| Other.

Definition file : Type := string * content.

Inductive exn :=
| OSError
| TimeoutExpired
| OtherError (msg : string)
| HTTPException (status_code : Z).

(** [str(e)] *)
Definition exn_text (e : exn) : string :=
  match e with
  | OSError => "OSError"
  | TimeoutExpired => "TimeoutExpired"
  | OtherError msg => msg
  | HTTPException _ => "HTTPException"
  end.

(** What can be observed of a run, in order. *)
Inductive event :=
| EvWorker (job : string)                         (* the worker process ran *)
| EvFallback (job : string)                       (* try_placeholder_fallback was called *)
| EvWriteConfig (job : string)                    (* processing_request.json written *)
| EvWriteMetadata (job : string) (status : string)
| EvThreadStart (job : string)
| EvRelease (job : string).                       (* _extracting.discard under the lock *)

Global Instance event_eq_dec : EqDecision event.
Proof. solve_decision. Defined.

(** - [extracting]: the module-level set [_extracting];
    - [outputs]: the regular files of [OUTPUTS_DIR/<job_id>/], in [iterdir]
      order, for the directories that exist;
    - [uploads]: the regular files of [UPLOADS_DIR/<job_id>/];
    - [threads]: supervising threads started and not yet finished;
    - [log]: the events so far;
    - [faults]: an oracle for the operating system -- each file-system
      operation takes the next flag, and raises [OSError] when it is [true]. *)
Record world := MkWorld {
  extracting : gset string;
  outputs : gmap string (list file);
  uploads : gmap string (list string);
  threads : list string;
  log : list event;
  faults : list bool
}.

Definition set_extracting (s : gset string) (w : world) : world :=
  MkWorld s (outputs w) (uploads w) (threads w) (log w) (faults w).
Definition set_outputs (o : gmap string (list file)) (w : world) : world :=
  MkWorld (extracting w) o (uploads w) (threads w) (log w) (faults w).
Definition set_threads (t : list string) (w : world) : world :=
  MkWorld (extracting w) (outputs w) (uploads w) t (log w) (faults w).
Definition set_log (l : list event) (w : world) : world :=
  MkWorld (extracting w) (outputs w) (uploads w) (threads w) l (faults w).
Definition set_faults (f : list bool) (w : world) : world :=
  MkWorld (extracting w) (outputs w) (uploads w) (threads w) (log w) f.

(** *** Computations that change the world and may raise *)

Inductive outcome (A : Type) :=
| Ok (a : A)
| Raise (e : exn).
Arguments Ok {A} a.
Arguments Raise {A} e.

Definition M (A : Type) : Type := world -> outcome A * world.

Definition ret {A} (a : A) : M A := fun w => (Ok a, w).

Definition raise {A} (e : exn) : M A := fun w => (Raise e, w).

Definition bind {A B} (m : M A) (k : A -> M B) : M B :=
  fun w =>
    match m w with
    | (Ok a, w') => k a w'
    | (Raise e, w') => (Raise e, w')
    end.

(** [try: body / except ...: handler (which returns) / rest]: the handler
    sees what the body raised, the rest runs when the body did not raise. *)
Definition try_except {A B} (body : M A) (handler : exn -> M B) (rest : A -> M B)
  : M B :=
  fun w =>
    match body w with
    | (Ok a, w') => rest a w'
    | (Raise e, w') => handler e w'
    end.

(** A file-system operation: consults the oracle first. *)
Definition io {A} (f : world -> A * world) : M A :=
  fun w =>
    match faults w with
    | true :: rest => (Raise OSError, set_faults rest w)
    | false :: rest => let (a, w') := f (set_faults rest w) in (Ok a, w')
    | [] => let (a, w') := f w in (Ok a, w')
    end.

Definition emit (e : event) (w : world) : world := set_log (log w ++ [e]) w.

End World.

Declare Scope world_scope.
Delimit Scope world_scope with world.
Notation "x <- m ;; k" := (World.bind m (fun x => k))
  (at level 20, m at level 99, k at level 200) : world_scope.
Notation "m ;; k" := (World.bind m (fun _ => k))
  (at level 100, k at level 200, right associativity) : world_scope.

(** ** storage.py *)

Module Storage.

Import World.
Local Open Scope string_scope.
Local Open Scope world_scope.

Definition PROGRESS_FILENAME : string := "progress.json".
Definition PROCESSING_REQUEST_FILENAME : string := "processing_request.json".

(** [s.endswith(suffix)] *)
Fixpoint starts_with {A} `{EqDecision A} (pre s : list A) : bool :=
  match pre, s with
  | [], _ => true
  | a :: pre', b :: s' => bool_decide (a = b) && starts_with pre' s'
  | _ :: _, [] => false
  end.

Definition ends_with (s suffix : string) : bool :=
  starts_with (rev (list_ascii_of_string suffix)) (rev (list_ascii_of_string s)).

Definition dir_of (job : string) (w : world) : list file :=
  default [] (outputs w !! job).

(** [d.mkdir(parents=True, exist_ok=True)] on [OUTPUTS_DIR / job_id] *)
Definition mkdir_output (job : string) (w : world) : world :=
  match outputs w !! job with
  | Some _ => w
  | None => set_outputs (<[job := []]> (outputs w)) w
  end.

(** [job_output_dir] *)
Definition job_output_dir (job : string) : M unit :=
  io (fun w => (tt, mkdir_output job w)).

(** [get_uploaded_file_path]: the name of the first regular file. *)
Definition get_uploaded_file_path (job : string) : M (option string) :=
  io (fun w => (match uploads w !! job with
                | Some (name :: _) => Some name
                | _ => None
                end, w)).

Definition list_artifacts (job : string) : M (list string) :=
  io (fun w =>
        (List.filter
           (fun name => negb (bool_decide (name = PROGRESS_FILENAME)
                              || bool_decide (name = PROCESSING_REQUEST_FILENAME)))
           (map fst (dir_of job w)),
         w)).

Definition is_metadata_name (name : string) : bool :=
  ends_with name ".metadata.json" || ends_with name ".meta.json"
  || bool_decide (name = "metadata.json").

(** [read_metadata]: the first file with a metadata name is parsed; a file
    that does not hold a metadata record gives [None] (the exception is
    caught inside). *)
Definition read_metadata (job : string) : M (option JobMetadata) :=
  io (fun w =>
        let w' := mkdir_output job w in
        (match List.find (fun f => is_metadata_name (fst f)) (dir_of job w') with
         | Some (_, MetadataJson m) => Some m
         | _ => None
         end, w')).

(** [path.write_text(...)] into the job's output directory. *)
Fixpoint write_file (name : string) (c : content) (d : list file) : list file :=
  match d with
  | [] => [(name, c)]
  | (n, c') :: d' =>
      if bool_decide (n = name) then (name, c) :: d' else (n, c') :: write_file name c d'
  end.

Definition put_file (job name : string) (c : content) (w : world) : world :=
  let w' := mkdir_output job w in
  set_outputs (<[job := write_file name c (dir_of job w')]> (outputs w')) w'.

(** [write_metadata(job_id, metadata, artifact_prefix=prefix)] *)
Definition write_metadata (job : string) (m : JobMetadata) (prefix : string) : M unit :=
  io (fun w =>
        (tt, emit (EvWriteMetadata job (status m))
                  (put_file job (prefix ++ ".metadata.json") (MetadataJson m) w))).

(** *** get_artifact_path *)

(** What [pathlib] and the operating system provide to [get_artifact_path]:
    joining, [resolve()], [str()], [exists()] and [is_file()]. *)
Record filesystem := {
  path : Type;
  joinpath : path -> text -> path;
  resolve : path -> path;
  path_str : path -> text;
  path_exists : path -> bool;
  is_file : path -> bool;
  OUTPUTS_DIR : path
}.

(** [needle in s] *)
Fixpoint contains (needle s : text) : bool :=
  starts_with needle s
  || match s with
     | [] => false
     | _ :: s' => contains needle s'
     end.

Definition get_artifact_path (fs : filesystem) (job_id filename : text)
  : option (path fs) :=
  if (negb (truthy filename) || contains (str "..") filename
      || contains (str "/") filename || contains (str "\") filename)%bool
  then None
  else
    let od := joinpath fs (OUTPUTS_DIR fs) job_id in
    if negb (path_exists fs od) then None
    else
      let p := resolve fs (joinpath fs od filename) in
      if negb (starts_with (path_str fs (resolve fs od)) (path_str fs p)) then None
      else if is_file fs p then Some p else None.

End Storage.

(** ** routes_extract.py *)

Module RoutesExtract.

Import World Storage.
Local Open Scope string_scope.
Local Open Scope world_scope.

(** How the call of [subprocess.run] ends: the worker exits with a return
    code, the 1800 s timeout expires, or the call raises something else. *)
Inductive worker_end :=
| Exited (returncode : Z)
| TimedOut
| Failed (msg : string).

(** What lies outside the service during one supervised run: the worker
    process, what it leaves in the output directory, and whether the
    placeholder extraction manages to write its document. *)
Record environment := {
  worker_ends : worker_end;
  worker_files : list file -> list file;
  fallback_writes : bool
}.

(** The world when the call of the worker is over. *)
Definition worker_done (env : environment) (job : string) (w : world) : world :=
  emit (EvWorker job)
       (set_outputs (<[job := worker_files env (dir_of job w)]> (outputs w)) w).

(** [_run_extract_subprocess]: returns the exit code; [subprocess.run] is
    called without [check=True], so a non-zero code does not raise. *)
Definition _run_extract_subprocess (env : environment) (job : string) : M Z :=
  fun w =>
    let w1 := worker_done env job w in
    match worker_ends env with
    | Exited returncode => (Ok returncode, w1)
    | TimedOut => (Raise TimeoutExpired, w1)
    | Failed msg => (Raise (OtherError msg), w1)
    end.

(** [docling_runner.try_placeholder_fallback]: catches everything itself. *)
Definition try_placeholder_fallback (env : environment) (job prefix : string)
  : M bool :=
  fun w =>
    let w1 := emit (EvFallback job) w in
    let prefix := if bool_decide (prefix = "") then "document" else prefix in
    if fallback_writes env then
      (Ok true,
       put_file job (prefix ++ ".document_structured.json") Other
         (put_file job (prefix ++ ".document.md") Other w1))
    else (Ok false, w1).

(** [with _extracting_lock: _extracting.discard(job_id)] *)
Definition release (job : string) : M unit :=
  fun w => (Ok tt, emit (EvRelease job) (set_extracting (extracting w ∖ {[job]}) w)).

(** The test behind [has_output] that looks at the output directory. *)
Definition has_document_file (job : string) : M bool :=
  io (fun w =>
        (existsb (fun f => ends_with (fst f) ".document.md"
                           || ends_with (fst f) ".document_structured.json")
                 (dir_of job w),
         w)).

Definition fallback_stats : list (string * stat_value) :=
  [("fallback", StatBool true); ("num_chunks", StatInt 0)].

(** The body shared by [except subprocess.TimeoutExpired] and
    [except Exception as e]; they differ in the error text only. *)
Definition after_failed_worker (env : environment) (job input_name prefix : string)
    (error_text : string) : M unit :=
  recovered <- try_placeholder_fallback env job prefix ;;
  (if recovered then
     artifacts <- list_artifacts job ;;
     write_metadata job
       (Metadata job input_name "completed" (Some prefix) artifacts
                 fallback_stats None None) prefix
   else
     artifacts <- list_artifacts job ;;
     write_metadata job
       (Metadata job input_name "failed" (Some prefix) artifacts
                 [] (Some error_text) None) prefix) ;;
  release job.

Definition NO_OUTPUT_ERROR : string :=
  "Extraction failed. Check docker logs Docling for details.".

(** The statements after the [try] statement, reached when the call of the
    worker returned; [exit_code] is not looked at. *)
Definition after_worker_returned (job input_name prefix : string) (exit_code : Z)
  : M unit :=
  artifacts <- list_artifacts job ;;
  written <- read_metadata job ;;
  found <- has_document_file job ;;
  let has_output := (found || bool_decide (is_Some written))%bool in
  (if has_output then
     match written with
     | Some _ => ret tt
     | None =>
         write_metadata job
           (Metadata job input_name "completed" (Some prefix) artifacts
                     [] None None) prefix
     end
   else
     write_metadata job
       (Metadata job input_name "failed" (Some prefix) artifacts
                 [] (Some NO_OUTPUT_ERROR) None) prefix) ;;
  release job.

Definition _run_extraction_background (env : environment)
    (job input_name prefix : string) : M unit :=
  try_except (_run_extract_subprocess env job)
    (fun e =>
       match e with
       | TimeoutExpired =>
           after_failed_worker env job input_name prefix "Extraction timed out"
       | e => after_failed_worker env job input_name prefix (exn_text e)
       end)
    (after_worker_returned job input_name prefix).

(** [models.ExtractionSummary] *)
Record ExtractionSummary := Summary {
  summary_job_id : string;
  success : bool;
  message : string;
  summary_artifacts : list string
}.

Definition ALREADY_IN_PROGRESS : string :=
  "Extraction already in progress. Poll /job/{id}/progress for status.".
Definition STARTED : string :=
  "Extraction started. Poll GET /job/{id} and GET /job/{id}/progress for status.".

(** The block under [with _extracting_lock:]; [true] when the job was
    already in the set. *)
Definition check_and_add (job : string) : M bool :=
  fun w =>
    if bool_decide (job ∈ extracting w) then (Ok true, w)
    else (Ok false, set_extracting ({[job]} ∪ extracting w) w).

Definition write_processing_request (job : string) (config : ProcessingConfig)
  : M unit :=
  job_output_dir job ;;
  io (fun w =>
        (tt, emit (EvWriteConfig job)
                  (put_file job PROCESSING_REQUEST_FILENAME (ConfigJson config) w))).

(** [thread.start()] *)
Definition start_thread (job : string) : M unit :=
  fun w => (Ok tt, emit (EvThreadStart job) (set_threads (threads w ++ [job]) w)).

Definition prefix_of (name : string) : string :=
  string_of_list_ascii (Utils.sanitize_stem (list_ascii_of_string name)).

(** [body] is the [processing_config] of the request, if any; the default
    configuration has no keys. *)
Definition extract_job (job : string) (body : option ProcessingConfig)
  : M ExtractionSummary :=
  input_path <- get_uploaded_file_path job ;;
  match input_path with
  | None => raise (HTTPException 404)
  | Some input_name =>
      job_output_dir job ;;
      let prefix := prefix_of input_name in
      busy <- check_and_add job ;;
      if busy then ret (Summary job true ALREADY_IN_PROGRESS [])
      else
        let config_data := default [] body in
        write_processing_request job config_data ;;
        write_metadata job
          (Metadata job input_name "extracting" (Some prefix) [] [] None None)
          prefix ;;
        start_thread job ;;
        ret (Summary job true STARTED [])
  end.

(** *** The service as a transition system *)

Fixpoint remove_first (job : string) (l : list string) : list string :=
  match l with
  | [] => []
  | x :: l' => if bool_decide (x = job) then l' else x :: remove_first job l'
  end.

(** A request is handled, or a running supervisor runs to its end, or files
    change under the service; the oracle may hold anything each time. *)
Inductive step : world -> world -> Prop :=
| step_request job body oracle w :
    step w (snd (extract_job job body (set_faults oracle w)))
| step_supervisor job env input_name prefix oracle w :
    In job (threads w) ->
    step w (set_threads (remove_first job (threads w))
              (snd (_run_extraction_background env job input_name prefix
                      (set_faults oracle w))))
| step_files o u w :
    step w (MkWorld (extracting w) o u (threads w) (log w) (faults w)).

(** The service starts with an empty guard and no supervisor. *)
Inductive reachable : world -> Prop :=
| reachable_start w : extracting w = ∅ -> threads w = [] -> reachable w
| reachable_step w w' : reachable w -> step w w' -> reachable w'.

End RoutesExtract.

(** ** utils.py and config.py: what uploads are accepted *)

Module UtilsMore.

Import Utils.

(** [config.ALLOWED_EXTENSIONS] *)
Definition ALLOWED_EXTENSIONS : list text :=
  map str [".pdf"; ".docx"; ".pptx"; ".xlsx";
           ".html"; ".htm"; ".md"; ".csv"; ".txt";
           ".png"; ".tiff"; ".tif"; ".jpg"; ".jpeg"]%string.

(** [PurePath.suffix] (CPython up to 3.13):
    [i = name.rfind('.'); name[i:] if 0 < i < len(name) - 1 else ''] *)
Definition path_suffix (filename : text) : text :=
  let name := path_name filename in
  match rfind_dot name with
  | Some i =>
      if (Nat.ltb 0 i && Nat.ltb i (length name - 1))%bool then skipn i name
      else []
  | None => []
  end.

(** [str.lower] on one code point below 256: the ASCII capitals and the
    Latin-1 capitals (U+00C0..U+00DE but the multiplication sign) move up
    by 32. *)
Definition lower_char (c : ascii) : ascii :=
  let n := code c in
  if ((N.leb 65 n && N.leb n 90) || (N.leb 192 n && N.leb n 214)
      || (N.leb 216 n && N.leb n 222))%bool
  then ascii_of_N (n + 32) else c.

Definition lower (s : text) : text := map lower_char s.

(** [x in ALLOWED_EXTENSIONS] *)
Definition mem (x : text) (l : list text) : bool :=
  existsb (fun e => bool_decide (e = x)) l.

Definition is_allowed_file (filename : text) : bool :=
  mem (lower (path_suffix filename)) ALLOWED_EXTENSIONS.

End UtilsMore.

(** ** storage.py: the artifact prefix of a job *)

Module StorageMore.

Import World Storage.
Local Open Scope string_scope.
Local Open Scope world_scope.

Definition get_artifact_prefix (job : string) : M string :=
  p <- get_uploaded_file_path job ;;
  ret (match p with
       | None => "document"
       | Some name => RoutesExtract.prefix_of name
       end).

Definition set_uploads (u : gmap string (list string)) (w : world) : world :=
  MkWorld (extracting w) (outputs w) u (threads w) (log w) (faults w).

(** [job_upload_dir]: [d.mkdir(parents=True, exist_ok=True)] on
    [UPLOADS_DIR / job_id]. *)
Definition job_upload_dir (job : string) : M unit :=
  io (fun w =>
        (tt, match uploads w !! job with
             | Some _ => w
             | None => set_uploads (<[job := []]> (uploads w)) w
             end)).

End StorageMore.

(** ** routes_job.py *)

Module RoutesJob.

Import World Storage StorageMore.
Local Open Scope string_scope.
Local Open Scope world_scope.

(** [models.JobResponse] *)
Record JobResponse := Response {
  metadata : JobMetadata;
  artifacts : list string
}.

(** [upload_path.name if upload_path else ""] *)
Definition upload_name (upload_path : option string) : string :=
  match upload_path with
  | Some name => name
  | None => ""
  end.

(** [metadata is None or metadata.status not in ("completed", "failed")] *)
Definition not_terminal (written : option JobMetadata) : bool :=
  match written with
  | None => true
  | Some m =>
      negb (bool_decide (status m = "completed") || bool_decide (status m = "failed"))
  end.

Definition get_job (job : string) : M JobResponse :=
  written <- read_metadata job ;;
  listed <- list_artifacts job ;;
  upload_path <- get_uploaded_file_path job ;;
  if (negb (bool_decide (is_Some written)) && negb (truthy listed)
      && negb (bool_decide (is_Some upload_path)))%bool
  then raise (HTTPException 404)
  else
    has_output <- RoutesExtract.has_document_file job ;;
    reconciled <-
      (if (has_output && not_terminal written)%bool then
         let name := match written with
                     | Some m => filename m
                     | None => upload_name upload_path
                     end in
         prefix <- get_artifact_prefix job ;;
         ret (Some (Metadata job name "completed" (Some prefix) listed
                             (match written with Some m => stats m | None => [] end)
                             None None))
       else ret written) ;;
    shown <-
      (match reconciled with
       | Some m => ret m
       | None =>
           prefix <- get_artifact_prefix job ;;
           ret (Metadata job (upload_name upload_path) "uploaded" (Some prefix)
                         listed [] None None)
       end) ;;
    ret (Response shown
           (if bool_decide (status shown = "extracting") then [] else listed)).

End RoutesJob.

(** ** routes_upload.py *)

Module RoutesUpload.

Import World Storage StorageMore.
Local Open Scope string_scope.
Local Open Scope world_scope.

(** 15 MB *)
Definition MIN_FREE_BYTES : Z := 15 * 1024 * 1024.

(** What lies outside the service during one upload: the id that
    [uuid.uuid4()] draws, the free space [shutil.disk_usage] reports, and
    whether an [OSError] of this request carries [errno.ENOSPC]. *)
Record upload_environment := {
  fresh_id : string;
  free_bytes : Z;
  no_space : bool
}.

(** [generate_job_id] *)
Definition generate_job_id (env : upload_environment) : string := fresh_id env.

(** [Path(p).name] on a file name of the service. *)
Definition name_of (p : string) : string :=
  string_of_list_ascii (Utils.path_name (list_ascii_of_string p)).

(** [dest.write_bytes(contents)]: the file is there afterwards, once. *)
Definition store (job name : string) (w : world) : world :=
  let present : list string := default [] (uploads w !! job) in
  if bool_decide (name ∈ present) then w
  else set_uploads (<[job := (present ++ [name])%list]> (uploads w)) w.

(** [models.UploadResponse]: the job id. *)
Definition upload_file (env : upload_environment) (sent_name : option string)
  : M string :=
  let p := match sent_name with
           | Some n => if bool_decide (n = "") then "document" else n
           | None => "document"
           end in
  if negb (UtilsMore.is_allowed_file (list_ascii_of_string p))
  then raise (HTTPException 400)
  else
    let job := generate_job_id env in
    job_upload_dir job ;;
    let dest := if bool_decide (name_of p = "") then "document.pdf" else name_of p in
    try_except (io (fun w => (free_bytes env, w)))
      (fun e =>
         match e with
         | OSError => raise (HTTPException (if no_space env then 507 else 500))
         | e => raise e
         end)
      (fun free =>
         if (free <? MIN_FREE_BYTES)%Z then raise (HTTPException 507)
         else
           try_except (io (fun w => (tt, store job dest w)))
             (fun e =>
                match e with
                | OSError => raise (HTTPException (if no_space env then 507 else 500))
                | _ => raise (HTTPException 500)
                end)
             (fun _ => ret job)).

End RoutesUpload.

(** * Notions used by the statements *)

Import Chunker.

(** Header levels grow strictly from the bottom of the stack to its top
    (read here from the top down). *)
Definition levels_increasing (path : list path_entry) : Prop :=
  StronglySorted (fun a b : path_entry => (fst b < fst a)%nat) (rev path).

(** The label of a stack: its titles, outermost first. *)
Definition path_label (path : list path_entry) : text :=
  join PATH_SEP (map snd path).

Definition intro_part2_markdown : text := str "# Intro

First paragraph.

## Part 2

Second.".

(** A window as the windower renders a buffer of paragraphs. *)
Definition render (buf : list text) : text := strip (join BLANK_LINE buf).

(** [next] opens with paragraphs that close [prev]: some non-empty run of
    paragraphs ends the one and starts the other. *)
Definition shares_tail (prev next : text) : bool :=
  let pp := split_paragraphs prev in
  let np := split_paragraphs next in
  existsb (fun k => bool_decide (skipn (length pp - k) pp = firstn k np))
          (seq 1 (length pp)).

Fixpoint adjacent_all {A} (f : A -> A -> bool) (l : list A) : bool :=
  match l with
  | a :: (b :: _) as l' => f a b && adjacent_all f l'
  | _ => true
  end.

(** 500 paragraphs "A" joined by blank lines. *)
Definition five_hundred_A : text := join BLANK_LINE (repeat (str "A") 500).




Definition inked (s : text) : Prop := has_ink s = true.

(** Ink met so far has been yielded or sits in the buffer. *)
Definition ink_kept (st : sec_state) : Prop :=
  yielded st <> [] \/ List.Exists inked (current_section_lines st).

Definition three_paragraphs_markdown : text := str "First paragraph.

Second paragraph.

Third.".

Import Utils.

(** The derivation of the prefix as the specification words it: strip the
    extension, whitespace to underscores, keep only [[A-Za-z0-9._-]],
    collapse underscores, truncate to 80, and "document" for an empty or
    all-punctuation result.  "Keeping only" is read either as dropping the
    other characters ([drop_others = true]) or as replacing them by
    underscores. *)
Definition prefix_as_specified (drop_others : bool) (filename : text) : text :=
  let stem := path_stem filename in
  let s1 := map (fun c => if is_space c then UNDERSCORE else c) stem in
  let s2 := if drop_others then List.filter allowed s1 else replace_others s1 in
  let s3 := collapse_underscores s2 in
  let s4 := firstn 80 s3 in
  if (negb (truthy s4) || negb (any_alnum s4))%bool then DOCUMENT else s4.

(** No two underscores in a row. *)
Definition no_double_underscore (s : text) : Prop :=
  forall l1 c d l2, s = l1 ++ c :: d :: l2 ->
    ~ (is_underscore c = true /\ is_underscore d = true).

(** [r] is a run of consecutive characters of [s]. *)
Definition segment (r s : text) : Prop := exists a b, s = a ++ r ++ b.

Definition no_underscore_pair (a b : ascii) : bool :=
  negb (is_underscore a && is_underscore b).

Import World Storage RoutesExtract.

(** Every run of [m] takes a world to one that [R] relates to it. *)
Definition moves_by {A} (R : world -> world -> Prop) (m : M A) : Prop :=
  forall w, R w (snd (m w)).

(** A relation that looks at the guard, the supervisors and the log only. *)
Definition blind_to_files (R : world -> world -> Prop) : Prop :=
  forall w w', extracting w' = extracting w -> threads w' = threads w ->
               log w' = log w -> R w w'.

(** Nothing of what a request does before the guard is consulted can be
    seen in the guard, the supervisors, the log or the job's files. *)
Definition unseen (job : string) (w w' : world) : Prop :=
  extracting w' = extracting w /\ threads w' = threads w /\ log w' = log w
  /\ dir_of job w' = dir_of job w.

(** The guard and the supervisors are left alone. *)
Definition same_guard (w w' : world) : Prop :=
  threads w' = threads w /\ extracting w' = extracting w.

(** The log only grows. *)
Definition log_grows (w w' : world) : Prop :=
  exists events, log w' = log w ++ events.

(** No call of the fallback extractor for [job] is added to the log. *)
Definition no_new_fallback (job : string) (w w' : world) : Prop :=
  count_occ event_eq_dec (log w') (EvFallback job)
  = count_occ event_eq_dec (log w) (EvFallback job).

(** What a supervisor does to the guard: nothing, or it takes its job out. *)
Definition guard_after_supervisor (job : string) (w w' : world) : Prop :=
  threads w' = threads w
  /\ (extracting w' = extracting w \/ extracting w' = extracting w ∖ {[job]}).

(** At most one supervisor per job, and its job is in the guard. *)
Definition one_attempt_per_job (w : world) : Prop :=
  List.NoDup (threads w) /\ forall job, In job (threads w) -> job ∈ extracting w.

(** The record [extract_job] writes before it starts the supervisor. *)
Definition extracting_record : JobMetadata :=
  Metadata "job-1" "report.pdf" "extracting" (Some "report") [] [] None None.

(** A world in which the extraction of "job-1" has been started. *)
Definition busy_world (oracle : list bool) : world :=
  MkWorld {[ "job-1"%string ]}
          {[ "job-1"%string :=
               [("processing_request.json"%string, ConfigJson []);
                ("report.metadata.json"%string, MetadataJson extracting_record)] ]}
          {[ "job-1"%string := ["report.pdf"%string] ]}
          ["job-1"%string] [] oracle.

(** A world with an upload and nothing started. *)
Definition idle_world : world :=
  MkWorld ∅ ∅ {[ "job-1"%string := ["report.pdf"%string] ]} [] [] [].



(** The worker exits with code 1 and leaves the directory as it is; the
    placeholder extraction would succeed. *)
Definition worker_exits_1 : environment :=
  Build_environment (Exited 1) (fun d => d) true.

(** The worker times out; the placeholder extraction fails as well. *)
Definition worker_times_out : environment :=
  Build_environment TimedOut (fun d => d) false.

(** From a world in [P], [m] returns normally, with a result and a world
    in [Q]. *)
Definition returns {A} (P : world -> Prop) (m : M A) (Q : A -> world -> Prop)
  : Prop :=
  forall w, P w -> exists a, fst (m w) = Ok a /\ Q a (snd (m w)).

Definition terminal (status : string) : Prop :=
  status = "completed"%string \/ status = "failed"%string.

(** A run in progress on a healthy file system: the guard is as it was at
    the start ([guard0]), the log has grown from [log0] by events without a
    release of [job]; with [wrote], a terminal metadata record of [job] has
    been written among them. *)
Definition in_progress (job : string) (guard0 : gset string) (log0 : list event)
    (wrote : bool) (w : world) : Prop :=
  faults w = []
  /\ extracting w = guard0
  /\ exists events,
       log w = log0 ++ events
       /\ ~ In (EvRelease job) events
       /\ (wrote = true ->
           exists status, In (EvWriteMetadata job status) events /\ terminal status).

(** The run is over: [job] is out of the guard, and its release is the last
    event and the only one of its kind. *)
Definition released_once (job : string) (guard0 : gset string) (log0 : list event)
    (wrote : bool) (w : world) : Prop :=
  extracting w = guard0 ∖ {[job]}
  /\ exists events,
       log w = log0 ++ events ++ [EvRelease job]
       /\ ~ In (EvRelease job) events
       /\ (wrote = true ->
           exists status, In (EvWriteMetadata job status) events /\ terminal status).

(** The guard is as it was and no release of [job] has been logged. *)
Definition guard_untouched (job : string) (w w' : world) : Prop :=
  extracting w' = extracting w
  /\ count_occ event_eq_dec (log w') (EvRelease job)
     = count_occ event_eq_dec (log w) (EvRelease job).

(** [m] moves by [R] whenever it raises. *)
Definition raises_by {A} (R : world -> world -> Prop) (m : M A) : Prop :=
  forall w e, fst (m w) = Raise e -> R w (snd (m w)).

(** A world on a healthy file system with the given guard, supervisors and
    log. *)
Definition healthy_at (guard : gset string) (supervisors : list string)
    (events : list event) (w : world) : Prop :=
  faults w = [] /\ extracting w = guard /\ threads w = supervisors
  /\ log w = events.

(** The components of the text of a resolved path, as [PurePosixPath.parts]
    lists them after the root: the non-empty runs between slashes. *)
Definition path_parts (s : text) : list text :=
  List.filter truthy (split_on is_slash s).

(** [p.is_relative_to(d)] for resolved paths: the components of [d] open
    those of [p], so that [p] is [d] or lies below it. *)
Definition located_in (fs : filesystem) (d p : path fs) : Prop :=
  exists below, path_parts (path_str fs p) = path_parts (path_str fs d) ++ below.

(** The name of a directory entry: not empty, without a slash, and neither
    "." nor "..". *)
Definition entry_name (s : text) : Prop :=
  s <> [] /\ Forall (fun c => is_slash c = false) s
  /\ s <> str "." /\ s <> str "..".

(** A file system with one symbolic link: paths are their text,
    [/data/outputs/<job>/<link>] is a link to the regular file
    [/data/outputs/<other>/<target>], and both job directories exist. *)
Definition linked_fs (job link other target : text) : filesystem :=
  let out := str "/data/outputs" in
  let link_path := out ++ str "/" ++ job ++ str "/" ++ link in
  let target_path := out ++ str "/" ++ other ++ str "/" ++ target in
  {| path := text;
     joinpath := fun p name => p ++ str "/" ++ name;
     resolve := fun p => if bool_decide (p = link_path) then target_path else p;
     path_str := fun p => p;
     path_exists := fun p =>
       bool_decide (p ∈ [out; out ++ str "/" ++ job; out ++ str "/" ++ other;
                         link_path; target_path]);
     is_file := fun p => bool_decide (p = target_path);
     OUTPUTS_DIR := out |}.


(** * Notions used by the further properties *)

(** A text that [strip] leaves as it is. *)
Definition trimmed (s : text) : Prop := strip s = s.

(** Some text of [ws] holds the content of [p] without its surrounding
    whitespace. *)
Definition holds_content (p : text) (ws : list text) : Prop :=
  exists w, In w ws /\ segment (strip p) w.

(** The windows of every section of a document, in order, each with the
    label of its section. *)
Definition labelled_windows (markdown : text) (target_tokens overlap_tokens : Z)
  : list (text * text) :=
  flat_map (fun sec => map (pair (fst sec))
                           (split_to_token_windows (snd sec) target_tokens overlap_tokens))
           (iter_sections markdown).

(** The record for the [i]-th window. *)
Definition record_of (doc_id : text) (i : nat) (lw : text * text) : chunk :=
  Chunk (doc_id ++ str "_" ++ decimal i) (snd lw) doc_id (fst lw).

(** A line that is no header. *)
Definition plain (line : text) : Prop := match_header line = None.

(** What the splitter holds between two flushes: before the first header
    an empty stack and plain lines; afterwards a buffer that starts with the
    header line that opened it, followed by plain lines, under a stack whose
    top is that header. *)
Definition section_shape (path : list path_entry) (buf : list text) : Prop :=
  (path = [] /\ Forall plain buf)
  \/ (exists line level g2 outer rest,
        buf = line :: rest /\ match_header line = Some (level, g2)
        /\ Forall plain rest /\ path = outer ++ [(level, strip g2)]).

Definition plain_lines_markdown : text := str "  plain text

more of it
".

(** ** Files, jobs and supervisors *)

(** The only file of the directory with a metadata name is the job's own
    [<prefix>.metadata.json]. *)
Definition only_own_metadata (prefix : string) (d : list file) : Prop :=
  forall f, In f d -> is_metadata_name (fst f) = true ->
            fst f = (prefix ++ ".metadata.json")%string.

(** Apart from the oracle, the second world holds what the first holds:
    the same guard, supervisors, log and uploads, and the same files in
    every output directory. *)
Definition same_contents (w w' : world) : Prop :=
  extracting w' = extracting w /\ threads w' = threads w /\ log w' = log w
  /\ uploads w' = uploads w /\ forall job, dir_of job w' = dir_of job w.

(** A job whose worker has written a document while the stored record
    still says "extracting". *)
Definition converted_world : world :=
  MkWorld ∅
          {[ "job-1"%string :=
               [("report.metadata.json"%string, MetadataJson extracting_record);
                ("report.document.md"%string, Other)] ]}
          {[ "job-1"%string := ["report.pdf"%string] ]}
          [] [] [].

(** An entry of the guard without a supervisor that could release it. *)
Definition leaked (job : string) (w : world) : Prop :=
  job ∈ extracting w /\ ~ In job (threads w).

(** The world after the supervisor of [job] has run to its end, whatever
    way it ended. *)
Definition after_supervisor (env : environment) (job input_name prefix : string)
    (oracle : list bool) (w : world) : world :=
  set_threads (remove_first job (threads w))
    (snd (_run_extraction_background env job input_name prefix
            (set_faults oracle w))).

(** The text the supervisor records when the call of the worker raised. *)
Definition failure_text (e : worker_end) : string :=
  match e with
  | TimedOut => "Extraction timed out"
  | Failed msg => msg
  | Exited _ => ""
  end.

(** ** Names, artifacts and uploads *)

(** A file system in which every path exists and is a regular file. *)
Definition full_fs : filesystem :=
  {| path := text;
     joinpath := fun p name => p ++ str "/" ++ name;
     resolve := fun p => p;
     path_str := fun p => p;
     path_exists := fun _ => true;
     is_file := fun _ => true;
     OUTPUTS_DIR := str "/data/outputs" |}.

(** An upload that goes through: the id drawn is "job-7" and 1 GB is free. *)
Definition roomy : RoutesUpload.upload_environment :=
  {| RoutesUpload.fresh_id := "job-7";
     RoutesUpload.free_bytes := 1073741824;
     RoutesUpload.no_space := false |}.

(** What an upload leaves alone: the guard, the supervisors, the log, the
    output directories and the uploads of every other job. *)
Definition upload_keeps (job : string) (w w' : world) : Prop :=
  extracting w' = extracting w /\ threads w' = threads w /\ log w' = log w
  /\ outputs w' = outputs w
  /\ forall other, other <> job -> uploads w' !! other = uploads w !! other.

(** * Properties *)

(** ** Whitespace and trimming *)

Section TextFacts.

Lemma truthy_drop_while_space s : truthy (drop_while is_space s) = has_ink s.
Proof.
  induction s as [|c s IH]; simpl; [reflexivity|].
  destruct (is_space c); simpl; auto.
Qed.

Lemma has_ink_drop_while_space s : has_ink (drop_while is_space s) = has_ink s.
Proof.
  induction s as [|c s IH]; simpl; [reflexivity|].
  destruct (is_space c) eqn:E; simpl; [auto | now rewrite E].
Qed.

Lemma has_ink_app s1 s2 : has_ink (s1 ++ s2) = (has_ink s1 || has_ink s2)%bool.
Proof. apply existsb_app. Qed.

Lemma has_ink_rev s : has_ink (rev s) = has_ink s.
Proof.
  induction s as [|c s IH]; simpl; [reflexivity|].
  rewrite has_ink_app, IH. simpl. rewrite orb_false_r. apply orb_comm.
Qed.

Lemma truthy_rev {A} (l : list A) : truthy (rev l) = truthy l.
Proof.
  destruct l as [|x l]; [reflexivity|]. simpl.
  destruct (rev l); reflexivity.
Qed.

Lemma truthy_strip s : truthy (strip s) = has_ink s.
Proof.
  unfold strip, rstrip, lstrip.
  rewrite truthy_rev, truthy_drop_while_space, has_ink_rev.
  apply has_ink_drop_while_space.
Qed.

Lemma has_ink_strip s : has_ink (strip s) = has_ink s.
Proof.
  unfold strip, rstrip, lstrip.
  now rewrite has_ink_rev, has_ink_drop_while_space, has_ink_rev,
    has_ink_drop_while_space.
Qed.

Lemma has_ink_truthy s : has_ink s = true -> truthy s = true.
Proof. destruct s; [discriminate | reflexivity]. Qed.

Lemma truthy_nil {A} (l : list A) : truthy l = false <-> l = [].
Proof. destruct l; simpl; split; intros H; (reflexivity || discriminate H). Qed.

Lemma strip_blank s : has_ink s = false -> strip s = [].
Proof. intros H. apply truthy_nil. now rewrite truthy_strip. Qed.



Lemma approx_tokens_eq t : approx_tokens t = (Z.of_nat (length t) + 3) / 4.
Proof.
  unfold approx_tokens. apply Z.max_r.
  apply Z.div_pos; lia.
Qed.



Lemma approx_tokens_nonneg t : 0 <= approx_tokens t.
Proof. unfold approx_tokens. lia. Qed.

Lemma approx_tokens_pos t : t <> [] -> 1 <= approx_tokens t.
Proof.
  intros H. rewrite approx_tokens_eq.
  destruct t as [|c t]; [congruence|]. simpl length.
  apply Z.div_le_lower_bound; lia.
Qed.

End TextFacts.

(** ** The windower on blank text *)

(** C9 (as amended).  For every text without a non-whitespace character, and
    for all values of [target_tokens] and [overlap_tokens], the windower
    returns the empty list -- also when the token estimate of the text is
    within the target, where the short-text branch would otherwise return the
    trimmed text.  The estimate itself counts whitespace: it is zero only for
    the empty text. *)
Theorem windower_blank_text_no_window (t : text) (target_tokens overlap_tokens : Z) :
  has_ink t = false ->
  split_to_token_windows t target_tokens overlap_tokens = []
  /\ (approx_tokens t = 0 <-> t = []).
Proof.
  intros Hblank. split.
  - unfold split_to_token_windows.
    rewrite truthy_strip, Hblank. now rewrite orb_true_r.
  - split.
    + intros H0. destruct t as [|c t]; [reflexivity|].
      assert (1 <= approx_tokens (c :: t)) by (apply approx_tokens_pos; discriminate).
      lia.
    + now intros ->.
Qed.

Lemma windower_blank_text_no_window_witness :
  split_to_token_windows (str "   ") 1 0 = []
  /\ (approx_tokens (str "   ") = 0 <-> str "   " = []).
Proof. apply (windower_blank_text_no_window (str "   ") 1 0). reflexivity. Defined.

(** The estimate of a whitespace-only text is not within every non-negative
    target: one blank has estimate 1, above the target 0 (and still no
    window is returned). *)
Lemma blank_text_estimate_above_target :
  has_ink (str " ") = false
  /\ split_to_token_windows (str " ") 0 0 = []
  /\ 0 <= 0
  /\ ~ (approx_tokens (str " ") <= 0).
Proof.
  split; [reflexivity|]. split; [reflexivity|]. split; [lia|].
  change (approx_tokens (str " ")) with 1. lia.
Qed.

(** ** The section splitter *)

Section SectionSplitter.

Lemma sec_loop_snoc lines line :
  sec_loop (lines ++ [line]) = sec_step (sec_loop lines) line.
Proof. unfold sec_loop. now rewrite fold_left_app. Qed.

Lemma drop_above_is_filter level (l : list path_entry) :
  StronglySorted (fun a b : path_entry => (fst b < fst a)%nat) l ->
  drop_while (fun e : path_entry => Nat.leb level (fst e)) l = List.filter (fun e : path_entry => Nat.ltb (fst e) level) l.
Proof.
  induction 1 as [|x l Hs IH Hall]; simpl; [reflexivity|].
  destruct (Nat.leb_spec level (fst x)) as [Hle|Hlt].
  - destruct (Nat.ltb_spec (fst x) level); [lia | exact IH].
  - destruct (Nat.ltb_spec (fst x) level); [|lia].
    f_equal. symmetry. apply forallb_filter_id.
    apply forallb_forall. intros y Hy.
    rewrite List.Forall_forall in Hall. specialize (Hall y Hy).
    apply Nat.ltb_lt. lia.
Qed.

Lemma pop_path_filter level path :
  levels_increasing path ->
  pop_path level path = List.filter (fun e : path_entry => Nat.ltb (fst e) level) path.
Proof.
  intros Hs. unfold pop_path.
  rewrite <- (rev_involutive (List.filter _ path)), <- filter_rev.
  f_equal. apply drop_above_is_filter, Hs.
Qed.

Lemma drop_above_sorted level (l : list path_entry) :
  StronglySorted (fun a b : path_entry => (fst b < fst a)%nat) l ->
  StronglySorted (fun a b : path_entry => (fst b < fst a)%nat)
                 (drop_while (fun e : path_entry => Nat.leb level (fst e)) l)
  /\ Forall (fun e : path_entry => (fst e < level)%nat) (drop_while (fun e : path_entry => Nat.leb level (fst e)) l).
Proof.
  induction 1 as [|x l Hs IH Hall]; simpl.
  - split; constructor.
  - destruct (Nat.leb_spec level (fst x)) as [Hle|Hlt].
    + exact IH.
    + split; [now constructor|].
      constructor; [exact Hlt|].
      eapply List.Forall_impl; [|exact Hall]. simpl. intros; lia.
Qed.

Lemma levels_increasing_push level title path :
  levels_increasing path ->
  levels_increasing (pop_path level path ++ [(level, title)]).
Proof.
  intros Hs. unfold levels_increasing, pop_path.
  rewrite rev_app_distr, rev_involutive. simpl.
  destruct (drop_above_sorted level _ Hs) as [H1 H2].
  constructor; assumption.
Qed.

Lemma levels_increasing_step st line :
  levels_increasing (current_path st) ->
  levels_increasing (current_path (sec_step st line)).
Proof.
  intros Hs. unfold sec_step.
  destruct (match_header line) as [[level g2]|]; simpl; [|exact Hs].
  now apply levels_increasing_push.
Qed.

Lemma levels_increasing_loop lines :
  levels_increasing (current_path (sec_loop lines)).
Proof.
  induction lines as [|line lines IH] using rev_ind.
  - constructor.
  - rewrite sec_loop_snoc. now apply levels_increasing_step.
Qed.

Lemma flush_section_label path cur p t :
  flush_section path cur = Some (p, t) ->
  p = path_label path /\ t = strip (join NL cur) /\ has_ink t = true.
Proof.
  unfold flush_section, path_label.
  destruct (truthy cur); [|discriminate].
  destruct (truthy (strip (join NL cur))) eqn:E; [|discriminate].
  intros [= <- <-]. split; [|split; [reflexivity|]].
  - destruct path; reflexivity.
  - now rewrite has_ink_strip, <- truthy_strip.
Qed.

(** Whatever has been yielded was flushed from the state reached on some
    prefix of the lines. *)
Lemma yielded_from_flush lines s :
  In s (yielded (sec_loop lines)) ->
  exists k, (k <= length lines)%nat /\
    let st := sec_loop (firstn k lines) in
    flush_section (current_path st) (current_section_lines st) = Some s.
Proof.
  induction lines as [|line lines IH] using rev_ind; [intros []|].
  rewrite sec_loop_snoc. unfold sec_step at 1.
  assert (Hpre : forall k, (k <= length lines)%nat ->
            firstn k (lines ++ [line]) = firstn k lines).
  { intros k Hk. rewrite firstn_app.
    replace (k - length lines)%nat with 0%nat by lia.
    simpl. apply app_nil_r. }
  assert (Hold : In s (yielded (sec_loop lines)) ->
     exists k, (k <= length (lines ++ [line]))%nat /\
       let st := sec_loop (firstn k (lines ++ [line])) in
       flush_section (current_path st) (current_section_lines st) = Some s).
  { intros Hin. destruct (IH Hin) as (k & Hk & Hf).
    exists k. rewrite length_app. split; [lia|]. now rewrite Hpre. }
  destruct (match_header line) as [[level g2]|]; simpl; [|exact Hold].
  destruct (flush_section _ _) as [o|] eqn:Ef; simpl; [|exact Hold].
  rewrite in_app_iff. intros [Hin|[<-|[]]]; [now apply Hold|].
  exists (length lines). rewrite length_app. split; [lia|].
  rewrite Hpre by lia. now rewrite firstn_all.
Qed.

End SectionSplitter.

(** C6.  On a line matching the header pattern the splitter first flushes
    the previous buffer as a section, pops every stack entry whose level is
    at least the new header's level, pushes the new (level, title) and starts
    the next buffer with the header line; every emitted section is labelled
    with the titles of the stack at its flush, outermost first, joined by
    " > ".  On "# Intro\n\nFirst paragraph.\n\n## Part 2\n\nSecond." it yields
    two sections, with paths "Intro" and "Intro > Part 2". *)
Theorem section_splitter_header_stack
    (lines : list text) (line : text) (level : nat) (g2 : text) :
  match_header line = Some (level, g2) ->
  let st := sec_loop lines in
  let st' := sec_loop (lines ++ [line]) in
  yielded st' =
    yield_opt (flush_section (current_path st) (current_section_lines st))
              (yielded st)
  /\ current_path st' =
       List.filter (fun e => Nat.ltb (fst e) level) (current_path st)
       ++ [(level, strip g2)]
  /\ current_section_lines st' = [line]
  /\ (forall markdown s, In s (iter_sections markdown) ->
        exists k, let st := sec_loop (firstn k (split_lines markdown)) in
          flush_section (current_path st) (current_section_lines st) = Some s
          /\ fst s = path_label (current_path st))
  /\ iter_sections intro_part2_markdown =
       [(str "Intro", str "# Intro

First paragraph.");
        (str "Intro > Part 2", str "## Part 2

Second.")].
Proof.
  intros Hm st st'. subst st st'. rewrite sec_loop_snoc.
  unfold sec_step. rewrite Hm. simpl.
  split; [reflexivity|]. split.
  { rewrite pop_path_filter by apply levels_increasing_loop. reflexivity. }
  split; [reflexivity|]. split; [|vm_compute; reflexivity].
  intros markdown s Hin. unfold iter_sections in Hin.
  set (all := split_lines markdown) in *.
  assert (Hlabel : forall k,
     flush_section (current_path (sec_loop (firstn k all)))
                   (current_section_lines (sec_loop (firstn k all))) = Some s ->
     fst s = path_label (current_path (sec_loop (firstn k all)))).
  { intros k Hf. destruct s as [p t].
    now apply flush_section_label in Hf as [-> _]. }
  destruct (flush_section (current_path (sec_loop all)) _) as [o|] eqn:Ef;
    simpl in Hin.
  - apply in_app_iff in Hin as [Hin|[<-|[]]].
    + apply yielded_from_flush in Hin as (k & _ & Hf).
      exists k. simpl. split; [exact Hf | now apply Hlabel].
    + exists (length all). simpl. rewrite firstn_all.
      split; [exact Ef|]. specialize (Hlabel (length all)).
      rewrite firstn_all in Hlabel. now apply Hlabel.
  - apply yielded_from_flush in Hin as (k & _ & Hf).
    exists k. simpl. split; [exact Hf | now apply Hlabel].
Qed.

Lemma section_splitter_header_stack_witness :
  let lines := split_lines (str "# Intro

First paragraph.
") in
  let st := sec_loop lines in
  let st' := sec_loop (lines ++ [str "## Part 2"]) in
  yielded st' =
    yield_opt (flush_section (current_path st) (current_section_lines st))
              (yielded st)
  /\ current_path st' =
       List.filter (fun e => Nat.ltb (fst e) 2) (current_path st)
       ++ [(2%nat, strip (str "Part 2"))]
  /\ current_section_lines st' = [str "## Part 2"]
  /\ (forall markdown s, In s (iter_sections markdown) ->
        exists k, let st := sec_loop (firstn k (split_lines markdown)) in
          flush_section (current_path st) (current_section_lines st) = Some s
          /\ fst s = path_label (current_path st))
  /\ iter_sections intro_part2_markdown =
       [(str "Intro", str "# Intro

First paragraph.");
        (str "Intro > Part 2", str "## Part 2

Second.")].
Proof.
  apply (section_splitter_header_stack
           (split_lines (str "# Intro

First paragraph.
")) (str "## Part 2") 2 (str "Part 2")).
  reflexivity.
Defined.

(** ** The token windower *)

Section Windower.

Variables target_tokens overlap_tokens : Z.

Local Abbreviation loop := (win_loop target_tokens overlap_tokens).
Local Abbreviation step := (win_step target_tokens overlap_tokens).

Lemma win_loop_snoc ps para : loop (ps ++ [para]) = step (loop ps) para.
Proof. unfold win_loop. now rewrite fold_left_app. Qed.

Lemma sum_tokens_app ps qs : sum_tokens (ps ++ qs) = sum_tokens ps + sum_tokens qs.
Proof. induction ps as [|p ps IH]; simpl; lia. Qed.

Lemma sum_tokens_nonneg ps : 0 <= sum_tokens ps.
Proof.
  induction ps as [|p ps IH]; simpl; [lia|].
  pose proof (approx_tokens_nonneg p). lia.
Qed.


(** What the backward walk returns: the paragraphs taken, back in their
    original order, in front of what was collected before. *)
Lemma overlap_loop_spec revcur : forall acc so_far,
  exists taken rest,
    revcur = taken ++ rest
    /\ overlap_loop overlap_tokens revcur acc so_far = rev taken ++ acc
    /\ (revcur <> [] -> taken <> [])
    /\ (rest = [] \/ overlap_tokens <= so_far + sum_tokens taken)
    /\ (so_far + sum_tokens (removelast taken) < overlap_tokens
        \/ removelast taken = []).
Proof.
  induction revcur as [|p rest IH]; intros acc so_far.
  - exists [], []. simpl.
    split; [reflexivity|]. split; [reflexivity|]. split; [congruence|].
    split; [now left | now right].
  - simpl. destruct (Z.leb_spec overlap_tokens (so_far + approx_tokens p)) as [Hge|Hlt].
    + exists [p], rest. simpl.
      split; [reflexivity|]. split; [reflexivity|]. split; [congruence|].
      split; [right; lia | now right].
    + destruct (IH (p :: acc) (so_far + approx_tokens p))
        as (taken & rest' & -> & Hres & Hne & Hstop & Hmin).
      exists (p :: taken), rest'. simpl.
      split; [reflexivity|]. split; [rewrite Hres, <- app_assoc; reflexivity|].
      split; [congruence|]. split; [destruct Hstop; [auto | right; lia]|].
      destruct taken as [|q taken]; [now right|].
      left. destruct Hmin as [Hmin|Hmin].
      * simpl in *. lia.
      * rewrite Hmin. simpl. lia.
Qed.

(** The seed is a non-empty closing run of the buffer, in its order; the walk
    goes on until the run weighs [overlap_tokens] or the buffer is used up,
    and no further. *)
Lemma overlap_seed_spec cur :
  let seed := overlap_seed overlap_tokens cur in
  (exists older, cur = older ++ seed)
  /\ (cur <> [] -> seed <> [])
  /\ (seed = cur \/ overlap_tokens <= sum_tokens seed)
  /\ (sum_tokens (tl seed) < overlap_tokens \/ tl seed = []).
Proof.
  unfold overlap_seed.
  destruct (overlap_loop_spec (rev cur) [] 0)
    as (taken & rest & Hsplit & Hres & Hne & Hstop & Hmin).
  rewrite Hres, app_nil_r.
  assert (Hcur : cur = rev rest ++ rev taken).
  { rewrite <- (rev_involutive cur), Hsplit. apply rev_app_distr. }
  assert (Hsum : forall l, sum_tokens (rev l) = sum_tokens l).
  { induction l as [|x l IHl]; simpl; [reflexivity|].
    rewrite sum_tokens_app. simpl. lia. }
  assert (Htl : tl (rev taken) = rev (removelast taken)).
  { destruct taken as [|x taken] using rev_ind; [reflexivity|].
    rewrite removelast_last, rev_app_distr. reflexivity. }
  split; [now exists (rev rest)|]. split.
  { intros Hc Hr. apply Hne.
    - intros E. apply Hc. rewrite <- (rev_involutive cur), E. reflexivity.
    - rewrite <- (rev_involutive taken), Hr. reflexivity. }
  split.
  { destruct Hstop as [-> | Hge]; [left; now rewrite Hcur | right].
    rewrite Hsum. lia. }
  rewrite Htl, Hsum. destruct Hmin as [Hmin | ->]; [left; lia | now right].
Qed.

Lemma has_ink_join sep buf :
  buf <> [] -> Forall (fun p => has_ink p = true) buf -> has_ink (join sep buf) = true.
Proof.
  intros Hne Hall. destruct Hall as [|p buf Hp Hall]; [congruence|].
  destruct buf as [|q buf]; simpl; [exact Hp|].
  rewrite has_ink_app, Hp. reflexivity.
Qed.

Lemma append_window_inked ws buf :
  buf <> [] -> Forall (fun p => has_ink p = true) buf ->
  append_window ws buf = ws ++ [render buf].
Proof.
  intros Hne Hall. unfold append_window, render.
  now rewrite truthy_strip, has_ink_join.
Qed.

(** Only paragraphs with ink enter the buffer. *)
Lemma current_inked ps : Forall (fun p => has_ink p = true) (current (loop ps)).
Proof.
  induction ps as [|para ps IH] using rev_ind; [constructor|].
  rewrite win_loop_snoc. unfold win_step.
  destruct (truthy (strip para)) eqn:Hp; [|exact IH].
  rewrite truthy_strip in Hp.
  assert (Hseed : Forall (fun p => has_ink p = true)
                    (overlap_seed overlap_tokens (current (loop ps)))).
  { destruct (overlap_seed_spec (current (loop ps))) as [[older Ho] _].
    rewrite Ho in IH. now apply Forall_app in IH as [_ IH]. }
  destruct (_ && _)%bool; simpl; apply Forall_app; split; auto.
Qed.

Lemma truthy_true {A} (l : list A) : truthy l = true <-> l <> [].
Proof. destruct l; simpl; split; intros H; congruence. Qed.

(** The iteration that meets a full buffer. *)
Lemma win_step_emit st para :
  has_ink para = true ->
  target_tokens < current_tokens st + approx_tokens para ->
  current st <> [] ->
  step st para =
    WinState (append_window (windows st) (current st))
             (overlap_seed overlap_tokens (current st) ++ [para])
             (sum_tokens (overlap_seed overlap_tokens (current st))
              + approx_tokens para).
Proof.
  intros Hink Hover Hne. unfold win_step.
  rewrite truthy_strip, Hink.
  apply Z.ltb_lt in Hover. rewrite Hover.
  apply truthy_true in Hne. rewrite Hne. reflexivity.
Qed.

(** The iteration that only appends. *)
Lemma win_step_keep st para :
  has_ink para = true ->
  current_tokens st + approx_tokens para <= target_tokens \/ current st = [] ->
  step st para =
    WinState (windows st) (current st ++ [para])
             (current_tokens st + approx_tokens para).
Proof.
  intros Hink Hcase. unfold win_step. rewrite truthy_strip, Hink.
  destruct Hcase as [Hle | Hnil].
  - apply Z.ltb_ge in Hle. rewrite Hle. reflexivity.
  - rewrite Hnil. simpl. rewrite andb_false_r. now rewrite Hnil.
Qed.

Lemma win_step_blank st para : has_ink para = false -> step st para = st.
Proof. intros H. unfold win_step. now rewrite truthy_strip, H. Qed.

End Windower.

(** C5.  When the text's estimate exceeds [target_tokens] the windower walks
    the blank-line-separated paragraphs.  Before adding a paragraph that
    would push the tally over [target_tokens] while the buffer is not empty,
    it emits the buffer (joined by blank lines, trimmed), seeds the next
    buffer with the closing paragraphs of the emitted one -- collected from
    the end backward until they weigh [overlap_tokens], kept in their order --
    and resets the tally to the seed's token sum before the paragraph is
    appended.  For target 50, overlap 5 and 500 paragraphs "A" there are at
    least two windows, and each window after the first opens with paragraphs
    that close the one before. *)
Theorem windower_emit_and_seed
    (target_tokens overlap_tokens : Z) (ps : list text) (para : text) :
  has_ink para = true ->
  let st := win_loop target_tokens overlap_tokens ps in
  target_tokens < current_tokens st + approx_tokens para ->
  current st <> [] ->
  let st' := win_loop target_tokens overlap_tokens (ps ++ [para]) in
  let seed := overlap_seed overlap_tokens (current st) in
  windows st' = windows st ++ [strip (join BLANK_LINE (current st))]
  /\ current st' = seed ++ [para]
  /\ current_tokens st' = sum_tokens seed + approx_tokens para
  /\ (exists older, current st = older ++ seed)
  /\ seed <> []
  /\ (seed = current st \/ overlap_tokens <= sum_tokens seed)
  /\ (sum_tokens (tl seed) < overlap_tokens \/ tl seed = [])
  /\ (forall t, has_ink t = true -> target_tokens < approx_tokens t ->
        split_to_token_windows t target_tokens overlap_tokens =
          let fin := win_loop target_tokens overlap_tokens (split_paragraphs t) in
          if truthy (current fin) then windows fin ++ [render (current fin)]
          else windows fin)
  /\ let ws := split_to_token_windows five_hundred_A 50 5 in
     (2 <= length ws)%nat /\ adjacent_all shares_tail ws = true.
Proof.
  intros Hink st Hover Hne st' seed.
  assert (Hst' : st' = WinState (windows st ++ [render (current st)])
                                (seed ++ [para])
                                (sum_tokens seed + approx_tokens para)).
  { subst st'. rewrite win_loop_snoc, (win_step_emit _ _ _ _ Hink Hover Hne).
    rewrite append_window_inked; [reflexivity | exact Hne | apply current_inked]. }
  rewrite Hst'. cbn [windows current current_tokens]. clear Hst' st'.
  destruct (overlap_seed_spec overlap_tokens (current st))
    as (Hsuffix & Hnonempty & Hreach & Hstop).
  fold seed in Hsuffix, Hnonempty, Hreach, Hstop.
  split; [reflexivity|]. split; [reflexivity|]. split; [reflexivity|].
  split; [exact Hsuffix|]. split; [auto|]. split; [exact Hreach|].
  split; [exact Hstop|]. split.
  - intros t Ht Hlong. unfold split_to_token_windows.
    rewrite truthy_strip, Ht, (has_ink_truthy _ Ht). simpl.
    apply Z.leb_gt in Hlong. rewrite Hlong.
    destruct (truthy _) eqn:Hc; [|reflexivity].
    apply append_window_inked; [now apply truthy_true | apply current_inked].
  - vm_compute. split; [lia | reflexivity].
Qed.

Lemma windower_emit_and_seed_witness :
  let target_tokens := 50 in
  let overlap_tokens := 5 in
  let ps := repeat (str "A") 50 in
  let para := str "A" in
  let st := win_loop target_tokens overlap_tokens ps in
  let st' := win_loop target_tokens overlap_tokens (ps ++ [para]) in
  let seed := overlap_seed overlap_tokens (current st) in
  windows st' = windows st ++ [strip (join BLANK_LINE (current st))]
  /\ current st' = seed ++ [para]
  /\ current_tokens st' = sum_tokens seed + approx_tokens para
  /\ (exists older, current st = older ++ seed)
  /\ seed <> []
  /\ (seed = current st \/ overlap_tokens <= sum_tokens seed)
  /\ (sum_tokens (tl seed) < overlap_tokens \/ tl seed = [])
  /\ (forall t, has_ink t = true -> target_tokens < approx_tokens t ->
        split_to_token_windows t target_tokens overlap_tokens =
          let fin := win_loop target_tokens overlap_tokens (split_paragraphs t) in
          if truthy (current fin) then windows fin ++ [render (current fin)]
          else windows fin)
  /\ let ws := split_to_token_windows five_hundred_A 50 5 in
     (2 <= length ws)%nat /\ adjacent_all shares_tail ws = true.
Proof.
  apply (windower_emit_and_seed 50 5 (repeat (str "A") 50) (str "A")).
  - reflexivity.
  - vm_compute. reflexivity.
  - vm_compute. discriminate.
Defined.

(** ** Window sizes *)

Section WindowBudget.

Variables target_tokens overlap_tokens : Z.

Local Abbreviation loop := (win_loop target_tokens overlap_tokens).




Lemma firstn_snoc_le {A} (l : list A) x k :
  (k <= length l)%nat -> firstn k (l ++ [x]) = firstn k l.
Proof.
  intros Hk. rewrite firstn_app.
  replace (k - length l)%nat with 0%nat by lia.
  simpl. apply app_nil_r.
Qed.

(** Every window on record renders the buffer of an earlier iteration. *)
Lemma windows_from_buffers ps w :
  In w (windows (loop ps)) ->
  exists k, (k < length ps)%nat
            /\ current (loop (firstn k ps)) <> []
            /\ w = render (current (loop (firstn k ps))).
Proof.
  induction ps as [|para ps IH] using rev_ind; [intros []|].
  assert (Hold : In w (windows (loop ps)) ->
            exists k, (k < length (ps ++ [para]))%nat
                      /\ current (loop (firstn k (ps ++ [para]))) <> []
                      /\ w = render (current (loop (firstn k (ps ++ [para]))))).
  { intros Hin. destruct (IH Hin) as (k & Hk & Hne & ->).
    exists k. rewrite length_app. split; [simpl; lia|].
    now rewrite firstn_snoc_le by lia. }
  rewrite win_loop_snoc. unfold win_step.
  destruct (truthy (strip para)); [|exact Hold].
  destruct (_ && truthy (current (loop ps)))%bool eqn:Hc; simpl; [|exact Hold].
  apply andb_prop in Hc as [_ Hne]. apply truthy_true in Hne.
  rewrite append_window_inked by (auto using current_inked).
  rewrite in_app_iff. intros [Hin|[<-|[]]]; [auto|].
  exists (length ps). rewrite length_app. split; [simpl; lia|].
  rewrite firstn_snoc_le by lia. now rewrite firstn_all.
Qed.


End WindowBudget.




(** ** The chunk writer *)

Section InkSurvives.

Lemma is_nl_space c : is_nl c = true -> is_space c = true.
Proof.
  unfold is_nl, is_space. intros H. apply N.eqb_eq in H. now rewrite H.
Qed.

Lemma split_lines_cons s : exists l ls, split_lines s = l :: ls.
Proof.
  destruct s as [|c s]; simpl; [now eauto|].
  destruct (is_nl c); [now eauto|].
  destruct (split_lines s); eauto.
Qed.

Lemma split_lines_ink s : inked s -> List.Exists inked (split_lines s).
Proof.
  unfold inked. induction s as [|c s IH]; simpl; [discriminate|].
  destruct (is_nl c) eqn:Hnl.
  - rewrite (is_nl_space _ Hnl). simpl. intros H. right. auto.
  - destruct (split_lines_cons s) as (l & ls & E). rewrite E in *.
    destruct (is_space c) eqn:Hsp; simpl; intros H.
    + specialize (IH H). inversion IH; subst.
      * left. unfold inked in *. simpl. now rewrite Hsp.
      * now right.
    + left. unfold inked. simpl. now rewrite Hsp.
Qed.

Lemma join_ink sep ls : List.Exists inked ls -> inked (join sep ls).
Proof.
  unfold inked. induction 1 as [l ls Hl | l ls Hls IH].
  - destruct ls; simpl; [exact Hl|]. now rewrite has_ink_app, Hl.
  - destruct ls as [|l' ls]; [inversion Hls|].
    change (join sep (l :: l' :: ls)) with (l ++ sep ++ join sep (l' :: ls)).
    rewrite !has_ink_app, IH. now rewrite !orb_true_r.
Qed.

Lemma sep_rest_spaces s : forall n,
  sep_rest s = Some n -> forallb is_space (firstn n s) = true.
Proof.
  induction s as [|c s IH]; simpl; [discriminate|].
  destruct (is_space c) eqn:Hsp; [|discriminate].
  destruct (sep_rest s) as [m|].
  - intros n [= <-]. simpl. now rewrite Hsp, IH.
  - destruct (is_nl c); [|discriminate].
    intros n [= <-]. simpl. now rewrite Hsp.
Qed.

Lemma re_split_loop_ink s : forall skip piece,
  forallb is_space (firstn skip s) = true ->
  (has_ink piece || has_ink s)%bool = true ->
  List.Exists inked (re_split_loop s skip piece).
Proof.
  induction s as [|c s IH]; intros skip piece Hskip Hink.
  - simpl in *. rewrite orb_false_r in Hink. now left.
  - destruct skip as [|k].
    + assert (Hgo : List.Exists inked (re_split_loop s 0 (piece ++ [c]))).
      { apply IH; [reflexivity|].
        rewrite has_ink_app. simpl in *. rewrite orb_false_r.
        now rewrite <- orb_assoc. }
      simpl. destruct (is_nl c) eqn:Hnl; [|exact Hgo].
      destruct (sep_rest s) as [n|] eqn:Hsep; [|exact Hgo].
      destruct (has_ink piece) eqn:Hp; [now left|]. right.
      apply IH; [now apply sep_rest_spaces|].
      simpl in Hink. now rewrite (is_nl_space _ Hnl) in Hink.
    + simpl in *. apply andb_prop in Hskip as [Hc Hskip].
      rewrite Hc in Hink. simpl in Hink. now apply IH.
Qed.

Lemma split_paragraphs_ink t : inked t -> List.Exists inked (split_paragraphs t).
Proof. intros H. now apply re_split_loop_ink. Qed.

End InkSurvives.

Section SectionsOfInkedText.

Lemma flush_section_inked path buf :
  List.Exists inked buf -> exists o, flush_section path buf = Some o.
Proof.
  intros Hb. unfold flush_section.
  assert (Hne : truthy buf = true) by (destruct Hb; reflexivity).
  rewrite Hne, truthy_strip, (join_ink NL buf Hb). eauto.
Qed.

Lemma sec_step_ink st line :
  ink_kept st \/ inked line -> ink_kept (sec_step st line).
Proof.
  unfold ink_kept, sec_step.
  destruct (match_header line) as [[level g2]|]; simpl.
  - intros [[Hy|Hb]|Hl].
    + left. destruct (flush_section _ _); simpl; [|exact Hy].
      intros E. now apply app_eq_nil in E as [_ E].
    + left. destruct (flush_section_inked (current_path st) _ Hb) as [o ->].
      simpl. intros E. now apply app_eq_nil in E as [_ E].
    + right. now left.
  - intros [[Hy|Hb]|Hl]; [now left | right | right];
      apply Exists_app; [now left | right; now left].
Qed.

Lemma sec_loop_ink lines : List.Exists inked lines -> ink_kept (sec_loop lines).
Proof.
  induction lines as [|line lines IH] using rev_ind; [inversion 1|].
  intros H. apply Exists_app in H as [H|H]; rewrite sec_loop_snoc;
    apply sec_step_ink.
  - left. auto.
  - right. now inversion H.
Qed.

Lemma iter_sections_nonempty markdown : inked markdown -> iter_sections markdown <> [].
Proof.
  intros H. unfold iter_sections.
  destruct (sec_loop_ink _ (split_lines_ink _ H)) as [Hy|Hb].
  - destruct (flush_section _ _); simpl; [|exact Hy].
    intros E. now apply app_eq_nil in E as [_ E].
  - destruct (flush_section_inked (current_path (sec_loop (split_lines markdown)))
                _ Hb) as [o ->].
    simpl. intros E. now apply app_eq_nil in E as [_ E].
Qed.

Lemma iter_sections_inked markdown s :
  In s (iter_sections markdown) -> inked (snd s).
Proof.
  intros Hin. unfold iter_sections in Hin.
  assert (Hflush : forall path buf, flush_section path buf = Some s -> inked (snd s)).
  { intros path buf Hf. destruct s as [p t].
    now apply flush_section_label in Hf as (_ & _ & Hf). }
  destruct (flush_section (current_path (sec_loop (split_lines markdown))) _)
    as [o|] eqn:Ef; simpl in Hin.
  - apply in_app_iff in Hin as [Hin|[<-|[]]]; [|eauto].
    apply yielded_from_flush in Hin as (k & _ & Hf). eauto.
  - apply yielded_from_flush in Hin as (k & _ & Hf). eauto.
Qed.

End SectionsOfInkedText.

Section WindowsOfInkedText.

Variables target_tokens overlap_tokens : Z.

Lemma loop_keeps_ink ps :
  List.Exists inked ps -> current (win_loop target_tokens overlap_tokens ps) <> [].
Proof.
  induction ps as [|para ps IH] using rev_ind; [inversion 1|].
  intros H. rewrite win_loop_snoc. unfold win_step.
  rewrite truthy_strip. destruct (has_ink para) eqn:Hp.
  - destruct (_ && _)%bool; simpl; intros E; now apply app_eq_nil in E as [_ E].
  - apply Exists_app in H as [H|H]; [auto|].
    inversion H as [? ? Hi | ? ? Hi]; [unfold inked in Hi; congruence | inversion Hi].
Qed.

Lemma render_inked buf :
  buf <> [] -> Forall (fun p => has_ink p = true) buf -> inked (render buf).
Proof.
  intros Hne Hall. unfold inked, render.
  now rewrite has_ink_strip, has_ink_join.
Qed.

(** An inked text yields at least one window, and every window is inked. *)
Lemma windows_of_inked_text t :
  inked t ->
  let ws := split_to_token_windows t target_tokens overlap_tokens in
  ws <> [] /\ List.Forall inked ws.
Proof.
  intros Ht. unfold split_to_token_windows.
  rewrite truthy_strip, Ht, (has_ink_truthy _ Ht). simpl.
  destruct (approx_tokens t <=? target_tokens).
  { split; [discriminate|]. constructor; [|constructor].
    unfold inked. now rewrite has_ink_strip. }
  set (fin := win_loop target_tokens overlap_tokens (split_paragraphs t)).
  assert (Hne : current fin <> [])
    by (apply loop_keeps_ink, split_paragraphs_ink, Ht).
  apply truthy_true in Hne as Htr. rewrite Htr.
  rewrite append_window_inked; [|exact Hne|apply current_inked].
  split; [intros E; now apply app_eq_nil in E as [_ E]|].
  apply List.Forall_forall. intros w Hin.
  apply in_app_iff in Hin as [Hin|[<-|[]]].
  - apply windows_from_buffers in Hin as (k & _ & Hk & ->).
    apply render_inked; [exact Hk | apply current_inked].
  - apply render_inked; [exact Hne | apply current_inked].
Qed.

End WindowsOfInkedText.

Section Writer.

Variables (doc_id : text) (target_tokens overlap_tokens : Z).

Lemma write_windows_count section ws : forall st,
  List.Forall inked ws ->
  snd (fold_left (write_window doc_id section) ws st) = (snd st + length ws)%nat.
Proof.
  induction ws as [|w ws IH]; intros st Hall; simpl; [lia|].
  inversion Hall as [|? ? Hw Hws]; subst.
  rewrite IH by assumption. unfold write_window.
  rewrite truthy_strip, Hw. simpl. lia.
Qed.

Lemma write_window_record section st w :
  length (fst st) = snd st ->
  let st' := write_window doc_id section st w in
  length (fst st') = snd st'
  /\ exists more, fst st' = fst st ++ more
       /\ List.Forall (fun c => meta_section c = section /\ meta_doc_id c = doc_id
                                /\ inked (chunk_text c)) more.
Proof.
  intros Hlen. unfold write_window. rewrite truthy_strip.
  destruct (has_ink w) eqn:Hw; simpl.
  - split; [rewrite length_app; simpl; lia|].
    eexists. split; [reflexivity|]. constructor; [|constructor].
    simpl. repeat split. unfold inked. now rewrite has_ink_strip.
  - split; [exact Hlen|]. exists []. now rewrite app_nil_r.
Qed.

Lemma write_windows_records section ws : forall st,
  length (fst st) = snd st ->
  let st' := fold_left (write_window doc_id section) ws st in
  length (fst st') = snd st'
  /\ exists more, fst st' = fst st ++ more
       /\ List.Forall (fun c => meta_section c = section /\ meta_doc_id c = doc_id
                                /\ inked (chunk_text c)) more.
Proof.
  induction ws as [|w ws IH]; intros st Hlen; simpl.
  - split; [exact Hlen|]. exists []. now rewrite app_nil_r.
  - destruct (write_window_record section st w Hlen) as (Hl1 & m1 & Hm1 & Hall1).
    destruct (IH _ Hl1) as (Hl & more & Hm & Hall).
    split; [exact Hl|]. exists (m1 ++ more).
    rewrite Hm, Hm1, <- app_assoc. split; [reflexivity|].
    apply List.Forall_app. now split.
Qed.

Lemma write_section_count st sec :
  inked (snd sec) ->
  (snd st < snd (write_section doc_id target_tokens overlap_tokens st sec))%nat.
Proof.
  intros Hs. unfold write_section.
  destruct (windows_of_inked_text target_tokens overlap_tokens _ Hs) as [Hne Hall].
  rewrite write_windows_count by exact Hall.
  destruct (split_to_token_windows _ _ _); [congruence | simpl; lia].
Qed.

Lemma write_sections_count secs : forall st,
  List.Forall (fun s => inked (snd s)) secs ->
  (snd st + length secs
   <= snd (fold_left (write_section doc_id target_tokens overlap_tokens) secs st))%nat.
Proof.
  induction secs as [|sec secs IH]; intros st Hall; simpl; [lia|].
  inversion Hall as [|? ? Hs Hss]; subst.
  specialize (IH (write_section doc_id target_tokens overlap_tokens st sec) Hss).
  pose proof (write_section_count st sec Hs). lia.
Qed.

Lemma write_sections_length secs : forall st,
  length (fst st) = snd st ->
  let st' := fold_left (write_section doc_id target_tokens overlap_tokens) secs st in
  length (fst st') = snd st'.
Proof.
  induction secs as [|sec secs IH]; intros st Hlen; simpl; [exact Hlen|].
  apply IH. unfold write_section. now apply write_windows_records.
Qed.

End Writer.

(** C7.  For a document whose markdown is not blank the chunk writer emits
    at least one chunk, and returns the number of records written.  Whenever
    the header-derived sections leave the count at zero, the whole document
    is windowed again as one section, which yields at least one record, and
    every record carries the empty section path.  The header-less
    "First paragraph.\n\nSecond paragraph.\n\nThird." with target 20 and
    overlap 5 gives a first chunk with [meta.section = ""]. *)
Theorem chunk_writer_emits_for_inked_document
    (markdown doc_id : text) (target_tokens overlap_tokens : Z) :
  truthy (strip markdown) = true ->
  let out := generate_chunks_jsonl (Some markdown) doc_id target_tokens overlap_tokens in
  (1 <= snd out)%nat
  /\ length (fst out) = snd out
  /\ (forall st : writer, fst st = [] -> snd st = 0%nat ->
        let out' := rewindow_whole doc_id target_tokens overlap_tokens markdown st in
        (1 <= snd out')%nat
        /\ List.Forall (fun c => meta_section c = []) (fst out'))
  /\ (exists first rest,
        fst (generate_chunks_jsonl (Some three_paragraphs_markdown) (str "d1") 20 5)
          = first :: rest
        /\ meta_section first = []).
Proof.
  intros Hstrip out. pose proof Hstrip as Hink. rewrite truthy_strip in Hink.
  set (by_sections :=
         fold_left (write_section doc_id target_tokens overlap_tokens)
                   (iter_sections markdown) ([], 0%nat)).
  assert (Hsecs : (1 <= snd by_sections)%nat).
  { subst by_sections.
    pose proof (write_sections_count doc_id target_tokens overlap_tokens
                  (iter_sections markdown) ([], 0%nat)) as Hc.
    assert (Hall : List.Forall (fun s => inked (snd s)) (iter_sections markdown)).
    { apply List.Forall_forall. intros s Hs. eapply iter_sections_inked, Hs. }
    specialize (Hc Hall).
    pose proof (iter_sections_nonempty markdown Hink).
    destruct (iter_sections markdown); [congruence|].
    cbn [length snd] in Hc. lia. }
  assert (Hout : out = by_sections).
  { subst out. unfold generate_chunks_jsonl, rewindow_whole. fold by_sections.
    destruct (snd by_sections); [lia | reflexivity]. }
  split; [now rewrite Hout|]. split.
  { rewrite Hout. subst by_sections. now apply write_sections_length. }
  split; [|vm_compute; eauto].
  intros [recs n] Hrecs Hn. simpl in Hrecs, Hn. subst recs n.
  unfold rewindow_whole. simpl.
  rewrite Hstrip.
  destruct (windows_of_inked_text target_tokens overlap_tokens _ Hink) as [Hne Hall].
  split.
  - rewrite write_windows_count by exact Hall.
    destruct (split_to_token_windows _ _ _); [congruence | simpl; lia].
  - destruct (write_windows_records doc_id []
                (split_to_token_windows markdown target_tokens overlap_tokens)
                ([], 0%nat) eq_refl) as (_ & more & Hm & Hmore).
    rewrite Hm. simpl. eapply List.Forall_impl; [|exact Hmore].
    simpl. now intros c [Hc _].
Qed.

Lemma chunk_writer_emits_for_inked_document_witness :
  let markdown := three_paragraphs_markdown in
  let doc_id := str "d1" in
  let out := generate_chunks_jsonl (Some markdown) doc_id 20 5 in
  (1 <= snd out)%nat
  /\ length (fst out) = snd out
  /\ (forall st : writer, fst st = [] -> snd st = 0%nat ->
        let out' := rewindow_whole doc_id 20 5 markdown st in
        (1 <= snd out')%nat
        /\ List.Forall (fun c => meta_section c = []) (fst out'))
  /\ (exists first rest,
        fst (generate_chunks_jsonl (Some three_paragraphs_markdown) (str "d1") 20 5)
          = first :: rest
        /\ meta_section first = []).
Proof.
  apply (chunk_writer_emits_for_inked_document
           three_paragraphs_markdown (str "d1") 20 5).
  reflexivity.
Defined.

(** ** The artifact prefix *)

Section Prefix.

Lemma drop_while_suffix (f : ascii -> bool) s : exists pre, s = pre ++ drop_while f s.
Proof.
  induction s as [|c s [pre IH]]; simpl; [now exists []|].
  destruct (f c); [|now exists []].
  exists (c :: pre). simpl. now rewrite <- IH.
Qed.

Lemma rdrop_while_prefix (f : ascii -> bool) s :
  exists post, s = rev (drop_while f (rev s)) ++ post.
Proof.
  destruct (drop_while_suffix f (rev s)) as [pre E].
  exists (rev pre).
  rewrite <- rev_app_distr, <- E. symmetry. apply rev_involutive.
Qed.

Lemma drop_while_head (f : ascii -> bool) s c r :
  drop_while f s = c :: r -> f c = false.
Proof.
  induction s as [|d s IH]; simpl; [discriminate|].
  destruct (f d) eqn:E; [exact IH|]. now intros [= <- _].
Qed.

(** Trimming underscores keeps a run of the text, opened by something else
    than an underscore. *)
Lemma strip_underscores_spec s :
  segment (strip_underscores s) s
  /\ forall c r, strip_underscores s = c :: r -> is_underscore c = false.
Proof.
  unfold strip_underscores.
  destruct (drop_while_suffix is_underscore s) as [pre E].
  destruct (rdrop_while_prefix is_underscore (drop_while is_underscore s))
    as [post E'].
  split.
  - exists pre, post. now rewrite <- E', <- E.
  - intros c r Hr. rewrite Hr in E'.
    apply (drop_while_head is_underscore s c (r ++ post)). exact E'.
Qed.

Lemma firstn_segment n s : segment (firstn n s) s.
Proof. exists [], (skipn n s). simpl. symmetry. apply firstn_skipn. Qed.

Lemma segment_trans r s t : segment r s -> segment s t -> segment r t.
Proof.
  intros (a & b & ->) (a' & b' & ->).
  exists (a' ++ a), (b ++ b'). now rewrite <- !app_assoc.
Qed.

Lemma segment_Forall (P : ascii -> Prop) r s :
  segment r s -> List.Forall P s -> List.Forall P r.
Proof.
  intros (a & b & ->) H.
  apply List.Forall_app in H as [_ H]. now apply List.Forall_app in H as [H _].
Qed.

Lemma segment_no_double r s :
  segment r s -> no_double_underscore s -> no_double_underscore r.
Proof.
  intros (a & b & ->) H l1 c d l2 ->.
  apply (H (a ++ l1) c d (l2 ++ b)).
  now rewrite <- !app_assoc.
Qed.

Lemma collapse_allowed s :
  List.Forall (fun c => allowed c = true) s ->
  List.Forall (fun c => allowed c = true) (collapse_underscores s).
Proof.
  induction 1 as [|c s Hc Hs IH]; simpl; [constructor|].
  destruct (is_underscore c).
  - destruct s as [|d s]; [now repeat constructor|].
    destruct (is_underscore d); [exact IH | now constructor].
  - now constructor.
Qed.

Lemma adjacent_all_cons {A} (f : A -> A -> bool) a b l :
  adjacent_all f (a :: b :: l) = (f a b && adjacent_all f (b :: l))%bool.
Proof. reflexivity. Qed.

Lemma collapse_adjacent s :
  adjacent_all no_underscore_pair (collapse_underscores s) = true.
Proof.
  induction s as [|c s IH]; [reflexivity|].
  cbn [collapse_underscores].
  destruct (is_underscore c) eqn:Hc.
  - destruct s as [|d s]; [reflexivity|].
    destruct (is_underscore d) eqn:Hd; [exact IH|].
    assert (E : collapse_underscores (d :: s) = d :: collapse_underscores s)
      by (cbn [collapse_underscores]; now rewrite Hd).
    rewrite E in *. rewrite adjacent_all_cons, IH.
    unfold no_underscore_pair. now rewrite Hc, Hd.
  - destruct (collapse_underscores s) as [|x r]; [reflexivity|].
    rewrite adjacent_all_cons, IH.
    unfold no_underscore_pair. now rewrite Hc.
Qed.

Lemma adjacent_no_double s :
  adjacent_all no_underscore_pair s = true -> no_double_underscore s.
Proof.
  intros H l1. revert s H.
  induction l1 as [|x l1 IH]; intros s H c d l2 -> [Hc Hd].
  - cbn [app] in H. rewrite adjacent_all_cons in H.
    unfold no_underscore_pair in H. rewrite Hc, Hd in H. discriminate.
  - apply (IH (l1 ++ c :: d :: l2)) with (c := c) (d := d) (l2 := l2); auto.
    cbn [app] in H. destruct (l1 ++ c :: d :: l2) eqn:E; [reflexivity|].
    rewrite adjacent_all_cons in H. now apply andb_prop in H as [_ H].
Qed.

Lemma replace_others_allowed s :
  List.Forall (fun c => allowed c = true) (replace_others s).
Proof.
  unfold replace_others. apply List.Forall_forall. intros c Hc.
  apply in_map_iff in Hc as (x & <- & _).
  destruct (allowed x) eqn:E; [exact E | reflexivity].
Qed.

(** What [clean] returns. *)
Lemma clean_spec stem :
  List.Forall (fun c => allowed c = true) (clean stem)
  /\ no_double_underscore (clean stem)
  /\ forall c r, clean stem = c :: r -> is_underscore c = false.
Proof.
  unfold clean.
  set (x := collapse_underscores (replace_others (replace_blanks stem))).
  destruct (strip_underscores_spec x) as [Hseg Hhead].
  split; [|split; [|exact Hhead]].
  - eapply segment_Forall; [exact Hseg|].
    apply collapse_allowed, replace_others_allowed.
  - eapply segment_no_double; [exact Hseg|].
    apply adjacent_no_double, collapse_adjacent.
Qed.

End Prefix.

(** C8 (as amended).  The prefix is derived from the stem of the final path
    component (the extension stripped), trimmed of whitespace.  A stem that
    is empty or starts with a dot gives "document".  Otherwise blanks and all
    characters outside [[A-Za-z0-9._-]] become underscores, repeated
    underscores collapse into one, underscores at both ends are removed; if
    no letter or digit is left the prefix is "document", else the first 80
    characters.  The prefix is never empty, at most 80 characters long, holds
    only characters of [[A-Za-z0-9._-]], no two underscores in a row and no
    leading underscore.  "Hydraulics Manual v3.pdf" gives
    "Hydraulics_Manual_v3" and "...pdf" gives "document". *)
Theorem sanitize_stem_derivation (filename : text) :
  let stem := strip (path_stem filename) in
  let r := sanitize_stem filename in
  r = (if (negb (truthy stem) || starts_with_dot stem
           || negb (any_alnum (clean stem)))%bool
       then DOCUMENT else firstn 80 (clean stem))
  /\ (1 <= length r <= 80)%nat
  /\ List.Forall (fun c => allowed c = true) r
  /\ no_double_underscore r
  /\ (forall c r', r = c :: r' -> is_underscore c = false)
  /\ sanitize_stem (str "Hydraulics Manual v3.pdf") = str "Hydraulics_Manual_v3"
  /\ sanitize_stem (str "...pdf") = DOCUMENT.
Proof.
  intros stem r.
  assert (Hdoc : (1 <= length DOCUMENT <= 80)%nat
                 /\ List.Forall (fun c => allowed c = true) DOCUMENT
                 /\ no_double_underscore DOCUMENT
                 /\ (forall c r', DOCUMENT = c :: r' -> is_underscore c = false)).
  { split; [simpl; lia|]. split; [repeat constructor|]. split.
    - apply adjacent_no_double. reflexivity.
    - intros c r' [= <- _]. reflexivity. }
  assert (Hr : r = (if (negb (truthy stem) || starts_with_dot stem
                        || negb (any_alnum (clean stem)))%bool
                    then DOCUMENT else firstn 80 (clean stem))).
  { subst r. unfold sanitize_stem. fold stem.
    destruct (negb (truthy stem) || starts_with_dot stem)%bool; [reflexivity|].
    simpl. destruct (clean stem) eqn:E; [reflexivity|]. reflexivity. }
  split; [exact Hr|].
  split; [|split; [|split; [|split; [|split; reflexivity]]]];
    rewrite Hr; clear Hr;
    destruct (negb (truthy stem) || starts_with_dot stem
              || negb (any_alnum (clean stem)))%bool eqn:Hcase;
    try (now apply Hdoc);
    destruct (clean_spec stem) as (Hall & Hdbl & Hhead).
  - apply orb_false_elim in Hcase as [_ Hal]. apply negb_false_iff in Hal.
    rewrite length_firstn. destruct (clean stem); [discriminate|].
    cbn [length]. lia.
  - eapply segment_Forall; [apply firstn_segment | exact Hall].
  - eapply segment_no_double; [apply firstn_segment | exact Hdbl].
  - intros c r' E. destruct (clean stem) as [|c0 s0]; [discriminate|].
    simpl in E. injection E as <- _. now apply (Hhead c0 s0).
Qed.

(** C8 as the specification words it fails.  Underscores at the ends of the
    stem are removed, which the wording does not say: "x__y__.pdf" gives
    "x_y", not "x_y_".  A stem that starts with a dot gives "document":
    ".hidden.txt" does not give ".hidden".  Both hold whichever way "keeping
    only" is read. *)
Lemma prefix_differs_from_wording :
  sanitize_stem (str "x__y__.pdf") = str "x_y"
  /\ prefix_as_specified true (str "x__y__.pdf") = str "x_y_"
  /\ prefix_as_specified false (str "x__y__.pdf") = str "x_y_"
  /\ sanitize_stem (str ".hidden.txt") = str "document"
  /\ prefix_as_specified true (str ".hidden.txt") = str ".hidden"
  /\ prefix_as_specified false (str ".hidden.txt") = str ".hidden"
  /\ ~ (forall filename, sanitize_stem filename = prefix_as_specified true filename)
  /\ ~ (forall filename, sanitize_stem filename = prefix_as_specified false filename).
Proof.
  repeat (split; [vm_compute; reflexivity|]).
  split; intros H; specialize (H (str "x__y__.pdf")); vm_compute in H; discriminate H.
Qed.

(** ** The supervisor and the guard *)

Section Moves.

Context {A B : Type}.
Variable R : world -> world -> Prop.
Hypothesis R_refl : forall w, R w w.
Hypothesis R_trans : forall w1 w2 w3, R w1 w2 -> R w2 w3 -> R w1 w3.

Lemma moves_ret (a : A) : moves_by R (ret a).
Proof. intros w. apply R_refl. Qed.

Lemma moves_raise (e : exn) : moves_by R (@raise A e).
Proof. intros w. apply R_refl. Qed.

Lemma moves_bind (m : M A) (k : A -> M B) :
  moves_by R m -> (forall a, moves_by R (k a)) -> moves_by R (bind m k).
Proof.
  intros Hm Hk w. unfold bind. specialize (Hm w).
  destruct (m w) as [[a|e] w1]; simpl in *; [|exact Hm].
  eapply R_trans; [exact Hm | apply Hk].
Qed.

Lemma moves_try_except (body : M A) (handler : exn -> M B) (rest : A -> M B) :
  moves_by R body -> (forall e, moves_by R (handler e)) ->
  (forall a, moves_by R (rest a)) -> moves_by R (try_except body handler rest).
Proof.
  intros Hb Hh Hr w. unfold try_except. specialize (Hb w).
  destruct (body w) as [[a|e] w1]; simpl in *;
    (eapply R_trans; [exact Hb|]); [apply Hr | apply Hh].
Qed.

(** A file-system operation moves by [R] when taking a flag from the oracle
    and the operation itself do. *)
Lemma moves_io (f : world -> A * world) :
  (forall w oracle, R w (set_faults oracle w)) ->
  (forall w, R w (snd (f w))) -> moves_by R (io f).
Proof.
  intros Ho Hf w. unfold io.
  destruct (faults w) as [|[] rest]; simpl.
  - specialize (Hf w). now destruct (f w).
  - apply Ho.
  - eapply R_trans; [apply (Ho w rest)|].
    specialize (Hf (set_faults rest w)). now destruct (f (set_faults rest w)).
Qed.

End Moves.

Section Relations.

Lemma same_guard_refl w : same_guard w w.
Proof. now split. Qed.

Lemma same_guard_trans w1 w2 w3 : same_guard w1 w2 -> same_guard w2 w3 -> same_guard w1 w3.
Proof. intros [H1 H2] [H3 H4]. split; congruence. Qed.

Lemma log_grows_refl w : log_grows w w.
Proof. exists []. now rewrite app_nil_r. Qed.

Lemma log_grows_trans w1 w2 w3 : log_grows w1 w2 -> log_grows w2 w3 -> log_grows w1 w3.
Proof.
  intros [e1 H1] [e2 H2]. exists (e1 ++ e2). now rewrite H2, H1, app_assoc.
Qed.

Lemma no_new_fallback_refl job w : no_new_fallback job w w.
Proof. reflexivity. Qed.

Lemma no_new_fallback_trans job w1 w2 w3 :
  no_new_fallback job w1 w2 -> no_new_fallback job w2 w3 -> no_new_fallback job w1 w3.
Proof. unfold no_new_fallback. congruence. Qed.

Lemma guard_after_supervisor_refl job w : guard_after_supervisor job w w.
Proof. split; auto. Qed.

Lemma guard_after_supervisor_trans job w1 w2 w3 :
  guard_after_supervisor job w1 w2 -> guard_after_supervisor job w2 w3 ->
  guard_after_supervisor job w1 w3.
Proof.
  intros [T1 E1] [T2 E2]. split; [congruence|].
  destruct E1 as [E1|E1], E2 as [E2|E2]; rewrite E2, E1; auto.
  right. apply set_eq. intros x. rewrite !elem_of_difference. tauto.
Qed.

Lemma mkdir_output_fields job w :
  extracting (mkdir_output job w) = extracting w
  /\ threads (mkdir_output job w) = threads w
  /\ log (mkdir_output job w) = log w
  /\ faults (mkdir_output job w) = faults w.
Proof. unfold mkdir_output. destruct (outputs w !! job); auto. Qed.

Lemma put_file_fields job name c w :
  extracting (put_file job name c w) = extracting w
  /\ threads (put_file job name c w) = threads w
  /\ log (put_file job name c w) = log w
  /\ faults (put_file job name c w) = faults w.
Proof. unfold put_file. simpl. apply mkdir_output_fields. Qed.

Variable R : world -> world -> Prop.
Hypothesis R_refl : forall w, R w w.
Hypothesis R_trans : forall w1 w2 w3, R w1 w2 -> R w2 w3 -> R w1 w3.
Hypothesis R_blind : blind_to_files R.

Lemma moves_oracle w oracle : R w (set_faults oracle w).
Proof. now apply R_blind. Qed.

Lemma moves_list_artifacts job : moves_by R (list_artifacts job).
Proof. apply moves_io; auto using moves_oracle. Qed.

Lemma moves_has_document_file job : moves_by R (has_document_file job).
Proof. apply moves_io; auto using moves_oracle. Qed.

Lemma moves_get_uploaded_file_path job : moves_by R (get_uploaded_file_path job).
Proof. apply moves_io; auto using moves_oracle. Qed.

Lemma moves_read_metadata job : moves_by R (read_metadata job).
Proof.
  apply moves_io; auto using moves_oracle.
  intros w. simpl. apply R_blind; apply mkdir_output_fields.
Qed.

Lemma moves_job_output_dir job : moves_by R (job_output_dir job).
Proof.
  apply moves_io; auto using moves_oracle.
  intros w. simpl. apply R_blind; apply mkdir_output_fields.
Qed.

(** Writing metadata adds its event to the log and nothing else. *)
Lemma moves_write_metadata job m prefix :
  (forall w, R w (emit (EvWriteMetadata job (status m)) w)) ->
  moves_by R (write_metadata job m prefix).
Proof.
  intros He. apply moves_io; auto using moves_oracle.
  intros w. simpl.
  eapply R_trans; [|apply He].
  apply R_blind; apply put_file_fields.
Qed.

Lemma moves_worker env job :
  (forall w, R w (emit (EvWorker job) w)) ->
  moves_by R (_run_extract_subprocess env job).
Proof.
  intros He w. unfold _run_extract_subprocess.
  assert (H : R w (worker_done env job w)).
  { unfold worker_done. eapply R_trans; [|apply He]. now apply R_blind. }
  destruct (worker_ends env); exact H.
Qed.

End Relations.

Section SupervisorRuns.

Variables (env : environment) (job input_name prefix : string).

Lemma count_emit e x w :
  e <> x ->
  count_occ event_eq_dec (log (emit e w)) x = count_occ event_eq_dec (log w) x.
Proof.
  intros Hne. simpl. rewrite count_occ_app. simpl.
  destruct (event_eq_dec e x); [contradiction | lia].
Qed.

Lemma no_new_fallback_blind : blind_to_files (no_new_fallback job).
Proof. intros w w' _ _ Hl. unfold no_new_fallback. now rewrite Hl. Qed.

Lemma log_grows_blind : blind_to_files log_grows.
Proof. intros w w' _ _ Hl. exists []. now rewrite app_nil_r. Qed.

Lemma guard_after_supervisor_blind : blind_to_files (guard_after_supervisor job).
Proof. intros w w' He Ht _. split; auto. Qed.

Lemma log_grows_emit e w : log_grows w (emit e w).
Proof. now exists [e]. Qed.

(** The statements after the [try] statement move by any relation that
    admits their events and the release. *)
Lemma moves_after_worker_returned (R : world -> world -> Prop) exit_code :
  (forall w, R w w) ->
  (forall w1 w2 w3, R w1 w2 -> R w2 w3 -> R w1 w3) ->
  blind_to_files R ->
  (forall status w, R w (emit (EvWriteMetadata job status) w)) ->
  (forall w, R w (snd (release job w))) ->
  moves_by R (after_worker_returned job input_name prefix exit_code).
Proof.
  intros Hrefl Htrans Hblind Hmeta Hrel. unfold after_worker_returned.
  apply moves_bind; auto using moves_list_artifacts. intros artifacts.
  apply moves_bind; auto using moves_read_metadata. intros written.
  apply moves_bind; auto using moves_has_document_file. intros found.
  apply moves_bind; auto.
  destruct (found || bool_decide (is_Some written))%bool.
  - destruct written; [now apply moves_ret | apply moves_write_metadata; auto].
  - apply moves_write_metadata; auto.
Qed.

(** The same for the handlers, once the fallback extractor has been called. *)
Lemma moves_after_failed_worker (R : world -> world -> Prop) error_text :
  (forall w, R w w) ->
  (forall w1 w2 w3, R w1 w2 -> R w2 w3 -> R w1 w3) ->
  blind_to_files R ->
  (forall status w, R w (emit (EvWriteMetadata job status) w)) ->
  (forall w, R w (emit (EvFallback job) w)) ->
  (forall w, R w (snd (release job w))) ->
  moves_by R (after_failed_worker env job input_name prefix error_text).
Proof.
  intros Hrefl Htrans Hblind Hmeta Hfall Hrel. unfold after_failed_worker.
  apply moves_bind; auto.
  - intros w. unfold try_placeholder_fallback.
    destruct (fallback_writes env); simpl; [|apply Hfall].
    eapply Htrans; [apply Hfall|].
    apply Hblind; repeat (etransitivity; [apply put_file_fields|]); reflexivity.
  - intros recovered. apply moves_bind; auto.
    destruct recovered;
      (apply moves_bind; auto using moves_list_artifacts; intros artifacts;
       apply moves_write_metadata; auto).
Qed.

Lemma moves_supervisor (R : world -> world -> Prop) :
  (forall w, R w w) ->
  (forall w1 w2 w3, R w1 w2 -> R w2 w3 -> R w1 w3) ->
  blind_to_files R ->
  (forall e w, (forall j, e <> EvRelease j) -> R w (emit e w)) ->
  (forall w, R w (snd (release job w))) ->
  moves_by R (_run_extraction_background env job input_name prefix).
Proof.
  intros Hrefl Htrans Hblind Hev Hrel. unfold _run_extraction_background.
  assert (Hmeta : forall status w, R w (emit (EvWriteMetadata job status) w))
    by (intros; apply Hev; discriminate).
  assert (Hfall : forall w, R w (emit (EvFallback job) w))
    by (intros; apply Hev; discriminate).
  apply moves_try_except; auto.
  - apply moves_worker; auto.
  - intros []; now apply moves_after_failed_worker.
  - intros exit_code. now apply moves_after_worker_returned.
Qed.

Lemma run_when_worker_exits returncode w :
  worker_ends env = Exited returncode ->
  _run_extraction_background env job input_name prefix w
  = after_worker_returned job input_name prefix returncode (worker_done env job w).
Proof.
  intros Hexit. unfold _run_extraction_background, try_except, _run_extract_subprocess.
  now rewrite Hexit.
Qed.

Lemma run_when_worker_fails w :
  (forall returncode, worker_ends env <> Exited returncode) ->
  exists error_text,
    _run_extraction_background env job input_name prefix w
    = after_failed_worker env job input_name prefix error_text (worker_done env job w).
Proof.
  intros Hfail. unfold _run_extraction_background, try_except, _run_extract_subprocess.
  destruct (worker_ends env) as [c| |msg]; [now destruct (Hfail c)|eauto|eauto].
Qed.

Lemma no_new_fallback_exit returncode w :
  worker_ends env = Exited returncode ->
  no_new_fallback job w (snd (_run_extraction_background env job input_name prefix w)).
Proof.
  intros Hexit. rewrite (run_when_worker_exits returncode w Hexit).
  assert (Hmeta : forall status w',
            no_new_fallback job w' (emit (EvWriteMetadata job status) w'))
    by (intros; apply count_emit; discriminate).
  assert (Hrel : forall w', no_new_fallback job w' (snd (release job w')))
    by (intros w'; apply (count_emit (EvRelease job) _
                             (set_extracting (extracting w' ∖ {[job]}) w'));
        discriminate).
  apply no_new_fallback_trans with (worker_done env job w).
  - unfold worker_done.
    apply (count_emit (EvWorker job) _
             (set_outputs (<[job := worker_files env (dir_of job w)]> (outputs w)) w)).
    discriminate.
  - apply (moves_after_worker_returned (no_new_fallback job) returncode
             (no_new_fallback_refl job) (no_new_fallback_trans job)
             no_new_fallback_blind Hmeta Hrel).
Qed.

Lemma fallback_called_when_worker_fails w :
  (forall returncode, worker_ends env <> Exited returncode) ->
  In (EvFallback job)
     (log (snd (_run_extraction_background env job input_name prefix w))).
Proof.
  intros Hfail. destruct (run_when_worker_fails w Hfail) as [error_text ->].
  unfold after_failed_worker, bind at 1.
  set (w1 := worker_done env job w).
  assert (Hin : forall w2, log_grows (emit (EvFallback job) w1) w2 ->
                           In (EvFallback job) (log w2)).
  { intros w2 [events ->]. simpl. rewrite !in_app_iff. left; right. now left. }
  assert (Hgrow : forall recovered,
     moves_by log_grows
       ((if recovered : bool then
           artifacts <- list_artifacts job ;;
           write_metadata job
             (Metadata job input_name "completed" (Some prefix) artifacts
                       fallback_stats None None) prefix
         else
           artifacts <- list_artifacts job ;;
           write_metadata job
             (Metadata job input_name "failed" (Some prefix) artifacts
                       [] (Some error_text) None) prefix) ;;
        release job)%world).
  { intros recovered.
    pose proof log_grows_refl as Hrefl. pose proof log_grows_trans as Htrans.
    pose proof log_grows_blind as Hblind. pose proof log_grows_emit as Hemit.
    apply moves_bind; auto.
    - destruct recovered;
        (apply moves_bind; auto using moves_list_artifacts; intros artifacts;
         apply moves_write_metadata; auto).
    - intros _ w'. simpl. now exists [EvRelease job]. }
  unfold try_placeholder_fallback. destruct (fallback_writes env).
  - apply Hin. eapply log_grows_trans; [|apply (Hgrow true)].
    apply log_grows_blind; repeat (etransitivity; [apply put_file_fields|]);
      reflexivity.
  - apply Hin. apply (Hgrow false).
Qed.

End SupervisorRuns.

(** ** Runs on a healthy file system *)

Section Returns.

Context {A B : Type}.

Lemma returns_ret (P : world -> Prop) (a : A) (Q : A -> world -> Prop) :
  (forall w, P w -> Q a w) -> returns P (ret a) Q.
Proof. intros H w Hw. exists a. split; [reflexivity | now apply H]. Qed.

Lemma returns_bind (P : world -> Prop) (m : M A) (Q1 : A -> world -> Prop)
    (k : A -> M B) (Q : B -> world -> Prop) :
  returns P m Q1 -> (forall a, returns (Q1 a) (k a) Q) -> returns P (bind m k) Q.
Proof.
  intros Hm Hk w Hw. destruct (Hm w Hw) as (a & Ha & Hq).
  unfold bind. destruct (m w) as [o w1]. simpl in *. subst o.
  exact (Hk a w1 Hq).
Qed.

Lemma returns_io (P : world -> Prop) (f : world -> A * world)
    (Q : A -> world -> Prop) :
  (forall w, P w -> faults w = []) ->
  (forall w, P w -> Q (fst (f w)) (snd (f w))) ->
  returns P (io f) Q.
Proof.
  intros Hcalm Hf w Hw. unfold io. rewrite (Hcalm w Hw).
  specialize (Hf w Hw). destruct (f w) as [a w1]. now exists a.
Qed.

End Returns.

Section HealthyRun.

Variables (env : environment) (job input_name prefix : string).
Variables (guard0 : gset string) (log0 : list event).

Local Abbreviation running := (in_progress job guard0 log0).

(** Changes of files keep a run in progress. *)
Lemma running_files wrote w w' :
  faults w' = faults w -> extracting w' = extracting w -> log w' = log w ->
  running wrote w -> running wrote w'.
Proof.
  intros Hf He Hl (H1 & H2 & events & H3). unfold in_progress.
  rewrite Hf, He. split; [exact H1|]. split; [exact H2|].
  exists events. now rewrite Hl.
Qed.

(** So do events other than the release of [job]. *)
Lemma running_emit wrote e w :
  e <> EvRelease job -> running wrote w -> running wrote (emit e w).
Proof.
  intros Hne (H1 & H2 & events & Hl & Hno & Hw).
  split; [exact H1|]. split; [exact H2|].
  exists (events ++ [e]). simpl. rewrite Hl, app_assoc.
  split; [reflexivity|]. split.
  - rewrite in_app_iff. intros [Hin|[Hin|[]]]; [auto | congruence].
  - intros Ht. destruct (Hw Ht) as (status & Hin & Hterm).
    exists status. rewrite in_app_iff. auto.
Qed.

Lemma running_wrote wrote status w :
  terminal status -> running wrote w ->
  running true (emit (EvWriteMetadata job status) w).
Proof.
  intros Hterm (H1 & H2 & events & Hl & Hno & _).
  split; [exact H1|]. split; [exact H2|].
  exists (events ++ [EvWriteMetadata job status]). simpl. rewrite Hl, app_assoc.
  split; [reflexivity|]. split.
  - rewrite in_app_iff. intros [Hin|[Hin|[]]]; [auto | discriminate].
  - intros _. exists status. rewrite in_app_iff. split; [right; now left | exact Hterm].
Qed.

Lemma running_put_file wrote name c w :
  running wrote w -> running wrote (put_file job name c w).
Proof. apply running_files; apply put_file_fields. Qed.

Lemma running_mkdir wrote w : running wrote w -> running wrote (mkdir_output job w).
Proof. apply running_files; apply mkdir_output_fields. Qed.

Lemma returns_list_artifacts wrote :
  returns (running wrote) (list_artifacts job) (fun _ => running wrote).
Proof. apply returns_io; [now intros w [H _] | auto]. Qed.

Lemma returns_has_document_file wrote :
  returns (running wrote) (has_document_file job) (fun _ => running wrote).
Proof. apply returns_io; [now intros w [H _] | auto]. Qed.

Lemma returns_read_metadata wrote :
  returns (running wrote) (read_metadata job) (fun _ => running wrote).
Proof.
  apply returns_io; [now intros w [H _]|].
  intros w Hw. simpl. now apply running_mkdir.
Qed.

Lemma returns_write_metadata wrote m :
  terminal (status m) ->
  returns (running wrote) (write_metadata job m prefix) (fun _ => running true).
Proof.
  intros Hterm. apply returns_io; [now intros w [H _]|].
  intros w Hw. simpl.
  apply (running_wrote wrote (status m) _ Hterm). now apply running_put_file.
Qed.

Lemma returns_release wrote :
  returns (running wrote) (release job)
          (fun _ => released_once job guard0 log0 wrote).
Proof.
  intros w (H1 & H2 & events & Hl & Hno & Hw). exists tt.
  split; [reflexivity|]. unfold released_once. simpl. split; [now rewrite H2|].
  exists events. rewrite Hl, <- app_assoc. auto.
Qed.

Lemma returns_fallback wrote :
  returns (running wrote) (try_placeholder_fallback env job prefix)
          (fun _ => running wrote).
Proof.
  intros w Hw. unfold try_placeholder_fallback.
  assert (H1 : running wrote (emit (EvFallback job) w))
    by (apply running_emit; [discriminate | exact Hw]).
  destruct (fallback_writes env); eexists; (split; [reflexivity|]); simpl.
  - now repeat apply running_put_file.
  - exact H1.
Qed.

(** The handlers write a terminal record, then release. *)
Lemma returns_after_failed_worker error_text :
  returns (running false)
          (after_failed_worker env job input_name prefix error_text)
          (fun _ => released_once job guard0 log0 true).
Proof.
  unfold after_failed_worker.
  eapply returns_bind; [apply returns_fallback|]. intros recovered.
  eapply returns_bind with (Q1 := fun _ => running true);
    [|intros _; apply returns_release].
  destruct recovered;
    (eapply returns_bind; [apply returns_list_artifacts|]; intros artifacts;
     apply returns_write_metadata; simpl; unfold terminal; auto).
Qed.

(** The statements after the [try] release as well; they write a record
    unless one is read back. *)
Lemma returns_after_worker_returned exit_code :
  returns (running false)
          (after_worker_returned job input_name prefix exit_code)
          (fun _ w => released_once job guard0 log0 false w).
Proof.
  unfold after_worker_returned.
  eapply returns_bind; [apply returns_list_artifacts|]. intros artifacts.
  eapply returns_bind; [apply returns_read_metadata|]. intros written.
  eapply returns_bind; [apply returns_has_document_file|]. intros found.
  assert (Hweak : forall w, running true w -> running false w).
  { intros w (H1 & H2 & events & Hl & Hno & _).
    split; [exact H1|]. split; [exact H2|]. exists events.
    split; [exact Hl|]. split; [exact Hno | discriminate]. }
  eapply returns_bind with (Q1 := fun _ => running false);
    [|intros _; apply returns_release].
  assert (Hwrite : forall m, terminal (status m) ->
            returns (running false) (write_metadata job m prefix)
                    (fun _ => running false)).
  { intros m Hm w Hw.
    destruct (returns_write_metadata false m Hm w Hw) as (a & Ha & Hq).
    exists a. split; [exact Ha | now apply Hweak]. }
  destruct (found || bool_decide (is_Some written))%bool.
  - destruct written; [now apply returns_ret|].
    apply Hwrite. simpl. unfold terminal. auto.
  - apply Hwrite. simpl. unfold terminal. auto.
Qed.

End HealthyRun.

(** On a healthy file system the supervisor returns on every path -- the
    worker exits, times out, or its call raises -- with the job out of the
    guard; the release is its last event and the only release.  After a
    timeout or an exception a terminal metadata record has been written
    before. *)
Lemma supervisor_releases_once_on_healthy_files
    (env : environment) (job input_name prefix : string) (w : world) :
  faults w = [] ->
  let r := _run_extraction_background env job input_name prefix w in
  fst r = Ok tt
  /\ released_once job (extracting w) (log w)
       (match worker_ends env with Exited _ => false | _ => true end) (snd r).
Proof.
  intros Hcalm r.
  assert (Hstart : in_progress job (extracting w) (log w) false
                               (worker_done env job w)).
  { split; [exact Hcalm|]. split; [reflexivity|].
    exists [EvWorker job]. split; [reflexivity|].
    split; [|discriminate]. intros [H|[]]. discriminate. }
  subst r. destruct (worker_ends env) as [c| |msg] eqn:Hend.
  - rewrite (run_when_worker_exits env job input_name prefix c w Hend).
    destruct (returns_after_worker_returned job input_name prefix
                (extracting w) (log w) c _ Hstart) as ([] & Ha & Hq).
    now split.
  - destruct (run_when_worker_fails env job input_name prefix w) as [text ->];
      [rewrite Hend; discriminate|].
    destruct (returns_after_failed_worker env job input_name prefix
                (extracting w) (log w) text _ Hstart) as ([] & Ha & Hq).
    now split.
  - destruct (run_when_worker_fails env job input_name prefix w) as [text ->];
      [rewrite Hend; discriminate|].
    destruct (returns_after_failed_worker env job input_name prefix
                (extracting w) (log w) text _ Hstart) as ([] & Ha & Hq).
    now split.
Qed.

(** ** Exceptions in the supervisor *)

Section Raises.

Context {A B : Type}.
Variable R : world -> world -> Prop.
Hypothesis R_trans : forall w1 w2 w3, R w1 w2 -> R w2 w3 -> R w1 w3.

Lemma raises_bind (m : M A) (k : A -> M B) :
  moves_by R m -> (forall a, raises_by R (k a)) -> raises_by R (bind m k).
Proof.
  intros Hm Hk w e. unfold bind. specialize (Hm w).
  destruct (m w) as [[a|e'] w1]; simpl in *.
  - intros Hr. eapply R_trans; [exact Hm | now apply (Hk a w1 e)].
  - intros _. exact Hm.
Qed.

Lemma raises_of_moves (m : M A) : moves_by R m -> raises_by R m.
Proof. intros Hm w e _. apply Hm. Qed.

End Raises.

Section GuardLeak.

Variables (env : environment) (job input_name prefix : string).

Lemma guard_untouched_refl w : guard_untouched job w w.
Proof. now split. Qed.

Lemma guard_untouched_trans w1 w2 w3 :
  guard_untouched job w1 w2 -> guard_untouched job w2 w3 -> guard_untouched job w1 w3.
Proof. intros [H1 H2] [H3 H4]. split; congruence. Qed.

Lemma guard_untouched_blind : blind_to_files (guard_untouched job).
Proof. intros w w' He _ Hl. split; [exact He | now rewrite Hl]. Qed.

Lemma guard_untouched_emit e w :
  e <> EvRelease job -> guard_untouched job w (emit e w).
Proof. intros Hne. split; [reflexivity | now apply count_emit]. Qed.

Lemma release_returns w e : fst (release job w) <> Raise e.
Proof. discriminate. Qed.

Lemma raises_after_worker_returned exit_code :
  raises_by (guard_untouched job)
            (after_worker_returned job input_name prefix exit_code).
Proof.
  pose proof guard_untouched_refl as Hrefl.
  pose proof guard_untouched_trans as Htrans.
  pose proof guard_untouched_blind as Hblind.
  unfold after_worker_returned.
  apply raises_bind; auto using moves_list_artifacts. intros artifacts.
  apply raises_bind; auto using moves_read_metadata. intros written.
  apply raises_bind; auto using moves_has_document_file. intros found.
  apply raises_bind; auto.
  - assert (Hw : forall m, moves_by (guard_untouched job) (write_metadata job m prefix)).
    { intros m. apply moves_write_metadata; auto.
      intros w. apply guard_untouched_emit. discriminate. }
    destruct (found || bool_decide (is_Some written))%bool; [|apply Hw].
    destruct written; [now apply moves_ret | apply Hw].
  - intros _ w e He. now destruct (release_returns w e).
Qed.

Lemma raises_after_failed_worker error_text :
  raises_by (guard_untouched job)
            (after_failed_worker env job input_name prefix error_text).
Proof.
  pose proof guard_untouched_refl as Hrefl.
  pose proof guard_untouched_trans as Htrans.
  pose proof guard_untouched_blind as Hblind.
  assert (Hw : forall m, moves_by (guard_untouched job) (write_metadata job m prefix)).
  { intros m. apply moves_write_metadata; auto.
    intros w. apply guard_untouched_emit. discriminate. }
  unfold after_failed_worker.
  apply raises_bind; auto.
  - intros w. unfold try_placeholder_fallback.
    assert (H1 : guard_untouched job w (emit (EvFallback job) w))
      by (apply guard_untouched_emit; discriminate).
    destruct (fallback_writes env); simpl; [|exact H1].
    eapply Htrans; [exact H1|].
    apply Hblind; repeat (etransitivity; [apply put_file_fields|]); reflexivity.
  - intros recovered. apply raises_bind; auto.
    + destruct recovered;
        (apply moves_bind; auto using moves_list_artifacts).
    + intros _ w e He. now destruct (release_returns w e).
Qed.

Lemma guard_untouched_worker w : guard_untouched job w (worker_done env job w).
Proof.
  unfold worker_done.
  apply (guard_untouched_trans _
           (set_outputs (<[job := worker_files env (dir_of job w)]> (outputs w)) w)).
  - now apply guard_untouched_blind.
  - apply guard_untouched_emit. discriminate.
Qed.

Lemma raises_supervisor :
  raises_by (guard_untouched job)
            (_run_extraction_background env job input_name prefix).
Proof.
  intros w e He.
  destruct (worker_ends env) as [c| |msg] eqn:Hend.
  - rewrite (run_when_worker_exits env job input_name prefix c w Hend) in *.
    eapply guard_untouched_trans; [apply guard_untouched_worker|].
    now apply (raises_after_worker_returned c _ e).
  - destruct (run_when_worker_fails env job input_name prefix w) as [text Hrun];
      [rewrite Hend; discriminate|].
    rewrite Hrun in *.
    eapply guard_untouched_trans; [apply guard_untouched_worker|].
    now apply (raises_after_failed_worker text _ e).
  - destruct (run_when_worker_fails env job input_name prefix w) as [text Hrun];
      [rewrite Hend; discriminate|].
    rewrite Hrun in *.
    eapply guard_untouched_trans; [apply guard_untouched_worker|].
    now apply (raises_after_failed_worker text _ e).
Qed.

End GuardLeak.

(** C1 (the code departs from it).  The release of the guard is not
    unconditional: whenever the supervising routine ends with an exception
    -- which it does when listing artifacts or writing metadata raises, there
    being no handler around them -- the guard is as it was, so the job stays
    in it, and no release has taken place.  When the worker times out, the
    placeholder extraction fails and the metadata write raises [OSError],
    "job-1" is still in the guard at the end. *)
Theorem supervisor_exception_keeps_job_in_guard
    (env : environment) (job input_name prefix : string) (w : world) (e : exn) :
  fst (_run_extraction_background env job input_name prefix w) = Raise e ->
  let w' := snd (_run_extraction_background env job input_name prefix w) in
  extracting w' = extracting w
  /\ count_occ event_eq_dec (log w') (EvRelease job)
     = count_occ event_eq_dec (log w) (EvRelease job)
  /\ let r := _run_extraction_background worker_times_out
                "job-1" "report.pdf" "report" (busy_world [false; true]) in
     fst r = Raise OSError
     /\ "job-1"%string ∈ extracting (snd r)
     /\ log (snd r) = [EvWorker "job-1"; EvFallback "job-1"].
Proof.
  intros Hraise w'.
  destruct (raises_supervisor env job input_name prefix w e Hraise) as [Hg Hl].
  split; [exact Hg|]. split; [exact Hl|].
  split; [vm_compute; reflexivity|]. split; [|vm_compute; reflexivity].
  replace (extracting _) with ({[ "job-1"%string ]} : gset string)
    by (vm_compute; reflexivity).
  set_solver.
Qed.

Lemma supervisor_exception_keeps_job_in_guard_witness :
  let w := busy_world [false; true] in
  let w' := snd (_run_extraction_background worker_times_out
                   "job-1" "report.pdf" "report" w) in
  extracting w' = extracting w
  /\ count_occ event_eq_dec (log w') (EvRelease "job-1")
     = count_occ event_eq_dec (log w) (EvRelease "job-1")
  /\ let r := _run_extraction_background worker_times_out
                "job-1" "report.pdf" "report" (busy_world [false; true]) in
     fst r = Raise OSError
     /\ "job-1"%string ∈ extracting (snd r)
     /\ log (snd r) = [EvWorker "job-1"; EvFallback "job-1"].
Proof.
  apply (supervisor_exception_keeps_job_in_guard worker_times_out
           "job-1" "report.pdf" "report" (busy_world [false; true]) OSError).
  vm_compute. reflexivity.
Defined.

(** C3 (the code departs from it).  When the call of the worker returns,
    the exit code is not looked at: whatever it is, the fallback extractor
    is not called, while it is called whenever the worker times out or its
    call raises.  With exit code 1 and the record written by [extract_job]
    on disk, the supervisor returns after the release alone, and the stored
    status is still "extracting". *)
Theorem nonzero_exit_skips_fallback
    (env : environment) (job input_name prefix : string) (returncode : Z)
    (w : world) :
  worker_ends env = Exited returncode ->
  let w' := snd (_run_extraction_background env job input_name prefix w) in
  count_occ event_eq_dec (log w') (EvFallback job)
  = count_occ event_eq_dec (log w) (EvFallback job)
  /\ (forall env', (forall c, worker_ends env' <> Exited c) ->
        In (EvFallback job)
           (log (snd (_run_extraction_background env' job input_name prefix w))))
  /\ let r := _run_extraction_background worker_exits_1
                "job-1" "report.pdf" "report" (busy_world []) in
     fst r = Ok tt
     /\ log (snd r) = [EvWorker "job-1"; EvRelease "job-1"]
     /\ fst (read_metadata "job-1" (snd r)) = Ok (Some extracting_record).
Proof.
  intros Hexit w'. split; [now apply (no_new_fallback_exit env job input_name prefix returncode)|].
  split; [intros env' Hfail; now apply fallback_called_when_worker_fails|].
  split; [vm_compute; reflexivity|]. split; vm_compute; reflexivity.
Qed.

Lemma nonzero_exit_skips_fallback_witness :
  let env := worker_exits_1 in
  let job := "job-1"%string in
  let w := busy_world [] in
  let w' := snd (_run_extraction_background env job "report.pdf" "report" w) in
  count_occ event_eq_dec (log w') (EvFallback job)
  = count_occ event_eq_dec (log w) (EvFallback job)
  /\ (forall env', (forall c, worker_ends env' <> Exited c) ->
        In (EvFallback job)
           (log (snd (_run_extraction_background env' job "report.pdf" "report" w))))
  /\ let r := _run_extraction_background worker_exits_1
                "job-1" "report.pdf" "report" (busy_world []) in
     fst r = Ok tt
     /\ log (snd r) = [EvWorker "job-1"; EvRelease "job-1"]
     /\ fst (read_metadata "job-1" (snd r)) = Ok (Some extracting_record).
Proof.
  apply (nonzero_exit_skips_fallback worker_exits_1 "job-1" "report.pdf" "report"
           1 (busy_world [])).
  reflexivity.
Defined.

(** ** Requests and the guard *)

Section Requests.

Variables (job : string) (body : option ProcessingConfig).

Lemma unseen_trans w1 w2 w3 : unseen job w1 w2 -> unseen job w2 w3 -> unseen job w1 w3.
Proof. intros (A1 & A2 & A3 & A4) (B1 & B2 & B3 & B4). repeat split; congruence. Qed.

Lemma unseen_oracle w oracle : unseen job w (set_faults oracle w).
Proof. repeat split. Qed.

Lemma unseen_mkdir w : unseen job w (mkdir_output job w).
Proof.
  destruct (mkdir_output_fields job w) as (H1 & H2 & H3 & _).
  repeat split; auto. unfold mkdir_output, dir_of.
  destruct (outputs w !! job) eqn:E; [now rewrite E|].
  simpl. now rewrite lookup_insert_eq.
Qed.

Lemma moves_upload_lookup : moves_by (unseen job) (get_uploaded_file_path job).
Proof.
  apply (moves_io (unseen job) unseen_trans);
    [apply unseen_oracle | intros w; repeat split].
Qed.

Lemma moves_mkdir : moves_by (unseen job) (job_output_dir job).
Proof.
  apply (moves_io (unseen job) unseen_trans);
    [apply unseen_oracle | intros w; apply unseen_mkdir].
Qed.

(** A request for a job that is in the guard. *)
Lemma extract_job_busy w :
  job ∈ extracting w ->
  let r := extract_job job body w in
  unseen job w (snd r)
  /\ (fst r = Ok (Summary job true ALREADY_IN_PROGRESS [])
      \/ fst r = Raise (HTTPException 404) \/ fst r = Raise OSError).
Proof.
  intros Hin. unfold extract_job, bind.
  pose proof (moves_upload_lookup w) as H1.
  assert (E1 : forall e, fst (get_uploaded_file_path job w) = Raise e -> e = OSError).
  { unfold get_uploaded_file_path, io. destruct (faults w) as [|[] ?]; simpl;
      congruence. }
  destruct (get_uploaded_file_path job w) as [[input|e] w1]; simpl in *.
  2:{ split; [exact H1|]. right; right. f_equal. now apply E1. }
  destruct input as [name|]; [|split; [exact H1 | right; now left]].
  pose proof (moves_mkdir w1) as H2.
  assert (E2 : forall e, fst (job_output_dir job w1) = Raise e -> e = OSError).
  { unfold job_output_dir, io. destruct (faults w1) as [|[] ?]; simpl; congruence. }
  destruct (job_output_dir job w1) as [[[]|e] w2]; simpl in *.
  2:{ split; [eapply unseen_trans; eauto|]. right; right. f_equal. now apply E2. }
  assert (H12 : unseen job w w2) by (eapply unseen_trans; eauto).
  unfold check_and_add. rewrite bool_decide_true.
  - split; [exact H12 | now left].
  - destruct H12 as (He & _). now rewrite He.
Qed.


Lemma returns_healthy_io {A} guard supervisors events (f : world -> A * world)
    (Q : A -> world -> Prop) :
  (forall w, healthy_at guard supervisors events w -> Q (fst (f w)) (snd (f w))) ->
  returns (healthy_at guard supervisors events) (io f) Q.
Proof. intros H. apply returns_io; [now intros w [Hf _] | exact H]. Qed.

Lemma healthy_at_put guard supervisors events name c w :
  healthy_at guard supervisors events w ->
  healthy_at guard supervisors events (put_file job name c w).
Proof.
  intros (H1 & H2 & H3 & H4).
  destruct (put_file_fields job name c w) as (F1 & F2 & F3 & F4).
  repeat split; congruence.
Qed.

Lemma healthy_at_mkdir guard supervisors events w :
  healthy_at guard supervisors events w ->
  healthy_at guard supervisors events (mkdir_output job w).
Proof.
  intros (H1 & H2 & H3 & H4).
  destruct (mkdir_output_fields job w) as (F1 & F2 & F3 & F4).
  repeat split; congruence.
Qed.

Lemma healthy_at_emit guard supervisors events e w :
  healthy_at guard supervisors events w ->
  healthy_at guard supervisors (events ++ [e]) (emit e w).
Proof. intros (H1 & H2 & H3 & H4). repeat split; simpl; congruence. Qed.

(** A request for a job that is not in the guard, on a healthy file system
    with the upload in place. *)
Lemma extract_job_idle w name others :
  job ∉ extracting w ->
  uploads w !! job = Some (name :: others) ->
  faults w = [] ->
  let r := extract_job job body w in
  fst r = Ok (Summary job true STARTED [])
  /\ healthy_at ({[job]} ∪ extracting w) (threads w ++ [job])
       (log w ++ [EvWriteConfig job; EvWriteMetadata job "extracting";
                  EvThreadStart job])
       (snd r).
Proof.
  intros Hout Hup Hcalm.
  set (guard := extracting w). set (sup := threads w). set (events := log w).
  assert (Hstart : healthy_at guard sup events w /\ uploads w !! job = Some (name :: others))
    by (repeat split; auto).
  assert (Hrun : returns
            (fun w => healthy_at guard sup events w
                      /\ uploads w !! job = Some (name :: others))
            (extract_job job body)
            (fun s w' => s = Summary job true STARTED []
               /\ healthy_at ({[job]} ∪ guard) (sup ++ [job])
                    (events ++ [EvWriteConfig job; EvWriteMetadata job "extracting";
                                EvThreadStart job]) w')).
  { unfold extract_job.
    eapply returns_bind with
      (Q1 := fun o w => o = Some name /\ healthy_at guard sup events w).
    { apply returns_io; [now intros w0 [[Hf _] _]|].
      intros w0 [Hh Hu]. simpl. now rewrite Hu. }
    intros input. destruct input as [input_name|].
    2:{ intros w0 [Hf _]. discriminate. }
    eapply returns_bind with (Q1 := fun _ => healthy_at guard sup events).
    { apply returns_io; [now intros w0 [_ [Hf _]]|].
      intros w0 [_ Hh]. simpl. now apply healthy_at_mkdir. }
    intros _.
    eapply returns_bind with
      (Q1 := fun busy w => busy = false /\ healthy_at ({[job]} ∪ guard) sup events w).
    { intros w0 (H1 & H2 & H3 & H4). unfold check_and_add.
      rewrite bool_decide_false by (rewrite H2; exact Hout).
      exists false. simpl. repeat split; auto. now rewrite H2. }
    intros busy. destruct busy.
    { intros w0 [Hf _]. discriminate. }
    eapply returns_bind with
      (Q1 := fun _ => healthy_at ({[job]} ∪ guard) sup (events ++ [EvWriteConfig job])).
    { unfold write_processing_request.
      eapply returns_bind with (Q1 := fun _ => healthy_at ({[job]} ∪ guard) sup events).
      - apply returns_io; [now intros w0 [_ [Hf _]]|].
        intros w0 [_ Hh]. simpl. now apply healthy_at_mkdir.
      - intros _. apply returns_healthy_io. intros w0 Hh. simpl.
        now apply healthy_at_emit, healthy_at_put. }
    intros _.
    eapply returns_bind with
      (Q1 := fun _ => healthy_at ({[job]} ∪ guard) sup
                        ((events ++ [EvWriteConfig job])
                         ++ [EvWriteMetadata job "extracting"])).
    { apply returns_healthy_io. intros w0 Hh. simpl.
      now apply healthy_at_emit, healthy_at_put. }
    intros _.
    eapply returns_bind with
      (Q1 := fun _ => healthy_at ({[job]} ∪ guard) (sup ++ [job])
                        (((events ++ [EvWriteConfig job])
                          ++ [EvWriteMetadata job "extracting"])
                         ++ [EvThreadStart job])).
    { intros w0 (H1 & H2 & H3 & H4). exists tt. split; [reflexivity|].
      repeat split; simpl; congruence. }
    intros _. apply returns_ret. intros w0 Hh. split; [reflexivity|].
    now rewrite <- !app_assoc in Hh. }
  destruct (Hrun w Hstart) as (s & Hs & -> & Hh). now split.
Qed.

(** What a request can do to the guard and the supervisors. *)
Lemma extract_job_guard w :
  let w' := snd (extract_job job body w) in
  (threads w' = threads w
   /\ (extracting w' = extracting w \/ extracting w' = {[job]} ∪ extracting w))
  \/ ((job ∉ extracting w) /\ threads w' = threads w ++ [job]
      /\ extracting w' = {[job]} ∪ extracting w).
Proof.
  pose proof same_guard_refl as Hrefl. pose proof same_guard_trans as Htrans.
  assert (Hblind : blind_to_files same_guard) by (intros ? ? ? ? ?; now split).
  assert (Hemit : forall e w0, same_guard w0 (emit e w0)) by (intros; now split).
  unfold extract_job, bind.
  pose proof (moves_get_uploaded_file_path same_guard Hrefl Htrans Hblind job w) as [T1 G1].
  destruct (get_uploaded_file_path job w) as [[input|e] w1]; simpl in *;
    [|left; auto].
  destruct input as [name|]; [|left; auto].
  pose proof (moves_job_output_dir same_guard Htrans Hblind job w1) as [T2 G2].
  destruct (job_output_dir job w1) as [[[]|e] w2]; simpl in *;
    [|left; split; [congruence | left; congruence]].
  assert (T12 : threads w2 = threads w) by congruence.
  assert (G12 : extracting w2 = extracting w) by congruence.
  unfold check_and_add. case_bool_decide as Hbusy; simpl; [left; auto|].
  set (w3 := set_extracting ({[job]} ∪ extracting w2) w2).
  assert (T3 : threads w3 = threads w) by exact T12.
  assert (G3 : extracting w3 = {[job]} ∪ extracting w) by (simpl; now rewrite G12).
  assert (Hcfg : moves_by same_guard
                   (write_processing_request job (default [] body))).
  { unfold write_processing_request.
    apply (moves_bind same_guard Htrans);
      [now apply moves_job_output_dir | intros _].
    apply (moves_io same_guard Htrans); [intros w0 o; now split|].
    intros w0. simpl. eapply Htrans; [|apply Hemit].
    apply Hblind; apply put_file_fields. }
  destruct (Hcfg w3) as [T4 G4].
  destruct (write_processing_request job (default [] body) w3) as [[[]|e] w4];
    simpl in *; [|left; split; [congruence | right; congruence]].
  pose proof (moves_write_metadata same_guard Htrans Hblind job
                (Metadata job name "extracting" (Some (prefix_of name)) [] [] None None)
                (prefix_of name) (Hemit _) w4) as [T5 G5].
  destruct (write_metadata job _ (prefix_of name) w4) as [[[]|e] w5];
    simpl in *; [|left; split; [congruence | right; congruence]].
  right. rewrite G12 in Hbusy. split; [exact Hbusy|].
  split; [now rewrite T5, T4, T3 | now rewrite G5, G4, G3].
Qed.

End Requests.

Section OneAttempt.

Lemma remove_first_in job k l : In k (remove_first job l) -> In k l.
Proof.
  induction l as [|x l IH]; simpl; [auto|].
  case_bool_decide; [auto|]. intros [Hk|Hk]; auto.
Qed.

Lemma remove_first_NoDup job l :
  List.NoDup l -> List.NoDup (remove_first job l) /\ ~ In job (remove_first job l).
Proof.
  induction 1 as [|x l Hx Hl IH]; simpl; [split; [constructor | auto]|].
  case_bool_decide as E.
  - subst x. split; assumption.
  - destruct IH as [IH1 IH2]. split.
    + constructor; [|exact IH1]. intros Hin. apply Hx. eapply remove_first_in, Hin.
    + intros [Hk|Hk]; [congruence | auto].
Qed.

Lemma one_attempt_step w w' :
  step w w' -> one_attempt_per_job w -> one_attempt_per_job w'.
Proof.
  intros Hstep [Hnd Hin]. destruct Hstep as [job body oracle w | job env input_name prefix oracle w Hrun | o u w].
  - pose proof (extract_job_guard job body (set_faults oracle w)) as H.
    simpl in H. destruct H as [[HT HG]|(Hout & HT & HG)].
    + split; [now rewrite HT|]. intros k Hk. rewrite HT in Hk.
      specialize (Hin k Hk). destruct HG as [-> | ->]; set_solver.
    + split.
      * rewrite HT. apply List.NoDup_app; [exact Hnd | repeat constructor; auto|].
        intros k Hk [<-|[]]. apply Hout, Hin, Hk.
      * intros k Hk. rewrite HT in Hk. rewrite HG.
        apply in_app_iff in Hk as [Hk|[<-|[]]].
        -- apply elem_of_union_r, Hin, Hk.
        -- apply elem_of_union_l, elem_of_singleton. reflexivity.
  - assert (Hsup : guard_after_supervisor job (set_faults oracle w)
                     (snd (_run_extraction_background env job input_name prefix
                             (set_faults oracle w)))).
    { apply moves_supervisor.
      - apply guard_after_supervisor_refl.
      - apply guard_after_supervisor_trans.
      - apply guard_after_supervisor_blind.
      - intros e w0 _. split; auto.
      - intros w0. split; auto. }
    destruct Hsup as [HT HG]. simpl in HT, HG.
    destruct (remove_first_NoDup job _ Hnd) as [Hnd' Hgone].
    split; [exact Hnd'|]. simpl. intros k Hk.
    assert (Hne : k <> job) by (intros ->; contradiction).
    specialize (Hin k (remove_first_in _ _ _ Hk)).
    destruct HG as [-> | ->]; [exact Hin | set_solver].
  - split; assumption.
Qed.

Lemma one_attempt_reachable w : reachable w -> one_attempt_per_job w.
Proof.
  induction 1 as [w He Ht | w w' Hr IH Hs].
  - split; rewrite Ht; [constructor | intros k []].
  - eapply one_attempt_step; eauto.
Qed.

End OneAttempt.




(** ** Artifact paths *)

Section ArtifactPath.

Lemma starts_with_spec (pre s : text) :
  starts_with pre s = true <-> exists rest, s = pre ++ rest.
Proof.
  revert s. induction pre as [|a pre IH]; intros s; simpl.
  - split; [intros _; now exists s | reflexivity].
  - destruct s as [|b s].
    + split; [discriminate | intros [rest H]; discriminate H].
    + rewrite andb_true_iff, bool_decide_eq_true, IH. split.
      * intros [-> [rest ->]]. now exists rest.
      * intros [rest [= -> ->]]. split; [reflexivity | now exists rest].
Qed.

Lemma contains_spec (needle s : text) :
  contains needle s = true <-> exists a b, s = a ++ needle ++ b.
Proof.
  induction s as [|c s IH].
  - simpl. rewrite orb_false_r, starts_with_spec. split.
    + intros [rest H]. now exists [], rest.
    + intros (a & b & H). destruct a; [now exists b|discriminate H].
  - cbn [contains]. rewrite orb_true_iff, starts_with_spec, IH. split.
    + intros [[rest H]|(a & b & H)].
      * now exists [], rest.
      * exists (c :: a), b. simpl. now rewrite H.
    + intros (a & b & H). destruct a as [|c' a].
      * left. now exists b.
      * right. injection H as _ H. now exists a, b.
Qed.

Lemma no_slash_contains s :
  Forall (fun c => is_slash c = false) s -> contains (str "/") s = false.
Proof.
  intros Hall. destruct (contains (str "/") s) eqn:E; [|reflexivity].
  apply contains_spec in E as (a & b & ->).
  apply List.Forall_app in Hall as [_ Hall]. inversion Hall; subst. discriminate.
Qed.

Lemma split_on_sep_app (sep : ascii -> bool) a c b :
  sep c = true -> split_on sep (a ++ c :: b) = split_on sep a ++ split_on sep b.
Proof.
  intros Hc. induction a as [|x a IH]; simpl; [now rewrite Hc|].
  rewrite IH. destruct (sep x); [reflexivity|].
  assert (E : exists l ls, split_on sep a = l :: ls).
  { clear. destruct a as [|y a]; simpl; [eauto|].
    destruct (sep y); [eauto|]. destruct (split_on sep a); eauto. }
  destruct E as (l & ls & ->). reflexivity.
Qed.

Lemma split_on_entry (sep : ascii -> bool) a :
  Forall (fun c => sep c = false) a -> split_on sep a = [a].
Proof.
  induction 1 as [|c a Hc Ha IH]; [reflexivity|].
  simpl. now rewrite Hc, IH.
Qed.

Lemma path_parts_join a b :
  path_parts (a ++ str "/" ++ b) = path_parts a ++ path_parts b.
Proof.
  unfold path_parts. change (a ++ str "/" ++ b) with (a ++ "/"%char :: b).
  now rewrite split_on_sep_app, List.filter_app.
Qed.

Lemma path_parts_entry a : entry_name a -> path_parts a = [a].
Proof.
  intros (Hne & Hs & _). unfold path_parts.
  rewrite (split_on_entry _ _ Hs). simpl. now destruct a.
Qed.

(** A text that starts with the text of a directory and goes on with a
    slash, or not at all, names a path in that directory. *)
Lemma located_at_boundary fs (d p : path fs) rest :
  path_str fs p = path_str fs d ++ rest ->
  rest = [] \/ (exists r, rest = str "/" ++ r) ->
  located_in fs d p.
Proof.
  intros E [-> | [r ->]]; unfold located_in; rewrite E.
  - exists []. now rewrite !app_nil_r.
  - exists (path_parts r). apply path_parts_join.
Qed.

End ArtifactPath.

Section Escape.

Variables job suffix link target : text.
Hypothesis Hjob : entry_name job.
Hypothesis Hother : entry_name (job ++ suffix).
Hypothesis Hsuffix : suffix <> [].
Hypothesis Hlink : entry_name link.
Hypothesis Hdots : contains (str "..") link = false.
Hypothesis Hback : contains (str "\") link = false.
Hypothesis Htarget : entry_name target.

Local Abbreviation fs := (linked_fs job link (job ++ suffix) target).
Local Abbreviation theirs := (str "/data/outputs" ++ str "/" ++ job ++ suffix).

Lemma linked_artifact :
  get_artifact_path fs job link = Some (theirs ++ str "/" ++ target).
Proof.
  destruct Hlink as (Hne & Hslash & _).
  unfold get_artifact_path.
  assert (Hguard : (negb (truthy link) || contains (str "..") link
                    || contains (str "/") link || contains (str "\") link)%bool
                   = false).
  { rewrite Hdots, Hback, (no_slash_contains link Hslash).
    destruct link; [congruence | reflexivity]. }
  rewrite Hguard.
  assert (Hex : path_exists fs (joinpath fs (OUTPUTS_DIR fs) job) = true).
  { apply bool_decide_eq_true. right; left. }
  rewrite Hex. cbn [negb].
  assert (Hod : resolve fs (joinpath fs (OUTPUTS_DIR fs) job)
                = str "/data/outputs" ++ str "/" ++ job).
  { cbn [resolve joinpath OUTPUTS_DIR linked_fs].
    rewrite bool_decide_false; [reflexivity|].
    intros E. do 2 apply app_inv_head in E.
    rewrite <- (app_nil_r job) in E at 1. apply app_inv_head in E. discriminate. }
  assert (Hp : resolve fs (joinpath fs (joinpath fs (OUTPUTS_DIR fs) job) link)
               = theirs ++ str "/" ++ target).
  { cbn [resolve joinpath OUTPUTS_DIR linked_fs].
    rewrite bool_decide_true by now rewrite <- !app_assoc.
    now rewrite <- !app_assoc. }
  rewrite Hp, Hod.
  assert (Hs : starts_with (path_str fs (str "/data/outputs" ++ str "/" ++ job))
                           (path_str fs (theirs ++ str "/" ++ target)) = true).
  { apply starts_with_spec. exists (suffix ++ str "/" ++ target).
    cbn [path_str linked_fs]. now rewrite <- !app_assoc. }
  rewrite Hs. cbn [negb].
  assert (Hf : is_file fs (theirs ++ str "/" ++ target) = true).
  { apply bool_decide_eq_true. now rewrite <- !app_assoc. }
  now rewrite Hf.
Qed.

Lemma parts_of_job_dir :
  path_parts (str "/data/outputs" ++ str "/" ++ job) = [str "data"; str "outputs"; job].
Proof. now rewrite path_parts_join, (path_parts_entry job Hjob). Qed.

Lemma parts_of_linked_artifact :
  path_parts (theirs ++ str "/" ++ target)
  = [str "data"; str "outputs"; job ++ suffix; target].
Proof.
  rewrite path_parts_join, (path_parts_entry target Htarget), path_parts_join.
  now rewrite (path_parts_entry _ Hother).
Qed.

(** The artifact handed out lies in the other job's directory and not in
    the directory of the job that was asked for. *)
Lemma linked_artifact_elsewhere :
  ~ located_in fs (str "/data/outputs" ++ str "/" ++ job) (theirs ++ str "/" ++ target)
  /\ located_in fs theirs (theirs ++ str "/" ++ target).
Proof.
  split.
  - intros [below E]. cbn [path_str linked_fs] in E.
    rewrite parts_of_linked_artifact, parts_of_job_dir in E.
    injection E as E _. rewrite <- (app_nil_r job) in E at 2.
    apply app_inv_head in E. contradiction.
  - apply (located_at_boundary fs _ _ (str "/" ++ target)); [reflexivity|].
    right. now exists target.
Qed.

End Escape.

(** C10.  [get_artifact_path] returns [None] when the file name is empty or
    holds "..", "/" or a backslash, and when the text of the resolved path
    does not start with the text of the resolved output directory of the
    job.  A path it returns is the resolved [OUTPUTS_DIR / job_id /
    filename], a regular file, and its text starts with the text of the
    directory; it lies in the directory when that text ends there or goes on
    with a slash.  The test compares texts, not components: when a job id is
    the beginning of another job id and the first job's directory holds a
    link to a file of the other, that file is handed out for the first job
    although it lies in the other job's directory and not in the first
    one's. *)
Theorem get_artifact_path_follows_link_to_sibling :
  (forall (fs : filesystem) (job_id filename : text),
     let od := joinpath fs (OUTPUTS_DIR fs) job_id in
     let target := resolve fs (joinpath fs od filename) in
     let unsafe :=
       filename = []
       \/ (exists a b, filename = a ++ str ".." ++ b)
       \/ (exists a b, filename = a ++ str "/" ++ b)
       \/ (exists a b, filename = a ++ str "\" ++ b) in
     (unsafe -> get_artifact_path fs job_id filename = None)
     /\ ((~ exists rest, path_str fs target = path_str fs (resolve fs od) ++ rest) ->
         get_artifact_path fs job_id filename = None)
     /\ (forall p, get_artifact_path fs job_id filename = Some p ->
           p = target /\ is_file fs p = true /\ path_exists fs od = true /\ ~ unsafe
           /\ exists rest,
                path_str fs p = path_str fs (resolve fs od) ++ rest
                /\ (rest = [] \/ (exists r, rest = str "/" ++ r) ->
                    located_in fs (resolve fs od) p)))
  /\ (forall job suffix link target : text,
        entry_name job -> entry_name (job ++ suffix) -> suffix <> [] ->
        entry_name link -> contains (str "..") link = false ->
        contains (str "\") link = false ->
        entry_name target ->
        let fs := linked_fs job link (job ++ suffix) target in
        let od := joinpath fs (OUTPUTS_DIR fs) job in
        let theirs := joinpath fs (OUTPUTS_DIR fs) (job ++ suffix) in
        exists p,
          get_artifact_path fs job link = Some p
          /\ p = joinpath fs theirs target
          /\ ~ located_in fs (resolve fs od) p
          /\ located_in fs (resolve fs theirs) p).
Proof.
  split.
  - intros fs job_id filename od target unsafe.
    assert (Hguard : (negb (truthy filename) || contains (str "..") filename
                      || contains (str "/") filename
                      || contains (str "\") filename)%bool = true <-> unsafe).
    { subst unsafe. rewrite !orb_true_iff, !contains_spec, negb_true_iff, truthy_nil.
      tauto. }
    unfold get_artifact_path. fold od. fold target.
    destruct (negb (truthy filename) || contains (str "..") filename
              || contains (str "/") filename || contains (str "\") filename)%bool
      eqn:Eg.
    { split; [reflexivity|]. split; [reflexivity | discriminate]. }
    assert (Hsafe : ~ unsafe) by (rewrite <- Hguard; discriminate).
    split; [intros Hu; contradiction|].
    destruct (path_exists fs od) eqn:Eo; simpl;
      [|split; [reflexivity | discriminate]].
    destruct (starts_with _ _) eqn:Es; simpl.
    + apply starts_with_spec in Es as [rest Hrest].
      split; [intros Hn; destruct Hn; now exists rest|].
      destruct (is_file fs target) eqn:Ef; [|discriminate].
      intros p [= <-]. repeat (split; [auto; fail|]).
      exists rest. split; [exact Hrest|].
      now apply located_at_boundary.
    + split; [reflexivity | discriminate].
  - intros job suffix link target Hjob Hother Hsuffix Hlink Hdots Hback Htarget
      fs od theirs.
    exists (theirs ++ str "/" ++ target).
    split; [now apply linked_artifact|]. split; [reflexivity|].
    assert (Hod : resolve fs od = od).
    { subst fs od. cbn [resolve joinpath OUTPUTS_DIR linked_fs].
      rewrite bool_decide_false; [reflexivity|].
      intros E. do 2 apply app_inv_head in E.
      rewrite <- (app_nil_r job) in E at 1. apply app_inv_head in E. discriminate. }
    assert (Hth : resolve fs theirs = theirs).
    { subst fs theirs. cbn [resolve joinpath OUTPUTS_DIR linked_fs].
      rewrite bool_decide_false; [reflexivity|].
      intros E. do 2 apply app_inv_head in E.
      destruct Hother as (_ & Hs & _).
      assert (Hs' : Forall (fun c => is_slash c = false) (job ++ str "/" ++ link))
        by now rewrite <- E.
      apply List.Forall_app in Hs' as [_ Hs']. inversion Hs'; subst. discriminate. }
    rewrite Hod, Hth.
    now apply linked_artifact_elsewhere.
Qed.

Lemma get_artifact_path_follows_link_to_sibling_witness :
  let fs := linked_fs (str "job") (str "link.md") (str "job-art")
                      (str "prefix.document.md") in
  get_artifact_path fs (str "job") (str "link.md")
    = Some (str "/data/outputs/job-art/prefix.document.md")
  /\ ~ located_in fs (str "/data/outputs/job") (str "/data/outputs/job-art/prefix.document.md")
  /\ located_in fs (str "/data/outputs/job-art")
       (str "/data/outputs/job-art/prefix.document.md").
Proof.
  intros fs.
  destruct get_artifact_path_follows_link_to_sibling as [_ H].
  destruct (H (str "job") (str "-art") (str "link.md") (str "prefix.document.md"))
    as (p & Hp & -> & Hout & Hin);
    try reflexivity; try discriminate;
    try (repeat split; [discriminate | repeat constructor | discriminate | discriminate]).
  split; [exact Hp | split; [exact Hout | exact Hin]].
Defined.

(** * Further properties of the chunker *)

Section Trimming.

Lemma drop_while_idem {A} (f : A -> bool) l :
  drop_while f (drop_while f l) = drop_while f l.
Proof.
  induction l as [|x l IH]; simpl; [reflexivity|].
  destruct (f x) eqn:E; [exact IH|]. simpl. now rewrite E.
Qed.

Lemma drop_while_app_stop {A} (f : A -> bool) a c r :
  f c = false -> exists a1, drop_while f (a ++ c :: r) = a1 ++ c :: r.
Proof.
  intros Hc. induction a as [|x a [a1 IH]]; simpl.
  - exists []. simpl. now rewrite Hc.
  - destruct (f x); [eauto|]. now exists (x :: a).
Qed.

(** A trimmed text starts and ends with ink. *)
Lemma strip_head s c r : strip s = c :: r -> is_space c = false.
Proof.
  unfold strip, lstrip. intros E.
  destruct (rdrop_while_prefix is_space (drop_while is_space s)) as [post Hp].
  fold (rstrip (drop_while is_space s)) in Hp. rewrite E in Hp.
  now apply (drop_while_head is_space s c (r ++ post)).
Qed.

Lemma strip_last s c r : rev (strip s) = c :: r -> is_space c = false.
Proof.
  unfold strip, rstrip. rewrite rev_involutive. apply drop_while_head.
Qed.

Lemma strip_idem s : trimmed (strip s).
Proof.
  unfold trimmed. destruct (strip s) as [|c r] eqn:E; [reflexivity|].
  rewrite <- E.
  assert (Hl : lstrip (strip s) = strip s).
  { rewrite E. unfold lstrip. simpl. now rewrite (strip_head s c r E). }
  unfold strip at 1. rewrite Hl. unfold strip, rstrip.
  now rewrite rev_involutive, drop_while_idem.
Qed.

Lemma segment_refl s : segment s s.
Proof. exists [], []. simpl. now rewrite app_nil_r. Qed.

Lemma segment_cons c r s : segment r s -> segment r (c :: s).
Proof. intros (a & b & ->). now exists (c :: a), b. Qed.

Lemma segment_app_l r s a : segment r s -> segment r (a ++ s).
Proof. intros (x & y & ->). exists (a ++ x), y. now rewrite <- app_assoc. Qed.

Lemma segment_app_r r s b : segment r s -> segment r (s ++ b).
Proof. intros (x & y & ->). exists x, (y ++ b). now rewrite <- !app_assoc. Qed.

Lemma segment_ink r s : segment r s -> inked r -> inked s.
Proof.
  unfold inked. intros (a & b & ->) H.
  rewrite !has_ink_app, H. now rewrite orb_true_r.
Qed.

Lemma segment_join sep p buf : In p buf -> segment p (join sep buf).
Proof.
  induction buf as [|q buf IH]; [intros []|].
  intros [-> | Hin].
  - destruct buf as [|q' buf]; simpl; [apply segment_refl|].
    exists [], (sep ++ join sep (q' :: buf)). reflexivity.
  - destruct buf as [|q' buf]; [destruct Hin|].
    change (join sep (q :: q' :: buf)) with (q ++ sep ++ join sep (q' :: buf)).
    apply segment_app_l, segment_app_l. auto.
Qed.

Lemma segment_strip s : segment (strip s) s.
Proof.
  destruct (drop_while_suffix is_space s) as [pre Hpre].
  destruct (rdrop_while_prefix is_space (drop_while is_space s)) as [post Hpost].
  exists pre, post. unfold strip, lstrip, rstrip. now rewrite <- Hpost.
Qed.

(** Text with ink at both ends survives the trimming of what surrounds it. *)
Lemma segment_strip_core m t c r c' r' :
  m = c :: r -> is_space c = false ->
  rev m = c' :: r' -> is_space c' = false ->
  segment m t -> segment m (strip t).
Proof.
  intros Em Hc Erev Hc' (a & b & ->). unfold strip, lstrip, rstrip.
  assert (E1 : exists a1, drop_while is_space (a ++ m ++ b) = a1 ++ m ++ b).
  { rewrite Em. apply (drop_while_app_stop is_space a c (r ++ b) Hc). }
  destruct E1 as [a1 ->].
  assert (E2 : exists b1,
             drop_while is_space (rev (a1 ++ m ++ b)) = b1 ++ rev m ++ rev a1).
  { rewrite !rev_app_distr, <- app_assoc, Erev.
    apply (drop_while_app_stop is_space (rev b) c' (r' ++ rev a1) Hc'). }
  destruct E2 as [b1 ->].
  exists a1, (rev b1).
  rewrite !rev_app_distr, !rev_involutive. now rewrite <- app_assoc.
Qed.

Lemma segment_strip_strip p t :
  inked p -> segment p t -> segment (strip p) (strip t).
Proof.
  intros Hp Hseg.
  assert (Hne : truthy (strip p) = true) by now rewrite truthy_strip.
  destruct (strip p) as [|c r] eqn:E; [discriminate|].
  assert (Hr : rev (strip p) <> []).
  { rewrite E. simpl. intros H. now apply app_eq_nil in H as [_ H]. }
  destruct (rev (strip p)) as [|c' r'] eqn:E'; [congruence|].
  rewrite <- E.
  apply (segment_strip_core (strip p) t c r c' r'); auto.
  - now apply (strip_head p c r).
  - now apply (strip_last p c' r').
  - apply (segment_trans _ p); [apply segment_strip | exact Hseg].
Qed.

End Trimming.

Section SectionsMore.

Lemma is_nl_eq c : is_nl c = true -> c = "010"%char.
Proof.
  unfold is_nl, code. intros H. apply N.eqb_eq in H.
  rewrite <- (ascii_N_embedding c), H. reflexivity.
Qed.

(** [split] and [join] on the newline are inverse to each other. *)
Lemma join_split_lines s : join NL (split_lines s) = s.
Proof.
  induction s as [|c s IH]; [reflexivity|].
  simpl split_lines. destruct (split_lines_cons s) as (l & ls & E).
  rewrite E in *. destruct (is_nl c) eqn:Hnl.
  - apply is_nl_eq in Hnl. subst c.
    change (join NL ([] :: l :: ls)) with (NL ++ join NL (l :: ls)).
    now rewrite IH.
  - destruct ls as [|l' ls]; simpl in *; now rewrite IH.
Qed.

Lemma is_hash_ink c : is_hash c = true -> is_space c = false.
Proof.
  unfold is_hash, is_space. intros H. apply N.eqb_eq in H. now rewrite H.
Qed.

Lemma match_header_hash line r :
  match_header line = Some r -> exists c rest, line = c :: rest /\ is_hash c = true.
Proof.
  unfold match_header. destruct line as [|c rest]; simpl; [discriminate|].
  destruct (is_hash c) eqn:E; simpl; [eauto | discriminate].
Qed.

Lemma match_header_ink line r : match_header line = Some r -> inked line.
Proof.
  intros H. apply match_header_hash in H as (c & rest & -> & Hc).
  unfold inked. simpl. now rewrite (is_hash_ink c Hc).
Qed.

Lemma blank_plain line : has_ink line = false -> plain line.
Proof.
  intros H. unfold plain. destruct (match_header line) as [r|] eqn:E; [|reflexivity].
  apply match_header_ink in E. unfold inked in E. congruence.
Qed.

Lemma split_lines_blank s :
  has_ink s = false -> Forall (fun l => has_ink l = false) (split_lines s).
Proof.
  induction s as [|c s IH]; simpl; [repeat constructor|].
  intros H. apply orb_false_elim in H as [Hc Hs]. specialize (IH Hs).
  destruct (is_nl c); [constructor; [reflexivity | exact IH]|].
  destruct (split_lines s) as [|l ls]; [repeat constructor; simpl; now rewrite Hc|].
  inversion IH; subst. constructor; [simpl; now rewrite Hc | assumption].
Qed.

Lemma sec_loop_plain lines :
  Forall plain lines -> sec_loop lines = SecState [] lines [].
Proof.
  induction lines as [|line lines IH] using rev_ind; [reflexivity|].
  intros H. apply List.Forall_app in H as [H1 H2].
  inversion H2 as [|? ? Hl _]; subst.
  rewrite sec_loop_snoc, (IH H1). unfold sec_step. now rewrite Hl.
Qed.

Lemma iter_sections_blank markdown : has_ink markdown = false -> iter_sections markdown = [].
Proof.
  intros H. unfold iter_sections. rewrite sec_loop_plain.
  - simpl. unfold flush_section.
    rewrite join_split_lines, truthy_strip, H. now destruct (truthy _).
  - eapply List.Forall_impl; [|apply split_lines_blank, H]. apply blank_plain.
Qed.

Lemma sec_loop_shape lines :
  section_shape (current_path (sec_loop lines)) (current_section_lines (sec_loop lines)).
Proof.
  induction lines as [|line lines IH] using rev_ind; [left; split; [reflexivity|constructor]|].
  rewrite sec_loop_snoc. unfold sec_step.
  destruct (match_header line) as [[level g2]|] eqn:Hm; simpl.
  - right. exists line, level, g2, (pop_path level (current_path (sec_loop lines))), [].
    repeat split; [exact Hm | constructor].
  - destruct IH as [[Hp Hb] | (l0 & level & g2 & outer & rest & Hb & Hh & Hr & Hp)].
    + left. split; [exact Hp|]. apply List.Forall_app. split; [exact Hb|].
      constructor; [exact Hm | constructor].
    + right. exists l0, level, g2, outer, (rest ++ [line]).
      rewrite Hb. repeat split; [exact Hh | | exact Hp].
      apply List.Forall_app. split; [exact Hr|]. constructor; [exact Hm | constructor].
Qed.

(** Where a yielded section comes from. *)
Lemma iter_sections_flush markdown s :
  In s (iter_sections markdown) ->
  exists k, let st := sec_loop (firstn k (split_lines markdown)) in
    flush_section (current_path st) (current_section_lines st) = Some s.
Proof.
  intros Hin. unfold iter_sections in Hin.
  set (all := split_lines markdown) in *.
  destruct (flush_section (current_path (sec_loop all)) _) as [o|] eqn:Ef;
    simpl in Hin.
  - apply in_app_iff in Hin as [Hin|[<-|[]]].
    + apply yielded_from_flush in Hin as (k & _ & Hf). now exists k.
    + exists (length all). simpl. now rewrite firstn_all.
  - apply yielded_from_flush in Hin as (k & _ & Hf). now exists k.
Qed.

Lemma holds_content_more l ys o :
  holds_content l (map snd ys) -> holds_content l (map snd (yield_opt o ys)).
Proof.
  intros (w & Hw & Hs). exists w. split; [|exact Hs].
  destruct o; simpl; [|exact Hw]. rewrite map_app. apply in_app_iff. now left.
Qed.

Lemma flush_holds_content path buf ys l :
  In l buf -> inked l ->
  holds_content l (map snd (yield_opt (flush_section path buf) ys)).
Proof.
  intros Hin Hl.
  assert (Hb : List.Exists inked buf) by (apply List.Exists_exists; eauto).
  destruct (flush_section_inked path buf Hb) as [[p t] Hf]. rewrite Hf.
  apply flush_section_label in Hf as (_ & -> & _).
  exists (strip (join NL buf)). split.
  - simpl. rewrite map_app. apply in_app_iff. right. now left.
  - apply segment_strip_strip; [exact Hl | now apply segment_join].
Qed.

Lemma sec_loop_covers lines l :
  In l lines -> inked l ->
  In l (current_section_lines (sec_loop lines))
  \/ holds_content l (map snd (yielded (sec_loop lines))).
Proof.
  induction lines as [|line lines IH] using rev_ind; [intros []|].
  intros Hin Hl. rewrite sec_loop_snoc. unfold sec_step.
  apply in_app_iff in Hin as [Hin | [<- | []]].
  - destruct (IH Hin Hl) as [Hb | Hy];
      destruct (match_header line) as [[level g2]|]; simpl.
    + right. now apply flush_holds_content.
    + left. apply in_app_iff. now left.
    + right. now apply holds_content_more.
    + now right.
  - left. destruct (match_header line) as [[level g2]|]; simpl; [now left|].
    apply in_app_iff. right. now left.
Qed.

Lemma split_lines_no_nl s :
  Forall (Forall (fun c => is_nl c = false)) (split_lines s).
Proof.
  induction s as [|c s IH]; simpl; [repeat constructor|].
  destruct (is_nl c) eqn:Hnl; [constructor; [constructor | exact IH]|].
  destruct (split_lines s) as [|l ls]; [repeat constructor; exact Hnl|].
  inversion IH; subst. constructor; [constructor; assumption | assumption].
Qed.

(** A header line stays a header line when text is added at its end. *)
Lemma take_while_app_stop {A} (f : A -> bool) l c r m :
  drop_while f l = c :: r ->
  take_while f (l ++ m) = take_while f l /\ drop_while f (l ++ m) = c :: r ++ m.
Proof.
  induction l as [|x l IH]; simpl; [discriminate|].
  destruct (f x) eqn:E.
  - intros H. destruct (IH H) as [-> ->]. now split.
  - intros [= <- <-]. now split.
Qed.

Lemma match_header_app line more r :
  match_header line = Some r -> match_header (line ++ more) <> None.
Proof.
  intros H. unfold match_header in *.
  destruct (drop_while is_hash line) as [|c rest] eqn:Ed.
  { destruct (_ && _)%bool in H; discriminate. }
  destruct (take_while_app_stop is_hash line c rest more Ed) as [-> ->].
  destruct (_ && _)%bool; [|discriminate].
  destruct (is_space c); [|discriminate].
  destruct rest as [|d rest']; [discriminate|].
  change ((d :: rest') ++ more) with (d :: rest' ++ more).
  now destruct (drop_while is_space (d :: rest' ++ more)).
Qed.

Lemma plain_prefix line more : plain (line ++ more) -> plain line.
Proof.
  unfold plain. intros H. destruct (match_header line) as [r|] eqn:E; [|reflexivity].
  now destruct (match_header_app line more r E).
Qed.

Lemma split_lines_app a b :
  split_lines (a ++ b) =
    removelast (split_lines a)
    ++ (List.last (split_lines a) [] ++ hd [] (split_lines b)) :: tl (split_lines b).
Proof.
  induction a as [|c a IH].
  - simpl. now destruct (split_lines_cons b) as (l & ls & ->).
  - cbn [app split_lines]. rewrite IH.
    destruct (split_lines_cons a) as (l & ls & E). rewrite E.
    destruct (is_nl c); [reflexivity|].
    destruct ls as [|l' ls]; reflexivity.
Qed.

(** The lines after the first of a text. *)
Lemma plain_tail_suffix a b :
  Forall plain (tl (split_lines (a ++ b))) -> Forall plain (tl (split_lines b)).
Proof.
  rewrite split_lines_app.
  destruct (removelast (split_lines a)) as [|x xs]; simpl; [auto|].
  intros H. apply List.Forall_app in H as [_ H]. now inversion H.
Qed.

Lemma plain_tail_prefix a b :
  Forall plain (tl (split_lines (a ++ b))) -> Forall plain (tl (split_lines a)).
Proof.
  rewrite split_lines_app.
  destruct (split_lines_cons a) as (l & ls & E).
  assert (Hne : split_lines a <> []) by (rewrite E; discriminate).
  rewrite (app_removelast_last [] Hne) at 3.
  destruct (removelast (split_lines a)) as [|x xs]; simpl; [constructor|].
  intros H. apply List.Forall_app in H as [H1 H2]. inversion H2; subst.
  apply List.Forall_app. split; [exact H1|].
  constructor; [|constructor]. eapply plain_prefix; eauto.
Qed.

Lemma plain_tail_segment r s :
  segment r s -> Forall plain (tl (split_lines s)) -> Forall plain (tl (split_lines r)).
Proof.
  intros (a & b & ->) H.
  apply plain_tail_suffix in H. now apply plain_tail_prefix in H.
Qed.

Lemma split_lines_line l rest :
  Forall (fun c => is_nl c = false) l ->
  split_lines (l ++ NL ++ rest) = l :: split_lines rest.
Proof.
  induction 1 as [|c l Hc Hl IH]; [reflexivity|].
  cbn [app split_lines]. now rewrite Hc, IH.
Qed.

Lemma split_lines_one l :
  Forall (fun c => is_nl c = false) l -> split_lines l = [l].
Proof.
  induction 1 as [|c l Hc Hl IH]; [reflexivity|].
  cbn [split_lines]. now rewrite Hc, IH.
Qed.

(** Joining lines and splitting again gives the lines back. *)
Lemma split_lines_join buf :
  buf <> [] -> Forall (Forall (fun c => is_nl c = false)) buf ->
  split_lines (join NL buf) = buf.
Proof.
  induction buf as [|l buf IH]; [congruence|].
  intros _ H. inversion H as [|? ? Hl Hb]; subst.
  destruct buf as [|l' buf]; [now apply split_lines_one|].
  change (join NL (l :: l' :: buf)) with (l ++ NL ++ join NL (l' :: buf)).
  rewrite (split_lines_line l _ Hl), IH; [reflexivity | discriminate | exact Hb].
Qed.

(** The splitter cuts the lines into blocks: the buffer holds the lines
    since the last header line (or since the start), and every section
    yielded so far was flushed from a block that the next header line
    closed. *)
Lemma sec_loop_blocks lines :
  let st := sec_loop lines in
  (exists before, lines = before ++ current_section_lines st
     /\ (current_path st = [] -> before = []))
  /\ (forall s, In s (yielded st) ->
        exists path buf before h rest,
          lines = before ++ buf ++ h :: rest
          /\ match_header h <> None
          /\ (path = [] -> before = [])
          /\ section_shape path buf
          /\ s = (path_label path, strip (join NL buf))).
Proof.
  induction lines as [|line lines IH] using rev_ind.
  { split; [now exists [] | intros s []]. }
  cbv zeta in IH. destruct IH as [(before & Hcur & Hpre) Hold].
  assert (Hkeep : forall s, In s (yielded (sec_loop lines)) ->
            exists path buf before h rest,
              lines ++ [line] = before ++ buf ++ h :: rest
              /\ match_header h <> None
              /\ (path = [] -> before = [])
              /\ section_shape path buf
              /\ s = (path_label path, strip (join NL buf))).
  { intros s Hin.
    destruct (Hold s Hin) as (path & buf & b & h & rest & E & Hh & Hp & Hs & Es).
    exists path, buf, b, h, (rest ++ [line]).
    split; [|auto]. rewrite E, <- !app_assoc. reflexivity. }
  pose proof (sec_loop_shape lines) as Hshape.
  cbv zeta. rewrite sec_loop_snoc. unfold sec_step.
  destruct (match_header line) as [[level g2]|] eqn:Hm; simpl.
  - split.
    + exists lines. split; [reflexivity|].
      intros H. now apply app_eq_nil in H as [_ H].
    + intros s Hin.
      destruct (flush_section _ _) as [[p t]|] eqn:Ef; simpl in Hin; [|auto].
      apply in_app_iff in Hin as [Hin | [<- | []]]; [auto|].
      apply flush_section_label in Ef as (-> & -> & _).
      exists (current_path (sec_loop lines)),
             (current_section_lines (sec_loop lines)), before, line, [].
      split; [now rewrite Hcur at 1; rewrite <- app_assoc|].
      split; [congruence|]. auto.
  - split; [|exact Hkeep].
    exists before. split; [|exact Hpre].
    rewrite Hcur at 1. now rewrite <- app_assoc.
Qed.

Lemma iter_sections_blocks markdown s :
  In s (iter_sections markdown) ->
  exists path buf before after,
    split_lines markdown = before ++ buf ++ after
    /\ (path = [] -> before = [])
    /\ (after = [] \/ exists h rest, after = h :: rest /\ match_header h <> None)
    /\ section_shape path buf
    /\ s = (path_label path, strip (join NL buf)).
Proof.
  intros Hin. unfold iter_sections in Hin.
  set (all := split_lines markdown) in *.
  destruct (sec_loop_blocks all) as [(before & Hcur & Hpre) Hold].
  assert (Hy : In s (yielded (sec_loop all)) ->
    exists path buf before after,
      all = before ++ buf ++ after
      /\ (path = [] -> before = [])
      /\ (after = [] \/ exists h rest, after = h :: rest /\ match_header h <> None)
      /\ section_shape path buf
      /\ s = (path_label path, strip (join NL buf))).
  { intros H. destruct (Hold s H) as (path & buf & b & h & rest & E & Hh & Hp & Hs & Es).
    exists path, buf, b, (h :: rest). repeat (split; [eauto|]). exact Es. }
  destruct (flush_section (current_path (sec_loop all)) _) as [[p t]|] eqn:Ef;
    simpl in Hin; [|auto].
  apply in_app_iff in Hin as [Hin | [<- | []]]; [auto|].
  apply flush_section_label in Ef as (-> & -> & _).
  exists (current_path (sec_loop all)), (current_section_lines (sec_loop all)),
         before, [].
  split; [now rewrite app_nil_r|]. split; [exact Hpre|].
  split; [now left|]. split; [apply sec_loop_shape | reflexivity].
Qed.

Lemma section_shape_tail path buf : section_shape path buf -> Forall plain (tl buf).
Proof.
  intros [[_ H] | (line & level & g2 & outer & rest & -> & _ & H & _)]; [|exact H].
  destruct buf; [constructor | now inversion H].
Qed.

(** No line of a section text but the first is a header line. *)
Lemma section_text_lines markdown s :
  In s (iter_sections markdown) ->
  exists first rest, split_lines (snd s) = first :: rest /\ Forall plain rest.
Proof.
  intros Hin.
  assert (Hink : inked (snd s)) by now apply (iter_sections_inked markdown).
  apply iter_sections_blocks in Hin
    as (path & buf & before & after & E & _ & _ & Hshape & ->).
  cbn [snd] in *.
  destruct (split_lines_cons (strip (join NL buf))) as (first & rest & Hl).
  exists first, rest. split; [exact Hl|].
  change rest with (tl (first :: rest)). rewrite <- Hl.
  apply (plain_tail_segment _ (join NL buf)); [apply segment_strip|].
  assert (Hne : buf <> []).
  { intros ->. simpl in Hink. discriminate. }
  rewrite split_lines_join; [now apply (section_shape_tail path) | exact Hne|].
  pose proof (split_lines_no_nl markdown) as Hall. rewrite E in Hall.
  apply List.Forall_app in Hall as [_ Hall].
  now apply List.Forall_app in Hall as [Hall _].
Qed.

End SectionsMore.

(** X1.  A document without any header line is one section with the empty
    label, whose text is the whole document without its surrounding
    whitespace; when the document is blank there is no section at all. *)
Theorem iter_sections_without_headers (markdown : text) :
  Forall plain (split_lines markdown) ->
  iter_sections markdown =
    if has_ink markdown then [([], strip markdown)] else [].
Proof.
  intros H. unfold iter_sections. rewrite (sec_loop_plain _ H). simpl.
  unfold flush_section.
  destruct (split_lines_cons markdown) as (l & ls & E).
  assert (Ht : truthy (split_lines markdown) = true) by now rewrite E.
  rewrite Ht, join_split_lines, truthy_strip.
  now destruct (has_ink markdown).
Qed.

Lemma iter_sections_without_headers_witness :
  Forall plain (split_lines plain_lines_markdown)
  /\ iter_sections plain_lines_markdown = [([], str "plain text

more of it")].
Proof.
  split; [repeat constructor|].
  apply (iter_sections_without_headers plain_lines_markdown).
  repeat constructor.
Defined.

(** X2.  Every section text is non-blank and carries no whitespace at
    either end. *)
Theorem section_texts_are_trimmed (markdown : text) (s : text * text) :
  In s (iter_sections markdown) -> inked (snd s) /\ trimmed (snd s).
Proof.
  intros Hin. split; [now apply (iter_sections_inked markdown)|].
  apply iter_sections_flush in Hin as (k & Hf). simpl in Hf.
  destruct s as [p t]. apply flush_section_label in Hf as (_ & -> & _).
  apply strip_idem.
Qed.

Lemma section_texts_are_trimmed_witness :
  inked (str "## Part 2

Second.") /\ trimmed (str "## Part 2

Second.").
Proof.
  apply (section_texts_are_trimmed intro_part2_markdown
           (str "Intro > Part 2", str "## Part 2

Second.")).
  vm_compute. right. now left.
Defined.

Lemma iter_sections_cover_lines (markdown line : text) :
  In line (split_lines markdown) -> inked line ->
  exists txt, In txt (map snd (iter_sections markdown)) /\ segment (strip line) txt.
Proof.
  intros Hin Hl.
  change (holds_content line (map snd (iter_sections markdown))).
  unfold iter_sections.
  destruct (sec_loop_covers _ line Hin Hl) as [Hb | Hy].
  - now apply flush_holds_content.
  - now apply holds_content_more.
Qed.


(** X3.  No non-blank line is lost by the section splitter: the content of
    every non-blank line of the document, without its surrounding
    whitespace, is a run of characters of some section text. *)
Theorem sections_keep_every_line (markdown line : text) :
  In line (split_lines markdown) -> inked line ->
  holds_content line (map snd (iter_sections markdown)).
Proof. apply iter_sections_cover_lines. Qed.

Lemma sections_keep_every_line_witness :
  holds_content (str "  plain text") (map snd (iter_sections plain_lines_markdown)).
Proof.
  apply (sections_keep_every_line plain_lines_markdown (str "  plain text")).
  - vm_compute. now left.
  - reflexivity.
Defined.

(** X4.  Every section is the trimmed text of a block of consecutive lines
    of the document.  The block starts at the first line of the document
    (empty label, plain lines only) or at a header line, which plain lines
    follow and whose level and title top the stack that labels the section;
    it ends just before the next header line or with the document.  So,
    split at its newlines, a section text holds no header line after its
    first line. *)
Theorem sections_open_with_their_header (markdown : text) (s : text * text) :
  In s (iter_sections markdown) ->
  (exists path buf before after,
     split_lines markdown = before ++ buf ++ after
     /\ (path = [] -> before = [])
     /\ (after = [] \/ exists h rest, after = h :: rest /\ match_header h <> None)
     /\ section_shape path buf
     /\ fst s = path_label path
     /\ snd s = strip (join NL buf))
  /\ (exists first rest, split_lines (snd s) = first :: rest /\ Forall plain rest).
Proof.
  intros Hin. split; [|now apply (section_text_lines markdown)].
  apply iter_sections_blocks in Hin
    as (path & buf & before & after & E & Hp & Ha & Hs & ->).
  exists path, buf, before, after.
  repeat (split; [assumption|]). split; reflexivity.
Qed.

Lemma sections_open_with_their_header_witness :
  let s := (str "Intro > Part 2", str "## Part 2

Second.") in
  (exists path buf before after,
     split_lines intro_part2_markdown = before ++ buf ++ after
     /\ (path = [] -> before = [])
     /\ (after = [] \/ exists h rest, after = h :: rest /\ match_header h <> None)
     /\ section_shape path buf
     /\ fst s = path_label path
     /\ snd s = strip (join NL buf))
  /\ (exists first rest, split_lines (snd s) = first :: rest /\ Forall plain rest).
Proof.
  apply (sections_open_with_their_header intro_part2_markdown
           (str "Intro > Part 2", str "## Part 2

Second.")).
  vm_compute. right. now left.
Defined.

Section WindowerMore.

Variables target_tokens overlap_tokens : Z.

Local Abbreviation loop := (win_loop target_tokens overlap_tokens).

Lemma append_window_Forall (P : text -> Prop) ws cur :
  (forall s, inked (strip s) -> P (strip s)) ->
  Forall P ws -> Forall P (append_window ws cur).
Proof.
  intros HP Hws. unfold append_window.
  destruct (truthy (strip (join BLANK_LINE cur))) eqn:E; [|exact Hws].
  apply List.Forall_app. split; [exact Hws|]. constructor; [|constructor].
  apply HP. unfold inked. now rewrite has_ink_strip, <- truthy_strip.
Qed.

Lemma win_loop_windows_Forall (P : text -> Prop) ps :
  (forall s, inked (strip s) -> P (strip s)) -> Forall P (windows (loop ps)).
Proof.
  intros HP. induction ps as [|para ps IH] using rev_ind; [constructor|].
  rewrite win_loop_snoc. unfold win_step.
  destruct (truthy (strip para)); [|exact IH].
  destruct (_ && _)%bool; simpl; [|exact IH].
  now apply append_window_Forall.
Qed.

Lemma windows_Forall (P : text -> Prop) t :
  (forall s, inked (strip s) -> P (strip s)) ->
  Forall P (split_to_token_windows t target_tokens overlap_tokens).
Proof.
  intros HP. unfold split_to_token_windows.
  destruct (_ || _)%bool; [constructor|].
  destruct (approx_tokens t <=? target_tokens).
  - destruct (truthy (strip t)) eqn:E; [|constructor].
    constructor; [|constructor]. apply HP. unfold inked.
    now rewrite has_ink_strip, <- truthy_strip.
  - destruct (truthy (current _)).
    + apply append_window_Forall; [exact HP|]. now apply win_loop_windows_Forall.
    + now apply win_loop_windows_Forall.
Qed.

(** Each piece [re.split] returns is a run of characters of the text. *)
Lemma re_split_loop_segment s : forall skip piece p,
  In p (re_split_loop s skip piece) ->
  (exists u v, p = piece ++ u /\ skipn skip s = u ++ v) \/ segment p s.
Proof.
  induction s as [|c s IH]; intros skip piece p Hin.
  - destruct Hin as [<- | []]. left. exists [], [].
    rewrite app_nil_r. split; [reflexivity|]. now destruct skip.
  - destruct skip as [|k]; simpl in Hin.
    + assert (Hgo : In p (re_split_loop s 0 (piece ++ [c])) ->
                (exists u v, p = piece ++ u /\ skipn 0 (c :: s) = u ++ v)
                \/ segment p (c :: s)).
      { intros H. destruct (IH _ _ _ H) as [(u & v & -> & E) | Hs].
        - left. exists (c :: u), v. rewrite <- app_assoc. split; [reflexivity|].
          change (s = u ++ v) in E. simpl. now f_equal.
        - right. now apply segment_cons. }
      destruct (is_nl c); [|exact (Hgo Hin)].
      destruct (sep_rest s) as [n|]; [|exact (Hgo Hin)].
      destruct Hin as [<- | Hin].
      * left. exists [], (c :: s). now rewrite app_nil_r.
      * right. apply segment_cons.
        destruct (IH _ _ _ Hin) as [(u & v & -> & E) | Hs]; [|exact Hs].
        exists (firstn n s), v. simpl. rewrite <- E. symmetry. apply firstn_skipn.
    + destruct (IH _ _ _ Hin) as [(u & v & -> & E) | Hs].
      * left. now exists u, v.
      * right. now apply segment_cons.
Qed.

Lemma split_paragraphs_segment t p : In p (split_paragraphs t) -> segment p t.
Proof.
  intros H. destruct (re_split_loop_segment t 0 [] p H) as [(u & v & -> & E) | Hs];
    [|exact Hs].
  exists [], v. exact E.
Qed.

Lemma render_holds buf p : In p buf -> inked p -> segment (strip p) (render buf).
Proof.
  intros Hin Hp. unfold render.
  apply segment_strip_strip; [exact Hp | now apply segment_join].
Qed.

Lemma win_loop_covers ps p :
  In p ps -> inked p ->
  In p (current (loop ps)) \/ holds_content p (windows (loop ps)).
Proof.
  induction ps as [|para ps IH] using rev_ind; [intros []|].
  intros Hin Hp. rewrite win_loop_snoc.
  set (st := loop ps) in *.
  assert (Hcur : Forall (fun q => has_ink q = true) (current st))
    by apply current_inked.
  destruct (has_ink para) eqn:Hpara.
  - assert (Hcase : (target_tokens < current_tokens st + approx_tokens para
                     /\ current st <> [])
                    \/ (current_tokens st + approx_tokens para <= target_tokens
                        \/ current st = [])).
    { destruct (current st); [right; now right|].
      destruct (Z.lt_ge_cases target_tokens (current_tokens st + approx_tokens para));
        [left; split; [assumption | discriminate] | right; left; lia]. }
    destruct Hcase as [[Hfull Hne] | Hkeep].
    + rewrite (win_step_emit _ _ _ _ Hpara Hfull Hne). simpl.
      rewrite (append_window_inked _ _ Hne Hcur).
      apply in_app_iff in Hin as [Hin | [<- | []]].
      * right. destruct (IH Hin Hp) as [Hb | (w & Hw & Hs)].
        -- exists (render (current st)). split; [apply in_app_iff; right; now left|].
           now apply render_holds.
        -- exists w. split; [apply in_app_iff; now left | exact Hs].
      * left. apply in_app_iff. right. now left.
    + rewrite (win_step_keep _ _ _ _ Hpara Hkeep). simpl.
      apply in_app_iff in Hin as [Hin | [<- | []]].
      * destruct (IH Hin Hp) as [Hb | Hw]; [left; apply in_app_iff; now left | now right].
      * left. apply in_app_iff. right. now left.
  - rewrite (win_step_blank _ _ _ _ Hpara).
    apply in_app_iff in Hin as [Hin | [<- | []]]; [now apply IH|].
    unfold inked in Hp. congruence.
Qed.

Lemma count_loop ps :
  (length (windows (loop ps)) + (if truthy (current (loop ps)) then 1 else 0)
   <= length (List.filter has_ink ps))%nat.
Proof.
  induction ps as [|para ps IH] using rev_ind; [simpl; lia|].
  rewrite win_loop_snoc, List.filter_app, length_app. simpl.
  set (st := loop ps) in *.
  destruct (has_ink para) eqn:Hpara.
  - unfold win_step. rewrite truthy_strip, Hpara.
    destruct (target_tokens <? current_tokens st + approx_tokens para); simpl.
    + revert IH. destruct (current st) as [|q cur] eqn:Ecur; simpl; intros IH.
      * rewrite Ecur. simpl. lia.
      * assert (Hle : (length (append_window (windows st) (q :: cur))
                       <= S (length (windows st)))%nat).
        { unfold append_window. destruct (truthy _); [rewrite length_app; simpl|]; lia. }
        destruct (overlap_seed overlap_tokens (q :: cur) ++ [para]) eqn:E;
          simpl; lia.
    + destruct (current st ++ [para]) eqn:E; simpl.
      * now apply app_eq_nil in E as [_ E].
      * destruct (truthy (current st)); simpl in *; lia.
  - rewrite (win_step_blank _ _ _ _ Hpara). simpl. lia.
Qed.

End WindowerMore.

(** X5.  Whatever the text and the parameters, every window returned is
    non-blank and carries no whitespace at either end. *)
Theorem windows_are_trimmed (t : text) (target_tokens overlap_tokens : Z) :
  Forall (fun w => inked w /\ trimmed w)
         (split_to_token_windows t target_tokens overlap_tokens).
Proof.
  apply windows_Forall. intros s Hs. split; [exact Hs | apply strip_idem].
Qed.

Lemma windows_cover_paragraphs (t : text) (target_tokens overlap_tokens : Z) p :
  In p (split_paragraphs t) -> inked p ->
  exists w, In w (split_to_token_windows t target_tokens overlap_tokens)
            /\ segment (strip p) w.
Proof.
  intros Hin Hp. change (holds_content p (split_to_token_windows t target_tokens overlap_tokens)).
  assert (Hseg : segment p t) by now apply split_paragraphs_segment.
  assert (Ht : inked t) by now apply (segment_ink p).
  unfold split_to_token_windows.
  rewrite truthy_strip, Ht, (has_ink_truthy _ Ht). simpl.
  destruct (approx_tokens t <=? target_tokens).
  - exists (strip t). split; [now left | now apply segment_strip_strip].
  - set (st := win_loop target_tokens overlap_tokens (split_paragraphs t)).
    destruct (win_loop_covers target_tokens overlap_tokens _ p Hin Hp)
      as [Hb | (w & Hw & Hs)]; fold st in Hb || fold st in Hw.
    + assert (Hne : current st <> []) by (intros E; rewrite E in Hb; destruct Hb).
      apply truthy_true in Hne as Htr. rewrite Htr.
      rewrite (append_window_inked _ _ Hne (current_inked _ _ _)).
      exists (render (current st)). split; [apply in_app_iff; right; now left|].
      now apply render_holds.
    + exists w. split; [|exact Hs].
      destruct (truthy (current st)); [|exact Hw].
      unfold append_window. destruct (truthy _); [apply in_app_iff; now left | exact Hw].
Qed.


(** X6.  No non-blank paragraph is lost by the windower: the content of
    every non-blank paragraph of the text, without its surrounding
    whitespace, is a run of characters of some window. *)
Theorem windower_keeps_every_paragraph
    (t : text) (target_tokens overlap_tokens : Z) (p : text) :
  In p (split_paragraphs t) -> inked p ->
  holds_content p (split_to_token_windows t target_tokens overlap_tokens).
Proof. apply windows_cover_paragraphs. Qed.

Lemma windower_keeps_every_paragraph_witness :
  holds_content (str "Second paragraph.")
                (split_to_token_windows three_paragraphs_markdown 5 2).
Proof.
  apply (windower_keeps_every_paragraph three_paragraphs_markdown 5 2
           (str "Second paragraph.")).
  - vm_compute. right. now left.
  - reflexivity.
Defined.

(** X7.  The windower never returns more windows than the text has
    non-blank paragraphs, whatever the overlap. *)
Theorem windows_at_most_paragraphs (t : text) (target_tokens overlap_tokens : Z) :
  (length (split_to_token_windows t target_tokens overlap_tokens)
   <= length (List.filter has_ink (split_paragraphs t)))%nat.
Proof.
  unfold split_to_token_windows.
  destruct (has_ink t) eqn:Ht.
  - rewrite truthy_strip, Ht, (has_ink_truthy _ Ht). simpl.
    destruct (approx_tokens t <=? target_tokens).
    + pose proof (split_paragraphs_ink t Ht) as Hex.
      apply List.Exists_exists in Hex as (p & Hin & Hp).
      assert (Hf : In p (List.filter has_ink (split_paragraphs t)))
        by (apply List.filter_In; split; assumption).
      destruct (List.filter has_ink (split_paragraphs t)); [destruct Hf | simpl; lia].
    + pose proof (count_loop target_tokens overlap_tokens (split_paragraphs t)) as Hc.
      set (st := win_loop target_tokens overlap_tokens (split_paragraphs t)) in *.
      destruct (truthy (current st)); [|lia].
      assert (Hle : (length (append_window (windows st) (current st))
                     <= S (length (windows st)))%nat).
      { unfold append_window. destruct (truthy _); [rewrite length_app; simpl|]; lia. }
      lia.
  - rewrite truthy_strip, Ht, orb_true_r. simpl. lia.
Qed.

Section WriterMore.

Variables (doc_id : text) (target_tokens overlap_tokens : Z).

Local Abbreviation windows_of sec :=
  (split_to_token_windows (snd sec) target_tokens overlap_tokens).

Lemma windows_inked_trimmed t :
  Forall (fun w => inked w /\ trimmed w)
         (split_to_token_windows t target_tokens overlap_tokens).
Proof.
  apply windows_Forall. intros s Hs. split; [exact Hs | apply strip_idem].
Qed.

(** On a window as the windower returns it the writer's guard passes and
    its [strip] changes nothing. *)
Lemma write_window_as_is section st w :
  inked w -> trimmed w ->
  write_window doc_id section st w =
    (fst st ++ [record_of doc_id (snd st) (section, w)], S (snd st)).
Proof.
  intros Hw Ht. unfold write_window, record_of. rewrite Ht.
  now rewrite (has_ink_truthy _ Hw).
Qed.

Lemma write_windows_closed section ws : forall st,
  Forall (fun w => inked w /\ trimmed w) ws ->
  fold_left (write_window doc_id section) ws st =
    (fst st ++ imap (fun i lw => record_of doc_id (snd st + i) lw)
                    (map (pair section) ws),
     (snd st + length ws)%nat).
Proof.
  induction ws as [|w ws IH]; intros [recs n] Hall.
  - simpl. now rewrite app_nil_r, Nat.add_0_r.
  - inversion Hall as [|? ? [Hw Ht] Hws]; subst. simpl fold_left.
    rewrite (write_window_as_is section (recs, n) w Hw Ht), (IH _ Hws).
    cbn [fst snd map length]. rewrite imap_cons, <- app_assoc, Nat.add_0_r.
    f_equal; [|lia]. f_equal. simpl. f_equal.
    apply imap_ext. intros i lw _. simpl. f_equal. lia.
Qed.

Lemma write_sections_closed secs : forall st,
  fold_left (write_section doc_id target_tokens overlap_tokens) secs st =
    (fst st ++ imap (fun i lw => record_of doc_id (snd st + i) lw)
                    (flat_map (fun sec => map (pair (fst sec)) (windows_of sec)) secs),
     (snd st + length (flat_map (fun sec => map (pair (fst sec)) (windows_of sec))
                                secs))%nat).
Proof.
  induction secs as [|sec secs IH]; intros [recs n].
  - simpl. now rewrite app_nil_r, Nat.add_0_r.
  - simpl fold_left. unfold write_section at 2.
    rewrite (write_windows_closed (fst sec) (windows_of sec) (recs, n)
               (windows_inked_trimmed (snd sec))).
    rewrite IH. cbn [fst snd flat_map].
    rewrite imap_app, length_app, !length_map, <- app_assoc.
    f_equal; [|lia]. f_equal. f_equal.
    apply imap_ext. intros i lw _. f_equal. lia.
Qed.

(** The block for a document "without headers" finds nothing to do. *)
Lemma rewindow_whole_idle markdown :
  let st := fold_left (write_section doc_id target_tokens overlap_tokens)
                      (iter_sections markdown) ([], 0%nat) in
  rewindow_whole doc_id target_tokens overlap_tokens markdown st = st.
Proof.
  intros st. unfold rewindow_whole.
  destruct (has_ink markdown) eqn:Hink.
  - assert (Hsecs : (1 <= snd st)%nat).
    { subst st.
      pose proof (write_sections_count doc_id target_tokens overlap_tokens
                    (iter_sections markdown) ([], 0%nat)) as Hc.
      assert (Hall : List.Forall (fun s => inked (snd s)) (iter_sections markdown)).
      { apply List.Forall_forall. intros s Hs. eapply iter_sections_inked, Hs. }
      specialize (Hc Hall).
      pose proof (iter_sections_nonempty markdown Hink).
      destruct (iter_sections markdown); [congruence|].
      cbn [length snd] in Hc. lia. }
    destruct (snd st); [lia | reflexivity].
  - rewrite truthy_strip, Hink. now rewrite andb_false_r.
Qed.

Lemma generate_closed markdown :
  generate_chunks_jsonl (Some markdown) doc_id target_tokens overlap_tokens =
    (imap (record_of doc_id) (labelled_windows markdown target_tokens overlap_tokens),
     length (labelled_windows markdown target_tokens overlap_tokens)).
Proof.
  unfold generate_chunks_jsonl. rewrite rewindow_whole_idle.
  rewrite write_sections_closed. reflexivity.
Qed.

End WriterMore.

Lemma decimal_inj i j : decimal i = decimal j -> i = j.
Proof.
  unfold decimal, str. intros H.
  apply (f_equal string_of_list_ascii) in H.
  rewrite !string_of_list_ascii_of_string in H.
  apply (f_equal NilEmpty.uint_of_string) in H.
  rewrite !NilEmpty.usu in H.
  apply DecimalNat.Unsigned.to_uint_inj. congruence.
Qed.

Lemma re_split_loop_run m : forall b piece,
  Forall (fun c => is_nl c = false) m ->
  re_split_loop (m ++ b) 0 piece = re_split_loop b 0 (piece ++ m).
Proof.
  induction m as [|c m IH]; intros b piece Hm; simpl.
  - now rewrite app_nil_r.
  - inversion Hm as [|? ? Hc Hm']; subst. rewrite Hc, (IH _ _ Hm'), <- app_assoc.
    reflexivity.
Qed.

Lemma re_split_loop_first s : forall piece,
  exists u rest, re_split_loop s 0 piece = (piece ++ u) :: rest.
Proof.
  induction s as [|c s IH]; intros piece; simpl.
  - exists [], []. now rewrite app_nil_r.
  - assert (Hgo : exists u rest,
               re_split_loop s 0 (piece ++ [c]) = (piece ++ u) :: rest).
    { destruct (IH (piece ++ [c])) as (u & rest & E).
      exists (c :: u), rest. now rewrite E, <- app_assoc. }
    destruct (is_nl c); [|exact Hgo].
    destruct (sep_rest s); [|exact Hgo].
    exists [], (re_split_loop s n []). now rewrite app_nil_r.
Qed.

(** A run of characters without a newline that starts with ink lies within
    one paragraph. *)
Lemma re_split_loop_holds_run a : forall s skip piece m b c r,
  s = a ++ m ++ b -> (skip <= length a)%nat ->
  Forall (fun c => is_nl c = false) m ->
  m = c :: r -> is_space c = false ->
  exists p, In p (re_split_loop s skip piece) /\ segment m p.
Proof.
  induction a as [|x a IH]; intros s skip piece m b c r -> Hskip Hm Em Hc.
  - destruct skip; [|simpl in Hskip; lia]. simpl app.
    rewrite (re_split_loop_run m b piece Hm).
    destruct (re_split_loop_first b (piece ++ m)) as (u & rest & ->).
    exists ((piece ++ m) ++ u). split; [now left|].
    exists piece, u. now rewrite <- !app_assoc.
  - simpl app. destruct skip as [|k]; simpl re_split_loop.
    + assert (Hgo : exists p,
                 In p (re_split_loop (a ++ m ++ b) 0 (piece ++ [x])) /\ segment m p).
      { apply (IH _ 0%nat _ m b c r); auto. lia. }
      destruct (is_nl x); [|exact Hgo].
      destruct (sep_rest (a ++ m ++ b)) as [n|] eqn:Hsep; [|exact Hgo].
      assert (Hn : (n <= length a)%nat).
      { apply sep_rest_spaces in Hsep.
        destruct (Nat.le_gt_cases n (length a)) as [Hle | Hgt]; [exact Hle|].
        rewrite firstn_app, forallb_app in Hsep.
        apply andb_true_iff in Hsep as [_ Hsep].
        rewrite Em in Hsep.
        destruct (n - length a)%nat as [|j] eqn:Ej; [lia|].
        simpl in Hsep. rewrite Hc in Hsep. discriminate. }
      destruct (IH (a ++ m ++ b) n [] m b c r eq_refl Hn Hm Em Hc) as (p & Hp & Hs).
      exists p. split; [now right | exact Hs].
    + apply (IH _ k _ m b c r); auto. simpl in Hskip. lia.
Qed.

Lemma split_paragraphs_holds_run t m c r :
  segment m t -> Forall (fun c => is_nl c = false) m ->
  m = c :: r -> is_space c = false ->
  exists p, In p (split_paragraphs t) /\ segment m p.
Proof.
  intros (a & b & ->) Hm Em Hc.
  apply (re_split_loop_holds_run a _ 0%nat [] m b c r); auto. lia.
Qed.

(** X8.  The records written for a document are its windows, section by
    section and in order: the i-th record has the id [doc_id_i], the i-th
    window as its text, unchanged, the given [doc_id] and the label of the
    window's section; the returned count is their number.  The writer's own
    guards and its second pass over the whole document never change this. *)
Theorem chunk_writer_records
    (markdown doc_id : text) (target_tokens overlap_tokens : Z) :
  generate_chunks_jsonl (Some markdown) doc_id target_tokens overlap_tokens =
    (imap (record_of doc_id) (labelled_windows markdown target_tokens overlap_tokens),
     length (labelled_windows markdown target_tokens overlap_tokens)).
Proof. apply generate_closed. Qed.

(** X9.  The ids of the records written for a document are pairwise
    distinct. *)
Theorem chunk_ids_are_distinct
    (document : option text) (doc_id : text) (target_tokens overlap_tokens : Z) :
  List.NoDup (map chunk_id
    (fst (generate_chunks_jsonl document doc_id target_tokens overlap_tokens))).
Proof.
  destruct document as [markdown|]; [|constructor].
  rewrite generate_closed. cbn [fst].
  apply NoDup_ListNoDup, NoDup_alt. intros i j x Hi Hj.
  rewrite list_lookup_fmap, list_lookup_imap in Hi, Hj.
  destruct (labelled_windows _ _ _ !! i) as [lwi|]; [|discriminate].
  destruct (labelled_windows _ _ _ !! j) as [lwj|]; [|discriminate].
  simpl in Hi, Hj. rewrite <- Hj in Hi. injection Hi as Hi.
  apply app_inv_head in Hi. injection Hi as Hi. now apply decimal_inj.
Qed.

(** X10.  The chunk writer writes nothing and returns 0 exactly when the
    document is missing or blank. *)
Theorem chunk_writer_zero_iff_blank
    (document : option text) (doc_id : text) (target_tokens overlap_tokens : Z) :
  generate_chunks_jsonl document doc_id target_tokens overlap_tokens = ([], 0%nat)
  <-> (forall markdown, document = Some markdown -> has_ink markdown = false).
Proof.
  destruct document as [markdown|]; [|split; [discriminate | reflexivity]].
  split.
  - intros Hgen md [= <-]. destruct (has_ink markdown) eqn:Hink; [|reflexivity].
    pose proof (write_sections_count doc_id target_tokens overlap_tokens
                  (iter_sections markdown) ([], 0%nat)) as Hc.
    assert (Hall : List.Forall (fun s => inked (snd s)) (iter_sections markdown)).
    { apply List.Forall_forall. intros s Hs. eapply iter_sections_inked, Hs. }
    specialize (Hc Hall).
    pose proof (iter_sections_nonempty markdown Hink) as Hne.
    unfold generate_chunks_jsonl in Hgen. rewrite rewindow_whole_idle in Hgen.
    rewrite Hgen in Hc. destruct (iter_sections markdown); [congruence|].
    cbn [length snd] in Hc. lia.
  - intros Hblank. specialize (Hblank markdown eq_refl).
    unfold generate_chunks_jsonl. rewrite rewindow_whole_idle.
    now rewrite (iter_sections_blank markdown Hblank).
Qed.

(** X11.  No non-blank line of a document is lost by the chunk writer: the
    content of every non-blank line, without its surrounding whitespace, is
    a run of characters of the text of some record written. *)
Theorem chunk_writer_keeps_every_line
    (markdown doc_id : text) (target_tokens overlap_tokens : Z) (line : text) :
  In line (split_lines markdown) -> inked line ->
  holds_content line
    (map chunk_text
       (fst (generate_chunks_jsonl (Some markdown) doc_id target_tokens overlap_tokens))).
Proof.
  intros Hin Hl.
  (* the section that holds the line *)
  destruct (iter_sections_cover_lines markdown line Hin Hl) as (txt & Htxt & Hseg).
  apply in_map_iff in Htxt as ([lab txt'] & <- & Hs). simpl in Hseg.
  (* the trimmed line has ink at both ends and no newline *)
  assert (Hne : truthy (strip line) = true) by now rewrite truthy_strip.
  destruct (strip line) as [|c r] eqn:E; [discriminate|].
  assert (Hr : rev (strip line) <> []).
  { rewrite E. simpl. intros H. now apply app_eq_nil in H as [_ H]. }
  destruct (rev (strip line)) as [|c' r'] eqn:E'; [congruence|].
  assert (Hc : is_space c = false) by now apply (strip_head line c r).
  assert (Hc' : is_space c' = false) by now apply (strip_last line c' r').
  assert (Hnl : Forall (fun c => is_nl c = false) (strip line)).
  { apply (segment_Forall _ _ line); [apply segment_strip|].
    pose proof (split_lines_no_nl markdown) as Hall.
    rewrite List.Forall_forall in Hall. now apply Hall. }
  rewrite E in Hnl, E'.
  (* the paragraph and the window that hold it *)
  destruct (split_paragraphs_holds_run txt' (c :: r) c r Hseg Hnl eq_refl Hc)
    as (p & Hp & Hmp).
  assert (Hpi : inked p).
  { apply (segment_ink (c :: r)); [exact Hmp|]. unfold inked. simpl. now rewrite Hc. }
  destruct (windows_cover_paragraphs txt' target_tokens overlap_tokens p Hp Hpi)
    as (w & Hw & Hpw).
  exists w. split.
  - rewrite generate_closed. cbn [fst].
    apply in_map_iff.
    assert (Hlw : In (lab, w) (labelled_windows markdown target_tokens overlap_tokens)).
    { unfold labelled_windows. apply in_flat_map. exists (lab, txt').
      split; [exact Hs|]. simpl. apply in_map_iff. now exists w. }
    apply list_elem_of_In, list_elem_of_lookup in Hlw as [i Hi].
    exists (record_of doc_id i (lab, w)). split; [reflexivity|].
    apply list_elem_of_In, list_elem_of_lookup. exists i.
    now rewrite list_lookup_imap, Hi.
  - rewrite E. apply (segment_trans _ (strip p)); [|exact Hpw].
    apply (segment_strip_core (c :: r) p c r c' r'); auto.
Qed.

Lemma chunk_writer_keeps_every_line_witness :
  holds_content (str "Second.")
    (map chunk_text
       (fst (generate_chunks_jsonl (Some intro_part2_markdown) (str "d1") 1000 120))).
Proof.
  apply (chunk_writer_keeps_every_line intro_part2_markdown (str "d1") 1000 120
           (str "Second.")).
  - vm_compute. do 6 right. now left.
  - reflexivity.
Defined.

(** * Further properties of the storage and the routes *)

Section Files.

Lemma list_ascii_app (s t : string) :
  list_ascii_of_string (s ++ t)%string
  = list_ascii_of_string s ++ list_ascii_of_string t.
Proof. induction s as [|c s IH]; simpl; [reflexivity | now rewrite IH]. Qed.

Lemma ends_with_app (s t : string) : ends_with (s ++ t)%string t = true.
Proof.
  unfold ends_with. rewrite list_ascii_app, rev_app_distr.
  apply starts_with_spec. eauto.
Qed.

Lemma is_metadata_name_own (prefix : string) :
  is_metadata_name (prefix ++ ".metadata.json")%string = true.
Proof. unfold is_metadata_name. now rewrite ends_with_app. Qed.

Lemma dir_of_mkdir job j w : dir_of j (mkdir_output job w) = dir_of j w.
Proof.
  unfold dir_of, mkdir_output. destruct (outputs w !! job) eqn:E; [reflexivity|].
  simpl. destruct (decide (j = job)) as [-> | Hne].
  - now rewrite lookup_insert_eq, E.
  - now rewrite lookup_insert_ne by congruence.
Qed.

Lemma dir_of_put_file job name c w :
  dir_of job (put_file job name c w) = write_file name c (dir_of job w).
Proof.
  unfold put_file. unfold dir_of at 1. simpl.
  now rewrite lookup_insert_eq, dir_of_mkdir.
Qed.

Lemma dir_of_put_file_ne job j name c w :
  j <> job -> dir_of j (put_file job name c w) = dir_of j w.
Proof.
  intros Hne. unfold put_file. unfold dir_of at 1. simpl.
  rewrite lookup_insert_ne by congruence. apply dir_of_mkdir.
Qed.

Lemma mkdir_output_present job w d :
  outputs w !! job = Some d -> mkdir_output job w = w.
Proof. intros E. unfold mkdir_output. now rewrite E. Qed.

Lemma put_file_present job name c w :
  exists d, outputs (put_file job name c w) !! job = Some d.
Proof. unfold put_file. simpl. rewrite lookup_insert_eq. eauto. Qed.

Lemma find_write_file name c d :
  is_metadata_name name = true ->
  (forall f, In f d -> is_metadata_name (fst f) = true -> fst f = name) ->
  List.find (fun f : string * content => is_metadata_name (fst f)) (write_file name c d)
  = Some (name, c).
Proof.
  intros Hname. induction d as [|[n c'] d IH]; intros Hown; simpl.
  - now rewrite Hname.
  - case_bool_decide as En; simpl.
    + now rewrite Hname.
    + destruct (is_metadata_name n) eqn:Hn.
      * exfalso. apply En. apply (Hown (n, c')); [now left | exact Hn].
      * apply IH. intros f Hf. apply Hown. now right.
Qed.

Lemma write_file_in name c d f :
  In f (write_file name c d) -> f = (name, c) \/ In f d.
Proof.
  induction d as [|[n c'] d IH]; simpl.
  - intros [<- | []]. now left.
  - case_bool_decide as En; simpl.
    + intros [<- | Hf]; [now left | right; now right].
    + intros [<- | Hf]; [right; now left|].
      destruct (IH Hf) as [-> | H]; [now left | right; now right].
Qed.

Lemma only_own_metadata_write prefix c d :
  only_own_metadata prefix d ->
  only_own_metadata prefix (write_file (prefix ++ ".metadata.json")%string c d).
Proof.
  intros Hown f Hf Hm. apply write_file_in in Hf as [-> | Hf]; [reflexivity|].
  now apply Hown.
Qed.

Lemma io_calm {A} (f : world -> A * world) w :
  faults w = [] -> io f w = (Ok (fst (f w)), snd (f w)).
Proof. intros H. unfold io. rewrite H. now destruct (f w). Qed.

Lemma dir_of_emit e j w : dir_of j (emit e w) = dir_of j w.
Proof. reflexivity. Qed.

Lemma read_metadata_calm job w :
  faults w = [] ->
  read_metadata job w =
    (Ok (match List.find (fun f : string * content => is_metadata_name (fst f)) (dir_of job w) with
         | Some (_, MetadataJson m) => Some m
         | _ => None
         end),
     mkdir_output job w).
Proof.
  intros H. unfold read_metadata. rewrite (io_calm _ _ H). simpl.
  now rewrite dir_of_mkdir.
Qed.

Lemma write_metadata_calm job m prefix w :
  faults w = [] ->
  write_metadata job m prefix w =
    (Ok tt, emit (EvWriteMetadata job (status m))
                 (put_file job (prefix ++ ".metadata.json") (MetadataJson m) w)).
Proof. intros H. unfold write_metadata. now rewrite (io_calm _ _ H). Qed.

End Files.

(** X12.  On a healthy file system a metadata record that has been written
    is the one read back, provided no other file of the job's directory has
    a metadata name; the write keeps that so, and leaves the directories of
    the other jobs as they are. *)
Theorem metadata_round_trip
    (job : string) (m : JobMetadata) (prefix : string) (w : world) :
  faults w = [] ->
  only_own_metadata prefix (dir_of job w) ->
  let w' := snd (write_metadata job m prefix w) in
  fst (write_metadata job m prefix w) = Ok tt
  /\ fst (read_metadata job w') = Ok (Some m)
  /\ only_own_metadata prefix (dir_of job w')
  /\ (forall other, other <> job -> dir_of other w' = dir_of other w).
Proof.
  intros Hcalm Hown w'. subst w'. rewrite (write_metadata_calm _ _ _ _ Hcalm).
  cbn [fst snd].
  assert (Hcalm' : faults (emit (EvWriteMetadata job (status m))
                     (put_file job (prefix ++ ".metadata.json") (MetadataJson m) w)) = []).
  { destruct (put_file_fields job (prefix ++ ".metadata.json")
                (MetadataJson m) w) as (_ & _ & _ & Hf).
    unfold emit, set_log. cbn [faults]. now rewrite Hf. }
  split; [reflexivity|]. split; [|split].
  - rewrite (read_metadata_calm _ _ Hcalm'). cbn [fst].
    rewrite dir_of_emit, dir_of_put_file.
    rewrite (find_write_file _ _ _ (is_metadata_name_own prefix) Hown).
    reflexivity.
  - rewrite dir_of_emit, dir_of_put_file. now apply only_own_metadata_write.
  - intros other Hne. rewrite dir_of_emit. now apply dir_of_put_file_ne.
Qed.

Lemma metadata_round_trip_witness :
  let w' := snd (write_metadata "job-1" extracting_record "report" (busy_world [])) in
  fst (write_metadata "job-1" extracting_record "report" (busy_world [])) = Ok tt
  /\ fst (read_metadata "job-1" w') = Ok (Some extracting_record)
  /\ only_own_metadata "report" (dir_of "job-1" w')
  /\ (forall other, other <> "job-1"%string ->
        dir_of other w' = dir_of other (busy_world [])).
Proof.
  apply (metadata_round_trip "job-1" extracting_record "report" (busy_world []));
    [reflexivity|].
  intros f Hf Hm. vm_compute in Hf.
  destruct Hf as [<- | [<- | []]]; [vm_compute in Hm; discriminate | reflexivity].
Defined.

Section JobView.

Import StorageMore.
Local Open Scope string_scope.

(** The file names [list_artifacts] keeps. *)
Local Abbreviation listed_of d :=
  (List.filter
     (fun name => negb (bool_decide (name = PROGRESS_FILENAME)
                        || bool_decide (name = PROCESSING_REQUEST_FILENAME)))
     (map fst d)).

Local Abbreviation written_of d :=
  (match List.find (fun f : string * content => is_metadata_name (fst f)) d with
   | Some (_, MetadataJson m) => Some m
   | _ => None
   end).

Local Abbreviation upload_of w job :=
  (match uploads w !! job with
   | Some (name :: _) => Some name
   | _ => None
   end).

Local Abbreviation found_of d :=
  (existsb (fun f : string * content => ends_with (fst f) ".document.md"
                            || ends_with (fst f) ".document_structured.json") d).

Lemma mkdir_calm job w : faults w = [] -> faults (mkdir_output job w) = [].
Proof.
  intros H. destruct (mkdir_output_fields job w) as (_ & _ & _ & Hf).
  now rewrite Hf.
Qed.

Lemma uploads_mkdir job w : uploads (mkdir_output job w) = uploads w.
Proof. unfold mkdir_output. now destruct (outputs w !! job). Qed.

Lemma get_artifact_prefix_calm job w :
  faults w = [] ->
  get_artifact_prefix job w =
    (Ok (match upload_of w job with
         | None => "document"
         | Some name => prefix_of name
         end), w).
Proof.
  intros H. unfold get_artifact_prefix, bind, get_uploaded_file_path.
  now rewrite (io_calm _ _ H).
Qed.

(** What [get_job] computes on a healthy file system. *)
Lemma get_job_calm job w :
  faults w = [] ->
  let d := dir_of job w in
  let written := written_of d in
  let listed := listed_of d in
  let up := upload_of w job in
  let prefix := match up with None => "document" | Some name => prefix_of name end in
  let shown :=
    if (found_of d && RoutesJob.not_terminal written)%bool then
      Metadata job (match written with
                    | Some m => filename m
                    | None => RoutesJob.upload_name up
                    end)
               "completed" (Some prefix) listed
               (match written with Some m => stats m | None => [] end) None None
    else match written with
         | Some m => m
         | None => Metadata job (RoutesJob.upload_name up) "uploaded" (Some prefix)
                            listed [] None None
         end in
  RoutesJob.get_job job w =
    (if (negb (bool_decide (is_Some written)) && negb (truthy listed)
         && negb (bool_decide (is_Some up)))%bool
     then Raise (HTTPException 404)
     else Ok (RoutesJob.Response shown
                (if bool_decide (status shown = "extracting") then [] else listed)),
     mkdir_output job w).
Proof.
  intros H d written listed up prefix shown.
  pose proof (mkdir_calm job w H) as H1.
  unfold RoutesJob.get_job, bind. rewrite (read_metadata_calm job w H).
  unfold list_artifacts. rewrite (io_calm _ _ H1). cbn [fst snd].
  unfold get_uploaded_file_path at 1. rewrite (io_calm _ _ H1). cbn [fst snd].
  rewrite dir_of_mkdir, uploads_mkdir. fold d written listed up.
  destruct (negb (bool_decide (is_Some written)) && negb (truthy listed)
            && negb (bool_decide (is_Some up)))%bool; [reflexivity|].
  unfold has_document_file. rewrite (io_calm _ _ H1). cbn [fst snd].
  rewrite dir_of_mkdir. fold d.
  subst shown.
  destruct (found_of d && RoutesJob.not_terminal written)%bool.
  - cbv beta. rewrite (get_artifact_prefix_calm _ _ H1). rewrite uploads_mkdir.
    reflexivity.
  - unfold ret at 1. destruct written as [m|]; [reflexivity|].
    cbv beta. rewrite (get_artifact_prefix_calm _ _ H1). rewrite uploads_mkdir.
    reflexivity.
Qed.

End JobView.

Section JobAnswers.

Local Open Scope string_scope.

Lemma absent_iff {A} (o : option A) :
  negb (bool_decide (is_Some o)) = true <-> o = None.
Proof.
  destruct o as [a|]; split; intros H; try discriminate; reflexivity.
Qed.

Lemma not_found_iff {A B C} (o : option A) (l : list B) (u : option C) :
  (negb (bool_decide (is_Some o)) && negb (truthy l)
   && negb (bool_decide (is_Some u)))%bool = true
  <-> o = None /\ l = [] /\ u = None.
Proof.
  rewrite !andb_true_iff, !absent_iff, negb_true_iff, truthy_nil. tauto.
Qed.

Lemma list_artifacts_calm job w :
  faults w = [] ->
  list_artifacts job w =
    (Ok (List.filter
           (fun name => negb (bool_decide (name = PROGRESS_FILENAME)
                              || bool_decide (name = PROCESSING_REQUEST_FILENAME)))
           (map fst (dir_of job w))), w).
Proof. intros H. unfold list_artifacts. now rewrite (io_calm _ _ H). Qed.

Lemma get_uploaded_file_path_calm job w :
  faults w = [] ->
  get_uploaded_file_path job w =
    (Ok (match uploads w !! job with
         | Some (name :: _) => Some name
         | _ => None
         end), w).
Proof. intros H. unfold get_uploaded_file_path. now rewrite (io_calm _ _ H). Qed.

Lemma has_document_file_calm job w :
  faults w = [] ->
  has_document_file job w =
    (Ok (existsb (fun f : string * content =>
                    ends_with (fst f) ".document.md"
                    || ends_with (fst f) ".document_structured.json")
                 (dir_of job w)), w).
Proof. intros H. unfold has_document_file. now rewrite (io_calm _ _ H). Qed.

Lemma mkdir_output_lookup job w :
  outputs (mkdir_output job w) !! job = Some (dir_of job w).
Proof.
  unfold mkdir_output, dir_of. destruct (outputs w !! job) eqn:E; simpl.
  - now rewrite E.
  - now rewrite lookup_insert_eq.
Qed.

End JobAnswers.

(** X13.  On a healthy file system [get_job] answers 404 exactly when the
    job has no readable metadata record, no artifact and no upload, and
    returns a response otherwise; either way the job's output directory
    exists afterwards -- it is created by the lookup when it was missing. *)
Theorem get_job_not_found_iff (job : string) (w : world) :
  faults w = [] ->
  let r := RoutesJob.get_job job w in
  (fst r = Raise (HTTPException 404)
   <-> fst (read_metadata job w) = Ok None
       /\ fst (list_artifacts job w) = Ok []
       /\ fst (get_uploaded_file_path job w) = Ok None)
  /\ (fst r <> Raise (HTTPException 404) -> exists resp, fst r = Ok resp)
  /\ outputs (snd r) !! job = Some (dir_of job w).
Proof.
  intros H r. subst r.
  pose proof (get_job_calm job w H) as E. cbv zeta in E. rewrite E. clear E.
  rewrite (read_metadata_calm _ _ H), (list_artifacts_calm _ _ H),
    (get_uploaded_file_path_calm _ _ H).
  cbn [fst snd].
  match goal with
  | |- context [if ?c then Raise (HTTPException 404) else Ok ?resp] =>
      pose proof (not_found_iff
                    (match List.find (fun f : string * content => is_metadata_name (fst f))
                                     (dir_of job w) with
                     | Some (_, MetadataJson m) => Some m
                     | _ => None
                     end)
                    (List.filter
                       (fun name => negb (bool_decide (name = PROGRESS_FILENAME)
                                          || bool_decide (name = PROCESSING_REQUEST_FILENAME)))
                       (map fst (dir_of job w)))
                    (match uploads w !! job with
                     | Some (name :: _) => Some name
                     | _ => None
                     end)) as Hiff;
      destruct c eqn:Hc
  end.
  - split; [|split].
    + split; [intros _|reflexivity].
      destruct (proj1 Hiff eq_refl) as (-> & -> & ->). auto.
    + congruence.
    + apply mkdir_output_lookup.
  - split; [|split].
    + split; [discriminate|]. intros (H1 & H2 & H3).
      enough (false = true) by discriminate. apply Hiff.
      repeat split; congruence.
    + eauto.
    + apply mkdir_output_lookup.
Qed.

Section ReadsOnly.

Lemma same_contents_refl w : same_contents w w.
Proof. repeat split. Qed.

Lemma same_contents_trans w1 w2 w3 :
  same_contents w1 w2 -> same_contents w2 w3 -> same_contents w1 w3.
Proof.
  intros (A1 & A2 & A3 & A4 & A5) (B1 & B2 & B3 & B4 & B5).
  do 4 (split; [congruence|]). intros job. now rewrite B5, A5.
Qed.

Lemma same_contents_oracle w oracle : same_contents w (set_faults oracle w).
Proof. repeat split. Qed.

Lemma same_contents_mkdir job w : same_contents w (mkdir_output job w).
Proof.
  destruct (mkdir_output_fields job w) as (H1 & H2 & H3 & _).
  repeat split; try assumption; [apply uploads_mkdir|].
  intros j. apply dir_of_mkdir.
Qed.

Lemma reads_only_io {A} (f : world -> A * world) :
  (forall w, snd (f w) = w) -> moves_by same_contents (io f).
Proof.
  intros Hf. apply moves_io; [apply same_contents_trans | apply same_contents_oracle|].
  intros w. rewrite Hf. apply same_contents_refl.
Qed.

Lemma reads_only_upload_lookup job : moves_by same_contents (get_uploaded_file_path job).
Proof. now apply reads_only_io. Qed.

Lemma reads_only_prefix job : moves_by same_contents (StorageMore.get_artifact_prefix job).
Proof.
  apply moves_bind; [apply same_contents_trans | apply reads_only_upload_lookup|].
  intros p. apply moves_ret, same_contents_refl.
Qed.

Lemma reads_only_get_job job : moves_by same_contents (RoutesJob.get_job job).
Proof.
  unfold RoutesJob.get_job.
  apply moves_bind; [apply same_contents_trans | |intros written].
  { apply moves_io; [apply same_contents_trans | apply same_contents_oracle|].
    intros w. apply same_contents_mkdir. }
  apply moves_bind; [apply same_contents_trans | now apply reads_only_io |intros listed].
  apply moves_bind; [apply same_contents_trans | apply reads_only_upload_lookup |intros up].
  destruct (_ && _)%bool; [apply moves_raise, same_contents_refl|].
  apply moves_bind; [apply same_contents_trans | now apply reads_only_io |intros found].
  apply moves_bind; [apply same_contents_trans | |intros reconciled].
  { destruct (_ && _)%bool; [|apply moves_ret, same_contents_refl].
    apply moves_bind; [apply same_contents_trans | apply reads_only_prefix|].
    intros prefix. apply moves_ret, same_contents_refl. }
  apply moves_bind; [apply same_contents_trans | |intros shown].
  { destruct reconciled; [apply moves_ret, same_contents_refl|].
    apply moves_bind; [apply same_contents_trans | apply reads_only_prefix|].
    intros prefix. apply moves_ret, same_contents_refl. }
  apply moves_ret, same_contents_refl.
Qed.

End ReadsOnly.

(** X14.  [get_job] only reads: whatever the file system does, the guard,
    the supervisors, the log, the uploads and the contents of every output
    directory are afterwards what they were. *)
Theorem get_job_changes_nothing (job : string) (w : world) :
  same_contents w (snd (RoutesJob.get_job job w)).
Proof. apply reads_only_get_job. Qed.

Section Reconciled.

Local Open Scope string_scope.

Lemma not_terminal_false m :
  RoutesJob.not_terminal (Some m) = false -> terminal (status m).
Proof.
  unfold RoutesJob.not_terminal, terminal. intros H.
  apply negb_false_iff, orb_true_iff in H as [H | H];
    apply bool_decide_eq_true in H; auto.
Qed.

Lemma not_terminal_of_terminal m :
  terminal (status m) -> RoutesJob.not_terminal (Some m) = false.
Proof.
  unfold RoutesJob.not_terminal, terminal. intros [H | H]; rewrite H; reflexivity.
Qed.

End Reconciled.

(** X15.  What a poller sees on a healthy file system.  Once a document
    file is in the output directory the status reported is "completed" or
    "failed", whatever record is stored.  A stored record is reported as it
    is when it is finished or when no document file is there yet; without a
    record and without a document file the job is "uploaded".  While the
    status reported is "extracting" no artifact is listed; otherwise the
    artifacts are those of [list_artifacts]. *)
Theorem get_job_reports_finished_output
    (job : string) (w : world) (resp : RoutesJob.JobResponse) :
  faults w = [] ->
  fst (RoutesJob.get_job job w) = Ok resp ->
  let shown := RoutesJob.metadata resp in
  (fst (has_document_file job w) = Ok true -> terminal (status shown))
  /\ (forall m, fst (read_metadata job w) = Ok (Some m) ->
        terminal (status m) \/ fst (has_document_file job w) = Ok false ->
        shown = m)
  /\ (fst (read_metadata job w) = Ok None ->
      fst (has_document_file job w) = Ok false ->
      status shown = "uploaded"%string)
  /\ (status shown = "extracting"%string -> RoutesJob.artifacts resp = [])
  /\ (status shown <> "extracting"%string ->
      fst (list_artifacts job w) = Ok (RoutesJob.artifacts resp)).
Proof.
  intros H Hr shown.
  pose proof (get_job_calm job w H) as E. cbv zeta in E. rewrite E in Hr. clear E.
  rewrite (has_document_file_calm _ _ H), (read_metadata_calm _ _ H),
    (list_artifacts_calm _ _ H).
  cbn [fst] in *.
  match type of Hr with context [List.find ?f (dir_of job w)] =>
    set (fnd := List.find f (dir_of job w)) in * end.
  match type of Hr with context [existsb ?f (dir_of job w)] =>
    set (found := existsb f (dir_of job w)) in * end.
  match type of Hr with context [List.filter ?f (map fst (dir_of job w))] =>
    set (listed := List.filter f (map fst (dir_of job w))) in * end.
  set (up := match uploads w !! job with Some (name :: _) => Some name | _ => None end) in *.
  clearbody fnd found listed up.
  destruct (_ && _ && _)%bool in Hr; [discriminate|].
  injection Hr as <-. subst shown. cbn [RoutesJob.metadata RoutesJob.artifacts].
  set (written := match fnd with Some (_, MetadataJson m) => Some m | _ => None end) in *.
  clearbody written. clear fnd.
  split; [|split; [|split; [|split]]].
  - intros [= ->]. simpl.
    destruct (RoutesJob.not_terminal written) eqn:Hnt; [left; reflexivity|].
    destruct written as [m|]; [|discriminate]. now apply not_terminal_false.
  - intros m [= ->] Hcase.
    destruct Hcase as [Hterm | [= ->]]; [|reflexivity].
    rewrite (not_terminal_of_terminal m Hterm), andb_false_r. reflexivity.
  - intros [= ->] [= ->]. reflexivity.
  - intros Hs. now rewrite Hs.
  - intros Hs. case_bool_decide; [contradiction | reflexivity].
Qed.

Section SupervisorRecords.

Local Open Scope string_scope.

Variables (env : environment) (job input_name prefix : string).

Lemma worker_done_calm w : faults w = [] -> faults (worker_done env job w) = [].
Proof. intros H. exact H. Qed.

Lemma dir_of_worker_done w :
  dir_of job (worker_done env job w) = worker_files env (dir_of job w).
Proof. unfold worker_done, dir_of at 1. simpl. now rewrite lookup_insert_eq. Qed.

Lemma worker_done_present w :
  mkdir_output job (worker_done env job w) = worker_done env job w.
Proof.
  apply (mkdir_output_present _ _ (worker_files env (dir_of job w))).
  unfold worker_done. simpl. now rewrite lookup_insert_eq.
Qed.

Lemma after_worker_returned_kept exit_code w n m :
  faults w = [] ->
  mkdir_output job w = w ->
  List.find (fun f : string * content => is_metadata_name (fst f)) (dir_of job w)
    = Some (n, MetadataJson m) ->
  after_worker_returned job input_name prefix exit_code w
  = (Ok tt, emit (EvRelease job) (set_extracting (extracting w ∖ {[job]}) w)).
Proof.
  intros H Hdir Hfind. unfold after_worker_returned, bind.
  rewrite (list_artifacts_calm _ _ H), (read_metadata_calm _ _ H), Hdir, Hfind.
  rewrite (has_document_file_calm _ _ H).
  rewrite orb_true_r. reflexivity.
Qed.

End SupervisorRecords.

(** X16.  When the call of the worker returns -- with whatever exit code --
    and a metadata record lies in the output directory, the supervisor
    writes nothing: on a healthy file system it only releases the guard,
    and the record read afterwards is the one the worker left.  A worker
    that exits without touching the "extracting" record therefore leaves the
    job "extracting". *)
Theorem returned_worker_keeps_stored_record
    (env : environment) (job input_name prefix : string) (returncode : Z)
    (w : world) (n : string) (m : JobMetadata) :
  faults w = [] ->
  worker_ends env = Exited returncode ->
  List.find (fun f : string * content => is_metadata_name (fst f))
            (worker_files env (dir_of job w)) = Some (n, MetadataJson m) ->
  let r := _run_extraction_background env job input_name prefix w in
  fst r = Ok tt
  /\ dir_of job (snd r) = worker_files env (dir_of job w)
  /\ log (snd r) = log w ++ [EvWorker job; EvRelease job]
  /\ extracting (snd r) = extracting w ∖ {[job]}
  /\ fst (read_metadata job (snd r)) = Ok (Some m).
Proof.
  intros H Hend Hfind r. subst r.
  rewrite (run_when_worker_exits env job input_name prefix returncode w Hend).
  rewrite (after_worker_returned_kept job input_name prefix returncode
             (worker_done env job w) n m);
    [| exact H | apply worker_done_present | now rewrite dir_of_worker_done].
  cbn [fst snd].
  split; [reflexivity|]. split; [apply dir_of_worker_done|].
  split; [simpl; now rewrite <- app_assoc|]. split; [reflexivity|].
  rewrite read_metadata_calm by exact H. cbn [fst].
  replace (dir_of job _) with (worker_files env (dir_of job w))
    by (symmetry; apply dir_of_worker_done).
  now rewrite Hfind.
Qed.

Lemma returned_worker_keeps_stored_record_witness :
  let r := _run_extraction_background worker_exits_1 "job-1" "report.pdf" "report"
             (busy_world []) in
  fst r = Ok tt
  /\ dir_of "job-1" (snd r) = dir_of "job-1" (busy_world [])
  /\ log (snd r) = [EvWorker "job-1"; EvRelease "job-1"]
  /\ extracting (snd r) = extracting (busy_world []) ∖ {["job-1"%string]}
  /\ fst (read_metadata "job-1" (snd r)) = Ok (Some extracting_record).
Proof.
  apply (returned_worker_keeps_stored_record worker_exits_1 "job-1" "report.pdf"
           "report" 1 (busy_world []) "report.metadata.json" extracting_record);
    reflexivity.
Defined.

Section FailedWorker.

Local Open Scope string_scope.

Lemma not_metadata_name_md p : is_metadata_name (p ++ ".document.md") = false.
Proof.
  unfold is_metadata_name, ends_with. rewrite list_ascii_app, rev_app_distr.
  simpl. apply bool_decide_eq_false. intros E.
  apply (f_equal (fun x => ends_with x ".document.md")) in E.
  rewrite ends_with_app in E. vm_compute in E. discriminate.
Qed.

Lemma not_metadata_name_json p :
  is_metadata_name (p ++ ".document_structured.json") = false.
Proof.
  unfold is_metadata_name, ends_with. rewrite list_ascii_app, rev_app_distr.
  simpl. apply bool_decide_eq_false. intros E.
  apply (f_equal (fun x => ends_with x ".document_structured.json")) in E.
  rewrite ends_with_app in E. vm_compute in E. discriminate.
Qed.

Lemma only_own_metadata_other prefix name c d :
  is_metadata_name name = false ->
  only_own_metadata prefix d -> only_own_metadata prefix (write_file name c d).
Proof.
  intros Hname Hown f Hf Hm. apply write_file_in in Hf as [-> | Hf].
  - simpl in Hm. congruence.
  - now apply Hown.
Qed.

Lemma put_file_calm job name c w : faults w = [] -> faults (put_file job name c w) = [].
Proof.
  intros H. destruct (put_file_fields job name c w) as (_ & _ & _ & Hf).
  now rewrite Hf.
Qed.

Variables (env : environment) (job input_name prefix : string).

(** The world after the placeholder extraction has been tried. *)
Lemma fallback_result w :
  exists w2,
    try_placeholder_fallback env job prefix w = (Ok (fallback_writes env), w2)
    /\ (faults w = [] -> faults w2 = [])
    /\ extracting w2 = extracting w
    /\ (only_own_metadata prefix (dir_of job w) ->
        only_own_metadata prefix (dir_of job w2)).
Proof.
  unfold try_placeholder_fallback. destruct (fallback_writes env).
  - eexists. split; [reflexivity|]. split; [|split].
    + intros H. now do 2 apply put_file_calm.
    + destruct (put_file_fields job
                  ((if bool_decide (prefix = "") then "document" else prefix)
                   ++ ".document_structured.json") Other
                  (put_file job
                     ((if bool_decide (prefix = "") then "document" else prefix)
                      ++ ".document.md") Other (emit (EvFallback job) w)))
        as (-> & _).
      destruct (put_file_fields job
                  ((if bool_decide (prefix = "") then "document" else prefix)
                   ++ ".document.md") Other (emit (EvFallback job) w))
        as (-> & _).
      reflexivity.
    + intros Hown. rewrite !dir_of_put_file, dir_of_emit.
      apply only_own_metadata_other; [apply not_metadata_name_json|].
      apply only_own_metadata_other; [apply not_metadata_name_md | exact Hown].
  - eexists. split; [reflexivity|]. split; [|split]; auto.
Qed.

Lemma after_failed_worker_record error_text w :
  faults w = [] ->
  only_own_metadata prefix (dir_of job w) ->
  let r := after_failed_worker env job input_name prefix error_text w in
  fst r = Ok tt
  /\ (exists listed,
        fst (read_metadata job (snd r)) =
          Ok (Some (if fallback_writes env
                    then Metadata job input_name "completed" (Some prefix) listed
                                  fallback_stats None None
                    else Metadata job input_name "failed" (Some prefix) listed
                                  [] (Some error_text) None)))
  /\ extracting (snd r) = extracting w ∖ {[job]}.
Proof.
  intros H Hown r. subst r. unfold after_failed_worker, bind.
  destruct (fallback_result w) as (w2 & -> & Hcalm & Hguard & Hown2).
  specialize (Hcalm H). specialize (Hown2 Hown).
  assert (Hfinal : forall m : JobMetadata,
    let wf := snd (release job (snd (write_metadata job m prefix w2))) in
    fst (read_metadata job wf) = Ok (Some m)
    /\ extracting wf = extracting w ∖ {[job]}).
  { intros m. rewrite (write_metadata_calm _ _ _ _ Hcalm). cbn [snd release].
    split.
    - rewrite read_metadata_calm
        by (cbn [faults emit set_log set_extracting]; now apply put_file_calm).
      cbn [fst].
      change (dir_of job (emit _ (set_extracting _ (emit _ ?x)))) with (dir_of job x).
      rewrite dir_of_put_file.
      now rewrite (find_write_file _ _ _ (is_metadata_name_own prefix) Hown2).
    - cbn [extracting emit set_log set_extracting].
      destruct (put_file_fields job (prefix ++ ".metadata.json") (MetadataJson m) w2)
        as (-> & _).
      now rewrite Hguard. }
  destruct (fallback_writes env);
    rewrite (list_artifacts_calm _ _ Hcalm);
    rewrite (write_metadata_calm _ _ _ _ Hcalm).
  - split; [reflexivity|].
    match goal with |- context [Metadata job input_name "completed" _ ?l _ _ _] =>
      destruct (Hfinal (Metadata job input_name "completed" (Some prefix) l
                                 fallback_stats None None)) as [Hr Hg];
      rewrite (write_metadata_calm _ _ _ _ Hcalm) in Hr, Hg;
      split; [exists l; exact Hr | exact Hg]
    end.
  - split; [reflexivity|].
    match goal with |- context [Metadata job input_name "failed" _ ?l _ _ _] =>
      destruct (Hfinal (Metadata job input_name "failed" (Some prefix) l
                                 [] (Some error_text) None)) as [Hr Hg];
      rewrite (write_metadata_calm _ _ _ _ Hcalm) in Hr, Hg;
      split; [exists l; exact Hr | exact Hg]
    end.
Qed.

End FailedWorker.

(** X17.  When the call of the worker times out or raises, on a healthy
    file system, the supervisor ends with a finished record that reads back
    as written, provided no other file of the directory has a metadata name:
    "completed" with the fallback statistics when the placeholder extraction
    wrote its document, "failed" with the error text otherwise -- "Extraction
    timed out" after a timeout, the text of the exception else.  The job is
    out of the guard. *)
Theorem failed_worker_final_record
    (env : environment) (job input_name prefix : string) (w : world) :
  faults w = [] ->
  (forall returncode, worker_ends env <> Exited returncode) ->
  only_own_metadata prefix (worker_files env (dir_of job w)) ->
  let r := _run_extraction_background env job input_name prefix w in
  fst r = Ok tt
  /\ (exists listed,
        fst (read_metadata job (snd r)) =
          Ok (Some (if fallback_writes env
                    then Metadata job input_name "completed" (Some prefix) listed
                                  fallback_stats None None
                    else Metadata job input_name "failed" (Some prefix) listed
                                  [] (Some (failure_text (worker_ends env))) None)))
  /\ job ∉ extracting (snd r).
Proof.
  intros H Hfail Hown r.
  assert (Hrun : r = after_failed_worker env job input_name prefix
                       (failure_text (worker_ends env)) (worker_done env job w)).
  { subst r. unfold _run_extraction_background, try_except, _run_extract_subprocess.
    destruct (worker_ends env) as [c| |msg]; [now destruct (Hfail c) | reflexivity..]. }
  rewrite Hrun.
  destruct (after_failed_worker_record env job input_name prefix
              (failure_text (worker_ends env)) (worker_done env job w))
    as (Hok & Hrec & Hguard).
  - exact H.
  - now rewrite dir_of_worker_done.
  - split; [exact Hok|]. split; [exact Hrec|]. rewrite Hguard.
    intros Hin. apply elem_of_difference in Hin as [_ Hn].
    apply Hn, elem_of_singleton. reflexivity.
Qed.

Lemma failed_worker_final_record_witness :
  let r := _run_extraction_background worker_times_out "job-1" "report.pdf" "report"
             (busy_world []) in
  fst r = Ok tt
  /\ (exists listed,
        fst (read_metadata "job-1" (snd r)) =
          Ok (Some (Metadata "job-1" "report.pdf" "failed" (Some "report") listed
                             [] (Some "Extraction timed out") None)))
  /\ "job-1"%string ∉ extracting (snd r).
Proof.
  apply (failed_worker_final_record worker_times_out "job-1" "report.pdf" "report"
           (busy_world [])).
  - reflexivity.
  - discriminate.
  - intros f Hf Hm. vm_compute in Hf.
    destruct Hf as [<- | [<- | []]]; [vm_compute in Hm; discriminate | reflexivity].
Defined.

Section Leaks.

Lemma leaked_step job w w' : step w w' -> leaked job w -> leaked job w'.
Proof.
  intros Hstep [Hin Hno].
  destruct Hstep as [job' body oracle w | job' env input_name prefix oracle w Hrun | o u w].
  - pose proof (extract_job_guard job' body (set_faults oracle w)) as H.
    simpl in H. destruct H as [[HT HG] | (Hout & HT & HG)].
    + split; [|now rewrite HT].
      destruct HG as [-> | ->]; [exact Hin | now apply elem_of_union_r].
    + split; [rewrite HG; now apply elem_of_union_r|].
      rewrite HT. intros Hj. apply in_app_iff in Hj as [Hj | [<- | []]];
        [now apply Hno | now apply Hout].
  - assert (Hne : job <> job') by (intros ->; contradiction).
    assert (Hsup : guard_after_supervisor job' (set_faults oracle w)
                     (snd (_run_extraction_background env job' input_name prefix
                             (set_faults oracle w)))).
    { apply moves_supervisor.
      - apply guard_after_supervisor_refl.
      - apply guard_after_supervisor_trans.
      - apply guard_after_supervisor_blind.
      - intros e w0 _. split; auto.
      - intros w0. split; auto. }
    destruct Hsup as [HT HG]. simpl in HT, HG. split.
    + simpl. destruct HG as [-> | ->]; [exact Hin|].
      apply elem_of_difference. split; [exact Hin|].
      intros Hj. apply elem_of_singleton in Hj. contradiction.
    + simpl. intros Hj. apply Hno. eapply remove_first_in, Hj.
  - split; assumption.
Qed.

Lemma leaked_steps job w w' : rtc step w w' -> leaked job w -> leaked job w'.
Proof. induction 1 as [|w w1 w2 Hs _ IH]; [auto|]. intros H. eapply IH, leaked_step; eauto. Qed.

End Leaks.

(** X18.  A job left in the guard by a supervisor that ended with an
    exception stays there for good.  In a state the service can reach, a
    supervisor run that raises leaves its job in the guard with no
    supervisor; from then on no step of the service -- request, supervisor
    of another job, change of files -- takes it out again, and every later
    request for this job starts nothing: it is answered "already in
    progress" or fails, and adds no supervisor and no event. *)
Theorem leaked_guard_entry_is_permanent (job : string) :
  (forall env input_name prefix oracle w e,
      reachable w -> In job (threads w) ->
      fst (_run_extraction_background env job input_name prefix (set_faults oracle w))
        = Raise e ->
      leaked job (after_supervisor env job input_name prefix oracle w))
  /\ (forall w w', leaked job w -> rtc step w w' ->
        leaked job w'
        /\ forall body,
             let r := extract_job job body w' in
             fst r <> Ok (Summary job true STARTED [])
             /\ threads (snd r) = threads w' /\ log (snd r) = log w'
             /\ extracting (snd r) = extracting w').
Proof.
  split.
  - intros env input_name prefix oracle w e Hreach Hin Hraise.
    destruct (one_attempt_reachable w Hreach) as [Hnd Hguard].
    pose proof (raises_supervisor env job input_name prefix
                  (set_faults oracle w) e Hraise) as [HG _].
    unfold leaked, after_supervisor. simpl. split.
    + rewrite HG. simpl. now apply Hguard.
    + now apply remove_first_NoDup.
  - intros w w' Hleak Hsteps.
    pose proof (leaked_steps job w w' Hsteps Hleak) as Hleak'.
    split; [exact Hleak'|]. intros body r. subst r.
    destruct Hleak' as [Hin _].
    destruct (extract_job_busy job body w' Hin) as [(HG & HT & HL & _) Hans].
    simpl in Hans. split; [|auto].
    destruct Hans as [-> | [-> | ->]]; discriminate.
Qed.

Lemma leaked_guard_entry_is_permanent_witness :
  let w := snd (extract_job "job-1" None idle_world) in
  let w1 := after_supervisor worker_times_out "job-1" "report.pdf" "report"
              [false; true] w in
  leaked "job-1" w1
  /\ forall body,
       fst (extract_job "job-1" body w1) <> Ok (Summary "job-1" true STARTED []).
Proof.
  intros w w1.
  destruct (leaked_guard_entry_is_permanent "job-1") as [Hleak Hstay].
  assert (H1 : leaked "job-1" w1).
  { apply (Hleak worker_times_out "report.pdf" "report" [false; true] w OSError)%string.
    - apply (reachable_step idle_world).
      + now apply reachable_start.
      + apply (step_request "job-1" None [] idle_world).
    - vm_compute. now left.
    - vm_compute. reflexivity. }
  split; [exact H1|]. intros body.
  destruct (Hstay w1 w1 H1 (rtc_refl _ _)) as [_ H2].
  apply (H2 body).
Defined.

(** X19.  A job whose supervisor ran to its end on a healthy file system
    can be extracted again: in a state the service can reach, after such a
    run the job is out of the guard and has no supervisor, and the next
    request for it, its upload being there, starts a new extraction. *)
Theorem finished_job_can_be_extracted_again
    (env : environment) (job input_name prefix : string) (w : world) :
  reachable w -> In job (threads w) ->
  let w1 := after_supervisor env job input_name prefix [] w in
  (job ∉ extracting w1)
  /\ ~ In job (threads w1)
  /\ forall body name others,
       uploads w1 !! job = Some (name :: others) ->
       let r := extract_job job body (set_faults [] w1) in
       fst r = Ok (Summary job true STARTED [])
       /\ job ∈ extracting (snd r)
       /\ In job (threads (snd r)).
Proof.
  intros Hreach Hin w1.
  destruct (one_attempt_reachable w Hreach) as [Hnd _].
  destruct (supervisor_releases_once_on_healthy_files env job input_name prefix
              (set_faults [] w) eq_refl) as [_ [Hguard _]].
  assert (Hout : job ∉ extracting w1).
  { subst w1. unfold after_supervisor. simpl. rewrite Hguard.
    intros Hj. apply elem_of_difference in Hj as [_ Hn].
    apply Hn, elem_of_singleton. reflexivity. }
  split; [exact Hout|]. split.
  { subst w1. unfold after_supervisor. simpl. now apply remove_first_NoDup. }
  intros body name others Hup r.
  destruct (extract_job_idle job body (set_faults [] w1) name others)
    as [Hans (_ & HG & HT & _)]; [exact Hout | exact Hup | reflexivity |].
  split; [exact Hans|]. split.
  - fold r in HG. rewrite HG. apply elem_of_union_l, elem_of_singleton. reflexivity.
  - fold r in HT. rewrite HT. apply in_app_iff. right. now left.
Qed.

Lemma finished_job_can_be_extracted_again_witness :
  let w := snd (extract_job "job-1" None idle_world) in
  let w1 := after_supervisor worker_exits_1 "job-1" "report.pdf" "report" [] w in
  ("job-1"%string ∉ extracting w1)
  /\ ~ In "job-1"%string (threads w1)
  /\ forall body name others,
       uploads w1 !! "job-1"%string = Some (name :: others) ->
       let r := extract_job "job-1" body (set_faults [] w1) in
       fst r = Ok (Summary "job-1" true STARTED [])
       /\ "job-1"%string ∈ extracting (snd r)
       /\ In "job-1"%string (threads (snd r)).
Proof.
  apply (finished_job_can_be_extracted_again worker_exits_1 "job-1" "report.pdf"
           "report" (snd (extract_job "job-1" None idle_world))).
  - apply (reachable_step idle_world).
    + now apply reachable_start.
    + apply (step_request "job-1" None [] idle_world).
  - vm_compute. now left.
Defined.

Lemma get_job_not_found_iff_witness :
  let r := RoutesJob.get_job "job-9" idle_world in
  (fst r = Raise (HTTPException 404)
   <-> fst (read_metadata "job-9" idle_world) = Ok None
       /\ fst (list_artifacts "job-9" idle_world) = Ok []
       /\ fst (get_uploaded_file_path "job-9" idle_world) = Ok None)
  /\ (fst r <> Raise (HTTPException 404) -> exists resp, fst r = Ok resp)
  /\ outputs (snd r) !! "job-9"%string = Some (dir_of "job-9" idle_world).
Proof. apply (get_job_not_found_iff "job-9" idle_world). reflexivity. Defined.

Lemma get_job_reports_finished_output_witness :
  let resp :=
    RoutesJob.Response
      (Metadata "job-1" "report.pdf" "completed" (Some "report")
                ["report.metadata.json"; "report.document.md"]%string [] None None)
      ["report.metadata.json"; "report.document.md"]%string in
  let shown := RoutesJob.metadata resp in
  (fst (has_document_file "job-1" converted_world) = Ok true -> terminal (status shown))
  /\ (forall m, fst (read_metadata "job-1" converted_world) = Ok (Some m) ->
        terminal (status m) \/ fst (has_document_file "job-1" converted_world) = Ok false ->
        shown = m)
  /\ (fst (read_metadata "job-1" converted_world) = Ok None ->
      fst (has_document_file "job-1" converted_world) = Ok false ->
      status shown = "uploaded"%string)
  /\ (status shown = "extracting"%string -> RoutesJob.artifacts resp = [])
  /\ (status shown <> "extracting"%string ->
      fst (list_artifacts "job-1" converted_world) = Ok (RoutesJob.artifacts resp)).
Proof.
  apply (get_job_reports_finished_output "job-1" converted_world); reflexivity.
Defined.

(** * Further properties of file names, artifacts and uploads *)

Section AcceptedNames.

Import UtilsMore.

Lemma split_on_no_sep (sep : ascii -> bool) s :
  Forall (Forall (fun c => sep c = false)) (split_on sep s).
Proof.
  induction s as [|c s IH]; simpl; [repeat constructor|].
  destruct (sep c) eqn:Hc; [constructor; [constructor | exact IH]|].
  destruct (split_on sep s) as [|l ls]; [repeat constructor; exact Hc|].
  inversion IH; subst. constructor; [constructor; assumption | assumption].
Qed.

Lemma last_in_or_default {A} (l : list A) d : List.last l d = d \/ In (List.last l d) l.
Proof.
  induction l as [|x l IH]; [now left|].
  destruct l as [|y l]; [right; now left|].
  destruct IH as [E | Hin]; [|right; now right].
  change (List.last (x :: y :: l) d) with (List.last (y :: l) d).
  right. right. destruct l as [|z l]; [now left|].
  (* the last of a non-empty list is in it *)
  clear E. revert y z. induction l as [|u l IHl]; intros y z.
  - right. now left.
  - change (List.last (y :: z :: u :: l) d) with (List.last (z :: u :: l) d).
    right. apply IHl.
Qed.

Lemma path_name_no_slash filename :
  Forall (fun c => is_slash c = false) (path_name filename).
Proof.
  unfold path_name.
  destruct (last_in_or_default
              (List.filter (fun x => truthy x && negb (bool_decide (x = str ".")))
                           (split_on is_slash filename)) []) as [-> | Hin];
    [constructor|].
  apply List.filter_In in Hin as [Hin _].
  pose proof (split_on_no_sep is_slash filename) as Hall.
  rewrite List.Forall_forall in Hall. now apply Hall.
Qed.

(** Stem and suffix split the name. *)
Lemma stem_suffix filename :
  path_stem filename ++ path_suffix filename = path_name filename.
Proof.
  unfold path_stem, path_suffix.
  destruct (rfind_dot (path_name filename)) as [i|]; [|apply app_nil_r].
  destruct (_ && _)%bool; [apply firstn_skipn | apply app_nil_r].
Qed.

Lemma suffix_stem_nonempty filename :
  path_suffix filename <> [] -> path_stem filename <> [].
Proof.
  unfold path_stem, path_suffix.
  destruct (rfind_dot (path_name filename)) as [i|]; [|congruence].
  destruct (Nat.ltb 0 i && Nat.ltb i (length (path_name filename) - 1))%bool eqn:E;
    [|congruence].
  intros _ Hnil. apply andb_true_iff in E as [E1 E2].
  apply Nat.ltb_lt in E1, E2.
  apply (f_equal (@length ascii)) in Hnil. rewrite length_firstn in Hnil.
  simpl in Hnil. lia.
Qed.

Lemma mem_In x l : mem x l = true <-> In x l.
Proof.
  unfold mem. rewrite existsb_exists. split.
  - intros (e & He & Hx). apply bool_decide_eq_true in Hx. now subst.
  - intros H. exists x. split; [exact H | now apply bool_decide_eq_true].
Qed.

Lemma allowed_suffix_nonempty filename :
  is_allowed_file filename = true -> path_suffix filename <> [].
Proof.
  unfold is_allowed_file. intros H E. rewrite E in H. vm_compute in H. discriminate.
Qed.

End AcceptedNames.

(** X20.  A file name that [is_allowed_file] accepts has a last component
    that is its stem followed by its suffix, with a non-empty stem, a suffix
    that is one of the allowed extensions up to the case of its letters, and
    no slash in it: what is accepted names a single entry of a directory. *)
Theorem accepted_name_has_stem_and_extension (filename : text) :
  UtilsMore.is_allowed_file filename = true ->
  path_name filename = path_stem filename ++ UtilsMore.path_suffix filename
  /\ path_stem filename <> []
  /\ In (UtilsMore.lower (UtilsMore.path_suffix filename)) UtilsMore.ALLOWED_EXTENSIONS
  /\ contains (str "/") (path_name filename) = false.
Proof.
  intros H. split; [symmetry; apply stem_suffix|]. split; [|split].
  - now apply suffix_stem_nonempty, allowed_suffix_nonempty.
  - now apply mem_In.
  - apply no_slash_contains, path_name_no_slash.
Qed.

Lemma accepted_name_has_stem_and_extension_witness :
  path_name (str "scans/Report.v2.PDF") = str "Report.v2" ++ str ".PDF"
  /\ str "Report.v2" <> []
  /\ In (str ".pdf") UtilsMore.ALLOWED_EXTENSIONS
  /\ contains (str "/") (path_name (str "scans/Report.v2.PDF")) = false.
Proof.
  apply (accepted_name_has_stem_and_extension (str "scans/Report.v2.PDF")).
  reflexivity.
Defined.

Section LetterCase.

Import UtilsMore.

Local Ltac by_cases c :=
  destruct c as [[|] [|] [|] [|] [|] [|] [|] [|]]; reflexivity.

Lemma lower_char_slash c : is_slash (lower_char c) = is_slash c.
Proof. by_cases c. Qed.

Lemma lower_char_dot c : is_dot (lower_char c) = is_dot c.
Proof. by_cases c. Qed.

Lemma lower_char_idem c : lower_char (lower_char c) = lower_char c.
Proof. by_cases c. Qed.

Lemma lower_idem s : lower (lower s) = lower s.
Proof.
  unfold lower. rewrite map_map. apply map_ext. intros c. apply lower_char_idem.
Qed.

Lemma is_dot_eq c : is_dot c = true <-> c = "."%char.
Proof.
  unfold is_dot, code. split; [|now intros ->].
  intros H. apply N.eqb_eq in H. rewrite <- (ascii_N_embedding c), H. reflexivity.
Qed.

Lemma lower_is_dot x : lower x = str "." <-> x = str ".".
Proof.
  split; [|now intros ->].
  destruct x as [|c [|d x]]; simpl; try discriminate.
  intros [= E]. f_equal.
  apply is_dot_eq. rewrite <- lower_char_dot, E. reflexivity.
Qed.

Lemma split_on_lower s :
  split_on is_slash (lower s) = map lower (split_on is_slash s).
Proof.
  induction s as [|c s IH]; [reflexivity|].
  simpl. rewrite lower_char_slash, IH.
  destruct (is_slash c); [reflexivity|].
  now destruct (split_on is_slash s).
Qed.

Lemma filter_components_lower l :
  List.filter (fun x => truthy x && negb (bool_decide (x = str "."))) (map lower l)
  = map lower
      (List.filter (fun x => truthy x && negb (bool_decide (x = str "."))) l).
Proof.
  induction l as [|x l IH]; [reflexivity|]. cbn [List.filter map].
  assert (E : (truthy (lower x) && negb (bool_decide (lower x = str ".")))%bool
              = (truthy x && negb (bool_decide (x = str ".")))%bool).
  { assert (E1 : truthy (lower x) = truthy x) by (destruct x; reflexivity).
    assert (E2 : bool_decide (lower x = str ".") = bool_decide (x = str "."))
      by apply bool_decide_ext, lower_is_dot.
    now rewrite E1, E2. }
  rewrite E. clear E.
  destruct (truthy x && negb (bool_decide (x = str ".")))%bool; cbn [map];
    now rewrite IH.
Qed.

Lemma last_lower l : List.last (map lower l) [] = lower (List.last l []).
Proof.
  induction l as [|x l IH]; [reflexivity|].
  destruct l as [|y l]; [reflexivity|]. exact IH.
Qed.

Lemma path_name_lower filename : path_name (lower filename) = lower (path_name filename).
Proof.
  unfold path_name. now rewrite split_on_lower, filter_components_lower, last_lower.
Qed.

Lemma rfind_dot_lower s : rfind_dot (lower s) = rfind_dot s.
Proof.
  induction s as [|c s IH]; [reflexivity|].
  simpl. fold (lower s). now rewrite IH, lower_char_dot.
Qed.

Lemma path_suffix_lower filename :
  path_suffix (lower filename) = lower (path_suffix filename).
Proof.
  unfold path_suffix. rewrite path_name_lower, rfind_dot_lower.
  destruct (rfind_dot (path_name filename)) as [i|]; [|reflexivity].
  unfold lower at 1. rewrite length_map.
  destruct (_ && _)%bool; [|reflexivity].
  unfold lower. apply skipn_map.
Qed.

Lemma is_allowed_file_lower filename :
  is_allowed_file (lower filename) = is_allowed_file filename.
Proof. unfold is_allowed_file. now rewrite path_suffix_lower, lower_idem. Qed.

End LetterCase.

(** X21.  Whether a file name is accepted does not depend on the case of
    its letters: two names that agree once lowered get the same answer. *)
Theorem allowed_file_ignores_case (f g : text) :
  UtilsMore.lower f = UtilsMore.lower g ->
  UtilsMore.is_allowed_file f = UtilsMore.is_allowed_file g.
Proof.
  intros H. rewrite <- (is_allowed_file_lower f), <- (is_allowed_file_lower g).
  now rewrite H.
Qed.

Lemma allowed_file_ignores_case_witness :
  UtilsMore.is_allowed_file (str "Scan.JPEG") = UtilsMore.is_allowed_file (str "scan.jpeg").
Proof.
  apply (allowed_file_ignores_case (str "Scan.JPEG") (str "scan.jpeg")).
  reflexivity.
Defined.

Section ArtifactNames.

Lemma allowed_not_slash c : allowed c = true -> c <> "/"%char.
Proof. intros H ->. discriminate. Qed.

Lemma allowed_not_backslash c : allowed c = true -> c <> "\"%char.
Proof. intros H ->. discriminate. Qed.

Lemma contains_single (d : ascii) s :
  Forall (fun c => c <> d) s -> contains [d] s = false.
Proof.
  intros Hall. destruct (contains [d] s) eqn:E; [|reflexivity].
  apply contains_spec in E as (a & b & ->).
  apply List.Forall_app in Hall as [_ Hall]. inversion Hall; subst. congruence.
Qed.

Lemma sanitize_stem_allowed filename :
  Forall (fun c => allowed c = true) (sanitize_stem filename)
  /\ sanitize_stem filename <> [].
Proof.
  unfold sanitize_stem.
  destruct (negb (truthy (strip (path_stem filename)))
            || starts_with_dot (strip (path_stem filename)))%bool;
    [split; [repeat constructor | discriminate]|].
  destruct (clean_spec (strip (path_stem filename))) as (Hall & _).
  destruct (clean (strip (path_stem filename))) as [|c s] eqn:E;
    [split; [repeat constructor | discriminate]|].
  destruct (negb (truthy (c :: s)) || negb (any_alnum (c :: s)))%bool;
    [split; [repeat constructor | discriminate]|].
  split; [|discriminate].
  eapply segment_Forall; [apply firstn_segment | exact Hall].
Qed.

End ArtifactNames.

(** X22.  An artifact that exists in the job's directory under a name made
    of the sanitized prefix and a suffix of letters, digits, dots, dashes
    and underscores is handed out by [get_artifact_path] unless the name
    holds two dots in a row; then it is refused although the file is there.
    The prefix of "a..pdf" is "a.", so none of its artifacts can be
    fetched. *)
Theorem artifact_of_sanitized_prefix
    (fs : filesystem) (job filename suffix : text) :
  Forall (fun c => allowed c = true) suffix ->
  let name := sanitize_stem filename ++ suffix in
  let od := joinpath fs (OUTPUTS_DIR fs) job in
  let target := resolve fs (joinpath fs od name) in
  path_exists fs od = true ->
  starts_with (path_str fs (resolve fs od)) (path_str fs target) = true ->
  is_file fs target = true ->
  get_artifact_path fs job name =
    if contains (str "..") name then None else Some target.
Proof.
  intros Hsuffix name od target Hod Hin Hfile.
  destruct (sanitize_stem_allowed filename) as [Hall Hne].
  assert (Hname : Forall (fun c => allowed c = true) name)
    by (apply List.Forall_app; split; assumption).
  assert (Htruthy : truthy name = true).
  { subst name. destruct (sanitize_stem filename); [congruence | reflexivity]. }
  assert (Hslash : contains (str "/") name = false).
  { apply contains_single. eapply List.Forall_impl; [|exact Hname].
    apply allowed_not_slash. }
  assert (Hback : contains (str "\") name = false).
  { apply contains_single. eapply List.Forall_impl; [|exact Hname].
    apply allowed_not_backslash. }
  unfold get_artifact_path. fold od. fold target.
  rewrite Htruthy, Hslash, Hback, Hod, Hin, Hfile.
  now destruct (contains (str "..") name).
Qed.

Lemma artifact_of_sanitized_prefix_witness :
  sanitize_stem (str "a..pdf") = str "a."
  /\ get_artifact_path full_fs (str "job-1") (str "a..document.md") = None
  /\ get_artifact_path full_fs (str "job-1") (str "report.document.md")
     = Some (str "/data/outputs/job-1/report.document.md").
Proof.
  split; [reflexivity|]. split.
  - apply (artifact_of_sanitized_prefix full_fs (str "job-1") (str "a..pdf")
             (str ".document.md")); [|reflexivity..].
    repeat (constructor; [reflexivity|]). constructor.
  - apply (artifact_of_sanitized_prefix full_fs (str "job-1") (str "report.pdf")
             (str ".document.md")); [|reflexivity..].
    repeat (constructor; [reflexivity|]). constructor.
Defined.

Section Uploads.

Import UtilsMore StorageMore RoutesUpload.
Local Open Scope string_scope.

Lemma string_of_list_ascii_nil l : string_of_list_ascii l = "" -> l = [].
Proof. destruct l; [reflexivity | discriminate]. Qed.

Lemma accepted_name_of name :
  is_allowed_file (list_ascii_of_string name) = true ->
  name <> "" /\ name_of name <> "".
Proof.
  intros H. split.
  - intros ->. vm_compute in H. discriminate.
  - intros E. apply string_of_list_ascii_nil in E.
    pose proof (stem_suffix (list_ascii_of_string name)) as Hs.
    rewrite E in Hs. apply app_eq_nil in Hs as [Hs _].
    exact (suffix_stem_nonempty _ (allowed_suffix_nonempty _ H) Hs).
Qed.

Lemma upload_file_stores env name w :
  faults w = [] ->
  is_allowed_file (list_ascii_of_string name) = true ->
  (MIN_FREE_BYTES <= free_bytes env)%Z ->
  uploads w !! fresh_id env = None ->
  upload_file env (Some name) w =
    (Ok (fresh_id env),
     set_uploads (<[fresh_id env := [name_of name]]>
                    (<[fresh_id env := []]> (uploads w))) w).
Proof.
  intros H Hok Hfree Hnew.
  destruct (accepted_name_of name Hok) as [Hname Hdest].
  unfold upload_file. rewrite (bool_decide_eq_false_2 _ Hname), Hok.
  cbn [negb]. unfold bind, job_upload_dir, generate_job_id.
  rewrite (io_calm _ _ H). cbn [fst snd]. rewrite Hnew.
  unfold try_except.
  rewrite io_calm by exact H. cbn [fst snd].
  assert (Hlt : (free_bytes env <? MIN_FREE_BYTES)%Z = false) by now apply Z.ltb_ge.
  rewrite Hlt, (bool_decide_eq_false_2 _ Hdest).
  rewrite io_calm by exact H. cbn [fst snd].
  unfold store. cbn [uploads set_uploads]. rewrite lookup_insert_eq. cbn [default].
  rewrite bool_decide_eq_false_2 by apply not_elem_of_nil.
  reflexivity.
Qed.

End Uploads.

(** X23.  An upload that goes through can be extracted.  On a healthy file
    system with enough free space, a file sent under an accepted name is
    stored under the last component of that name as the only file of a new
    upload directory, the uploads of the other jobs staying as they are; the
    id returned finds it again, and the first request to extract that id is
    not answered 404 but starts the extraction. *)
Theorem uploaded_file_can_be_extracted
    (env : RoutesUpload.upload_environment) (name : string)
    (body : option ProcessingConfig) (w : world) :
  faults w = [] ->
  UtilsMore.is_allowed_file (list_ascii_of_string name) = true ->
  RoutesUpload.MIN_FREE_BYTES <= RoutesUpload.free_bytes env ->
  uploads w !! RoutesUpload.fresh_id env = None ->
  RoutesUpload.fresh_id env ∉ extracting w ->
  let job := RoutesUpload.fresh_id env in
  let r := RoutesUpload.upload_file env (Some name) w in
  fst r = Ok job
  /\ uploads (snd r) !! job = Some [RoutesUpload.name_of name]
  /\ RoutesUpload.name_of name <> ""%string
  /\ (forall other, other <> job -> uploads (snd r) !! other = uploads w !! other)
  /\ fst (get_uploaded_file_path job (snd r)) = Ok (Some (RoutesUpload.name_of name))
  /\ fst (extract_job job body (snd r)) = Ok (Summary job true STARTED []).
Proof.
  intros H Hok Hfree Hnew Hout job r. subst r.
  rewrite (upload_file_stores env name w H Hok Hfree Hnew). cbn [fst snd].
  set (w' := StorageMore.set_uploads
               (<[job := [RoutesUpload.name_of name]]> (<[job := []]> (uploads w))) w).
  assert (Hup : uploads w' !! job = Some [RoutesUpload.name_of name])
    by apply lookup_insert_eq.
  split; [reflexivity|]. split; [exact Hup|].
  split; [apply (accepted_name_of name Hok)|]. split; [|split].
  - intros other Hne. subst w'. cbn [uploads StorageMore.set_uploads].
    rewrite !lookup_insert_ne by (intros E; apply Hne; symmetry; exact E).
    reflexivity.
  - rewrite get_uploaded_file_path_calm by exact H.
    unfold fst. fold job. fold w'. now rewrite Hup.
  - now destruct (extract_job_idle job body w' (RoutesUpload.name_of name) []
                    Hout Hup H) as [Hans _].
Qed.

Lemma uploaded_file_can_be_extracted_witness :
  let r := RoutesUpload.upload_file roomy (Some "scans/Report.v2.PDF"%string)
             idle_world in
  fst r = Ok "job-7"%string
  /\ uploads (snd r) !! "job-7"%string = Some ["Report.v2.PDF"%string]
  /\ RoutesUpload.name_of "scans/Report.v2.PDF" <> ""%string
  /\ (forall other, other <> "job-7"%string ->
        uploads (snd r) !! other = uploads idle_world !! other)
  /\ fst (get_uploaded_file_path "job-7" (snd r)) = Ok (Some "Report.v2.PDF"%string)
  /\ fst (extract_job "job-7" None (snd r)) = Ok (Summary "job-7" true STARTED []).
Proof.
  apply (uploaded_file_can_be_extracted roomy "scans/Report.v2.PDF" None idle_world);
    try reflexivity.
  - vm_compute. discriminate.
  - apply not_elem_of_empty.
Defined.

Section Started.

Local Open Scope string_scope.

Variables (job : string) (body : option ProcessingConfig).

Lemma bind_ok {A B} (m : M A) (k : A -> M B) w a w' :
  m w = (Ok a, w') -> bind m k w = k a w'.
Proof. intros E. unfold bind. now rewrite E. Qed.

Lemma uploads_put_file j name c w : uploads (put_file j name c w) = uploads w.
Proof. unfold put_file. cbn [uploads set_outputs]. apply uploads_mkdir. Qed.

(** The files of the job when a request has started its extraction. *)
Lemma extract_job_files w name others :
  job ∉ extracting w ->
  uploads w !! job = Some (name :: others) ->
  faults w = [] ->
  exists w',
    extract_job job body w = (Ok (Summary job true STARTED []), w')
    /\ faults w' = []
    /\ uploads w' = uploads w
    /\ dir_of job w' =
         write_file (prefix_of name ++ ".metadata.json")
           (MetadataJson (Metadata job name "extracting" (Some (prefix_of name))
                                   [] [] None None))
           (write_file PROCESSING_REQUEST_FILENAME (ConfigJson (default [] body))
              (dir_of job w)).
Proof.
  intros Hout Hup H.
  destruct (mkdir_output_fields job w) as (Hg & _ & _ & Hf).
  set (w1 := mkdir_output job w).
  set (w2 := set_extracting ({[job]} ∪ extracting w1) w1).
  set (w3 := emit (EvWriteConfig job)
               (put_file job PROCESSING_REQUEST_FILENAME (ConfigJson (default [] body))
                  (mkdir_output job w2))).
  assert (H1 : faults w1 = []) by (subst w1; now rewrite Hf).
  assert (H2 : faults w2 = []) by exact H1.
  assert (H3 : faults w3 = []).
  { subst w3. unfold emit, set_log. cbn [faults].
    now apply put_file_calm, mkdir_calm. }
  unfold extract_job.
  rewrite (bind_ok _ _ w (Some name) w)
    by (rewrite (get_uploaded_file_path_calm _ _ H), Hup; reflexivity).
  rewrite (bind_ok _ _ w tt w1) by (unfold job_output_dir; now rewrite (io_calm _ _ H)).
  rewrite (bind_ok _ _ w1 false w2).
  2:{ unfold check_and_add.
      rewrite bool_decide_eq_false_2 by (subst w1; rewrite Hg; exact Hout).
      reflexivity. }
  rewrite (bind_ok _ _ w2 tt w3).
  2:{ unfold write_processing_request.
      rewrite (bind_ok _ _ w2 tt (mkdir_output job w2))
        by (unfold job_output_dir; now rewrite (io_calm _ _ H2)).
      now rewrite (io_calm _ (mkdir_output job w2) (mkdir_calm job w2 H2)). }
  rewrite (bind_ok _ _ w3 tt _ (write_metadata_calm _ _ _ _ H3)).
  unfold bind, start_thread, ret.
  eexists. split; [reflexivity|]. split; [|split].
  - unfold emit, set_log, set_threads. cbn [faults]. now apply put_file_calm.
  - unfold emit, set_log, set_threads. cbn [uploads].
    rewrite uploads_put_file. subst w3. unfold emit, set_log. cbn [uploads].
    rewrite uploads_put_file, uploads_mkdir. subst w2 w1.
    unfold set_extracting. cbn [uploads]. apply uploads_mkdir.
  - change (dir_of job (emit _ (set_threads _ (emit _ ?x)))) with (dir_of job x).
    rewrite dir_of_put_file. subst w3.
    change (dir_of job (emit _ ?x)) with (dir_of job x).
    rewrite dir_of_put_file, dir_of_mkdir. subst w2.
    change (dir_of job (set_extracting _ ?x)) with (dir_of job x).
    subst w1. now rewrite dir_of_mkdir.
Qed.

End Started.

Section Polling.

Local Open Scope string_scope.

Lemma existsb_write_file (P : string * content -> bool) name c d :
  P (name, c) = false -> existsb P d = false -> existsb P (write_file name c d) = false.
Proof.
  intros Hn. induction d as [|[n c'] d IH]; simpl.
  - intros _. now rewrite Hn.
  - intros H. apply orb_false_elim in H as [H1 H2].
    case_bool_decide; simpl.
    + now rewrite Hn, H2.
    + now rewrite H1, IH.
Qed.

Lemma metadata_file_is_no_document p :
  (ends_with (p ++ ".metadata.json") ".document.md"
   || ends_with (p ++ ".metadata.json") ".document_structured.json")%bool = false.
Proof.
  unfold ends_with. rewrite list_ascii_app, rev_app_distr. reflexivity.
Qed.

End Polling.

(** X24.  Between the start of an extraction and the first document file a
    poller sees "extracting" and no artifact.  After a request has started
    the extraction of a job on a healthy file system -- no document file and
    no foreign metadata file being in its directory -- [get_job] reports the
    record the request wrote, with status "extracting", and an empty list of
    artifacts, although [list_artifacts] lists the metadata file. *)
Theorem started_job_polls_as_extracting
    (job : string) (body : option ProcessingConfig) (w : world)
    (name : string) (others : list string) :
  job ∉ extracting w ->
  uploads w !! job = Some (name :: others) ->
  faults w = [] ->
  only_own_metadata (prefix_of name) (dir_of job w) ->
  existsb (fun f : string * content =>
             ends_with (fst f) ".document.md"
             || ends_with (fst f) ".document_structured.json") (dir_of job w) = false ->
  let w' := snd (extract_job job body w) in
  fst (RoutesJob.get_job job w') =
    Ok (RoutesJob.Response
          (Metadata job name "extracting" (Some (prefix_of name)) [] [] None None) [])
  /\ exists listed,
       fst (list_artifacts job w') = Ok listed
       /\ In (prefix_of name ++ ".metadata.json")%string listed.
Proof.
  intros Hout Hup H Hown Hnodoc w'.
  destruct (extract_job_files job body w name others Hout Hup H)
    as (w1 & Hrun & H1 & Hup1 & Hdir).
  subst w'. rewrite Hrun. cbn [snd].
  set (record := Metadata job name "extracting" (Some (prefix_of name)) [] [] None None)
    in *.
  assert (Hfind : List.find (fun f : string * content => is_metadata_name (fst f))
                            (dir_of job w1)
                  = Some ((prefix_of name ++ ".metadata.json")%string,
                          MetadataJson record)).
  { rewrite Hdir. apply find_write_file; [apply is_metadata_name_own|].
    apply only_own_metadata_other; [reflexivity | exact Hown]. }
  assert (Hfound : existsb (fun f : string * content =>
                              ends_with (fst f) ".document.md"
                              || ends_with (fst f) ".document_structured.json")
                           (dir_of job w1) = false).
  { rewrite Hdir. apply existsb_write_file; [apply metadata_file_is_no_document|].
    apply existsb_write_file; [reflexivity | exact Hnodoc]. }
  split.
  - pose proof (get_job_calm job w1 H1) as E. cbv zeta in E. rewrite E. clear E.
    rewrite Hfind, Hfound. reflexivity.
  - rewrite (list_artifacts_calm _ _ H1). eexists. split; [reflexivity|].
    apply List.filter_In. split.
    + apply in_map_iff. exists ((prefix_of name ++ ".metadata.json")%string,
                                MetadataJson record).
      split; [reflexivity|]. now apply find_some in Hfind as [Hin _].
    + apply negb_true_iff, orb_false_iff. split; apply bool_decide_eq_false; intros E.
      * apply (f_equal is_metadata_name) in E.
        rewrite is_metadata_name_own in E. vm_compute in E. discriminate.
      * apply (f_equal is_metadata_name) in E.
        rewrite is_metadata_name_own in E. vm_compute in E. discriminate.
Qed.

Lemma started_job_polls_as_extracting_witness :
  let w' := snd (extract_job "job-1" None idle_world) in
  fst (RoutesJob.get_job "job-1" w') =
    Ok (RoutesJob.Response
          (Metadata "job-1" "report.pdf" "extracting" (Some (prefix_of "report.pdf"))
                    [] [] None None) [])
  /\ exists listed,
       fst (list_artifacts "job-1" w') = Ok listed
       /\ In (prefix_of "report.pdf" ++ ".metadata.json")%string listed.
Proof.
  apply (started_job_polls_as_extracting "job-1" None idle_world "report.pdf" []);
    try reflexivity.
  - apply not_elem_of_empty.
  - intros f Hf. vm_compute in Hf. destruct Hf.
Defined.

Section UploadOutcomes.

Import UtilsMore StorageMore RoutesUpload.
Local Open Scope string_scope.

Variable job : string.

Lemma upload_keeps_refl w : upload_keeps job w w.
Proof. repeat split. Qed.

Lemma upload_keeps_trans w1 w2 w3 :
  upload_keeps job w1 w2 -> upload_keeps job w2 w3 -> upload_keeps job w1 w3.
Proof.
  intros (A1 & A2 & A3 & A4 & A5) (B1 & B2 & B3 & B4 & B5).
  do 4 (split; [congruence|]). intros other Hne.
  now rewrite (B5 other Hne), (A5 other Hne).
Qed.

Lemma upload_keeps_oracle w oracle : upload_keeps job w (set_faults oracle w).
Proof. repeat split. Qed.

Lemma upload_keeps_insert l w :
  upload_keeps job w (set_uploads (<[job := l]> (uploads w)) w).
Proof.
  do 4 (split; [reflexivity|]). intros other Hne. cbn [uploads set_uploads].
  now rewrite lookup_insert_ne by (intros E; apply Hne; symmetry; exact E).
Qed.

Lemma io_raises {A} (f : world -> A * world) w e w' :
  io f w = (Raise e, w') -> e = OSError.
Proof.
  unfold io. destruct (faults w) as [|[|] rest].
  - destruct (f w). discriminate.
  - now intros [= <- _].
  - destruct (f (set_faults rest w)). discriminate.
Qed.

Lemma upload_file_keeps env sent_name :
  fresh_id env = job -> moves_by (upload_keeps job) (upload_file env sent_name).
Proof.
  intros Hid. unfold upload_file.
  destruct (negb _); [apply moves_raise, upload_keeps_refl|].
  apply moves_bind; [apply upload_keeps_trans | |intros _].
  { apply moves_io; [apply upload_keeps_trans | apply upload_keeps_oracle|].
    intros w. cbn [snd]. unfold generate_job_id. rewrite Hid.
    destruct (uploads w !! job); [apply upload_keeps_refl | apply upload_keeps_insert]. }
  apply moves_try_except; [apply upload_keeps_trans | | |].
  - apply moves_io; [apply upload_keeps_trans | apply upload_keeps_oracle|].
    intros w. apply upload_keeps_refl.
  - intros e. destruct e; apply moves_raise, upload_keeps_refl.
  - intros free. destruct (free <? MIN_FREE_BYTES)%Z;
      [apply moves_raise, upload_keeps_refl|].
    apply moves_try_except; [apply upload_keeps_trans | | |].
    + apply moves_io; [apply upload_keeps_trans | apply upload_keeps_oracle|].
      intros w. cbn [snd]. unfold store, generate_job_id. rewrite Hid.
      destruct (bool_decide _); [apply upload_keeps_refl | apply upload_keeps_insert].
    + intros e. destruct e; apply moves_raise, upload_keeps_refl.
    + intros _. apply moves_ret, upload_keeps_refl.
Qed.

End UploadOutcomes.

(** X25.  An upload touches nothing but the upload directory of the id it
    draws: the guard, the supervisors, the log, the output directories and
    the uploads of the other jobs stay as they are, whatever the file system
    does.  It ends with that id, with [OSError] from creating the directory,
    or with one of the answers 400, 500 and 507; when no accepted file name
    is sent -- none at all, an empty one, or one without an allowed
    extension -- the answer is 400 and nothing has changed. *)
Theorem upload_file_outcomes
    (env : RoutesUpload.upload_environment) (sent_name : option string) (w : world) :
  let r := RoutesUpload.upload_file env sent_name w in
  upload_keeps (RoutesUpload.fresh_id env) w (snd r)
  /\ (fst r = Ok (RoutesUpload.fresh_id env)
      \/ fst r = Raise OSError
      \/ fst r = Raise (HTTPException 400)
      \/ fst r = Raise (HTTPException 500)
      \/ fst r = Raise (HTTPException 507))
  /\ ((forall n, sent_name = Some n ->
         UtilsMore.is_allowed_file (list_ascii_of_string n) = false) ->
      r = (Raise (HTTPException 400), w)).
Proof.
  intros r. split; [now apply upload_file_keeps|]. subst r.
  unfold RoutesUpload.upload_file.
  set (p := match sent_name with
            | Some n => if bool_decide (n = ""%string) then "document"%string else n
            | None => "document"%string
            end).
  destruct (UtilsMore.is_allowed_file (list_ascii_of_string p)) eqn:Hp; cbn [negb].
  - split.
    + unfold bind, try_except.
      destruct (StorageMore.job_upload_dir _ w) as [[[]|e] w1] eqn:E1.
      2:{ apply io_raises in E1 as ->. auto. }
      destruct (io _ w1) as [[free|e] w2] eqn:E2.
      2:{ apply io_raises in E2 as ->. destruct (RoutesUpload.no_space env); auto 6. }
      destruct (free <? RoutesUpload.MIN_FREE_BYTES)%Z; [auto 6|].
      destruct (io _ w2) as [[[]|e] w3] eqn:E3; [auto|].
      apply io_raises in E3 as ->. destruct (RoutesUpload.no_space env); auto 6.
    + intros Hno. exfalso. subst p.
      destruct sent_name as [n|]; [|vm_compute in Hp; discriminate].
      case_bool_decide as En; [vm_compute in Hp; discriminate|].
      rewrite (Hno n eq_refl) in Hp. discriminate.
  - split; [auto|]. reflexivity.
Qed.
